(** * ASCII supernova: the simulation and render loop of [supernova.c]

    A shallow embedding of [spawn_particles], [draw_star],
    [update_particles], [update_star] and the loop of [main], followed by
    the properties of the specification that were checked against them.

    Modelling conventions.
    - [float] and [double] values are real numbers ([R]).  The first part
      of the file computes with them exactly: [sin], [cos], [sqrt] and
      [M_PI] of <math.h> are the functions and the constant of the
      Standard Library's reals, and no operation rounds.  The last part
      (module [Float]) rounds every operation to binary32 or binary64, to
      the nearest value with ties to even; it settles the properties that
      rounding changes: the progress of the collapse, of the clock and of
      the lifetimes.  Overflow and NaN are outside both models.
    - [int] values are [Z]; the stage constants are the macros of the file.
    - The array [particles[MAX_PARTICLES]] is a list read with [!!] and
      written with [<[i:=p]>]; the loops only touch indices below
      [particle_count].
    - [rand()] is an oracle: [rand g] is the value of the call number [g]
      since [srand], and every function that calls [rand()] threads the
      number of calls made so far.
    - [putchar] output is the list of characters written. *)

From Stdlib Require Import Reals Lra Lia ZArith List Ascii.
From stdpp Require Import base list.

Open Scope R_scope.

(** ** Comparisons of the C code, as booleans *)

Definition Rltb (a b : R) : bool := if Rlt_dec a b then true else false.
Definition Rleb (a b : R) : bool := if Rle_dec a b then true else false.

Notation "a <? b" := (Rltb a b) : R_scope.
Notation "a <=? b" := (Rleb a b) : R_scope.
Notation "a >? b" := (Rltb b a) : R_scope.
Notation "a >=? b" := (Rleb b a) : R_scope.

(** The conversion [(int)v] of a real: truncation toward zero. *)
Definition Ztrunc (v : R) : Z :=
  if 0 <=? v then Int_part v else (- Int_part (- v))%Z.

(** ** Constants of the file *)

Definition WIDTH : Z := 90.
Definition HEIGHT : Z := 32.
Definition FPS : Z := 30.

Definition GIANT : Z := 0.
Definition COLLAPSE : Z := 1.
Definition BOUNCE : Z := 2.
Definition EXPLOSION : Z := 3.
Definition NEBULA : Z := 4.

Definition MAX_PARTICLES : Z := 450.

(** ** Data *)

Module Particle.
Record t : Type := mk {
  x : R;
  y : R;
  vx : R;
  vy : R;
  life : R
}.
End Particle.

Module Star.
Record t : Type := mk {
  radius : R;
  core_radius : R;
  explosion_radius : R;
  velocity : R;
  time : R;
  density : R;
  state : Z;
  particles : list Particle.t;
  particle_count : Z
}.
End Star.

(** Assignments to one field of a [Star]. *)

Definition set_radius (v : R) (s : Star.t) : Star.t :=
  Star.mk v (Star.core_radius s) (Star.explosion_radius s) (Star.velocity s)
    (Star.time s) (Star.density s) (Star.state s) (Star.particles s)
    (Star.particle_count s).

Definition set_core_radius (v : R) (s : Star.t) : Star.t :=
  Star.mk (Star.radius s) v (Star.explosion_radius s) (Star.velocity s)
    (Star.time s) (Star.density s) (Star.state s) (Star.particles s)
    (Star.particle_count s).

Definition set_explosion_radius (v : R) (s : Star.t) : Star.t :=
  Star.mk (Star.radius s) (Star.core_radius s) v (Star.velocity s)
    (Star.time s) (Star.density s) (Star.state s) (Star.particles s)
    (Star.particle_count s).

Definition set_velocity (v : R) (s : Star.t) : Star.t :=
  Star.mk (Star.radius s) (Star.core_radius s) (Star.explosion_radius s) v
    (Star.time s) (Star.density s) (Star.state s) (Star.particles s)
    (Star.particle_count s).

Definition set_time (v : R) (s : Star.t) : Star.t :=
  Star.mk (Star.radius s) (Star.core_radius s) (Star.explosion_radius s)
    (Star.velocity s) v (Star.density s) (Star.state s) (Star.particles s)
    (Star.particle_count s).

Definition set_state (v : Z) (s : Star.t) : Star.t :=
  Star.mk (Star.radius s) (Star.core_radius s) (Star.explosion_radius s)
    (Star.velocity s) (Star.time s) (Star.density s) v (Star.particles s)
    (Star.particle_count s).

Definition set_particles (v : list Particle.t) (s : Star.t) : Star.t :=
  Star.mk (Star.radius s) (Star.core_radius s) (Star.explosion_radius s)
    (Star.velocity s) (Star.time s) (Star.density s) (Star.state s) v
    (Star.particle_count s).

Definition set_particle_count (v : Z) (s : Star.t) : Star.t :=
  Star.mk (Star.radius s) (Star.core_radius s) (Star.explosion_radius s)
    (Star.velocity s) (Star.time s) (Star.density s) (Star.state s)
    (Star.particles s) v.

(** ** Loops

    [for_loop i n body a] runs [body i], [body (i+1)], ..., [body (i+n-1)]
    on the loop state [a]; [for_upto n] is
    [for (int i = 0; i < n; i++)] for an [int] bound [n]. *)

Fixpoint for_loop {A : Type} (i n : nat) (body : nat -> A -> A) (a : A) : A :=
  match n with
  | O => a
  | S n' => for_loop (S i) n' body (body i a)
  end.

Definition for_upto {A : Type} (n : Z) (body : nat -> A -> A) (a : A) : A :=
  for_loop 0 (Z.to_nat n) body a.

(** ** The C library's random generator

    [RAND_MAX] is the constant of <stdlib.h>; [rand g] is what the call
    number [g] of [rand()] returns for the seed that [srand(time(NULL))]
    installed. *)

Class Libc : Type := {
  RAND_MAX : Z;
  rand : nat -> Z
}.

(** What the C standard promises about them. *)
Class LibcSpec (L : Libc) : Prop := {
  RAND_MAX_min : (32767 <= RAND_MAX)%Z;
  rand_range : forall g : nat, (0 <= rand g <= RAND_MAX)%Z
}.

Section Program.

Context {L : Libc}.

(** ** spawn_particles (lines 119-134) *)

Definition spawn_particles (s : Star.t) (g : nat) : Star.t * nat :=
  let s := set_particle_count MAX_PARTICLES s in
  let cx := IZR WIDTH / 2.0 in
  let cy := IZR HEIGHT / 2.0 in
  for_upto MAX_PARTICLES
    (fun i '(s, g) =>
       let angle := IZR (rand g) / IZR RAND_MAX * 2 * PI in
       let g := S g in
       let speed := IZR (10 + Z.rem (rand g) 40) in
       let g := S g in
       let p :=
         Particle.mk cx cy
           (cos angle * speed)
           (sin angle * speed * 0.55)
           (2.5 + IZR (rand g) / IZR RAND_MAX * 1.5) in
       let g := S g in
       (set_particles (<[i:=p]> (Star.particles s)) s, g))
    (s, g).

(** ** draw_star (lines 151-211) *)

(** [clear()] writes the two escape sequences ESC[H and ESC[J. *)
Definition clear : list ascii :=
  [ascii_of_nat 27; "["; "H"; ascii_of_nat 27; "["; "J"]%char.

Definition newline : ascii := ascii_of_nat 10.

(** The distance of the cell [(x, y)] from the centre, lines 154-163. *)
Definition cell_distance (y x : Z) : R :=
  let cx := IZR WIDTH / 2.0 in
  let cy := IZR HEIGHT / 2.0 in
  let dy := (IZR y - cy) * 1.5 in
  let dx := IZR x - cx in
  sqrt (dx * dx + dy * dy).

(** The first layer, lines 165-192: the symbol chosen by the stage.  Only
    the nebula branch calls [rand()], and only for a cell inside the
    explosion radius ([&&] evaluates its right operand last). *)
Definition base_pixel (s : Star.t) (d : R) (g : nat) : ascii * nat :=
  let pixel := " "%char in
  if (Star.state s =? GIANT)%Z then
    (if d <=? Star.radius s then "#"%char else pixel, g)
  else if (Star.state s =? COLLAPSE)%Z then
    (if d <=? Star.radius s then "@"%char else pixel, g)
  else if (Star.state s =? BOUNCE)%Z then
    (if (d <=? Star.radius s) && (d >=? Star.radius s - 1.5)
     then "*"%char else pixel, g)
  else if (Star.state s =? EXPLOSION)%Z then
    (if (d <=? Star.explosion_radius s) && (d >=? Star.explosion_radius s - 1.6)
     then "*"%char else pixel, g)
  else if (Star.state s =? NEBULA)%Z then
    if d <=? Star.explosion_radius s then
      (if (Z.rem (rand g) 12 =? 0)%Z then "."%char else pixel, S g)
    else (pixel, g)
  else (pixel, g).

(** The second layer, lines 194-196. *)
Definition core_pixel (s : Star.t) (d : R) (pixel : ascii) : ascii :=
  if d <=? Star.core_radius s then "O"%char else pixel.

(** The third layer, lines 198-205: the loop over the particles. *)
Definition particle_pixel (s : Star.t) (y x : Z) (pixel : ascii) : ascii :=
  for_upto (Star.particle_count s)
    (fun i pixel =>
       match Star.particles s !! i with
       | Some p =>
           let px := Ztrunc (Particle.x p) in
           let py := Ztrunc (Particle.y p) in
           if (px =? x)%Z && (py =? y)%Z && (Particle.life p >? 0)
           then "+"%char else pixel
       | None => pixel
       end)
    pixel.

(** The body of the two nested loops: the character written for the cell
    [(x, y)] and the calls to [rand()] made on the way. *)
Definition pixel_at (s : Star.t) (y x : Z) (g : nat) : ascii * nat :=
  let d := cell_distance y x in
  let '(pixel, g) := base_pixel s d g in
  let pixel := core_pixel s d pixel in
  let pixel := particle_pixel s y x pixel in
  (pixel, g).

Definition draw_star (s : Star.t) (g : nat) : list ascii * nat :=
  for_upto HEIGHT
    (fun y '(out, g) =>
       let '(out, g) :=
         for_upto WIDTH
           (fun x '(out, g) =>
              let '(pixel, g) := pixel_at s (Z.of_nat y) (Z.of_nat x) g in
              (out ++ [pixel], g))
           (out, g) in
       (out ++ [newline], g))
    (clear, g).

(** ** update_particles (lines 216-224) *)

Definition update_particles (s : Star.t) (dt : R) : Star.t :=
  for_upto (Star.particle_count s)
    (fun i s =>
       match Star.particles s !! i with
       | Some p =>
           if Particle.life p <=? 0 then s
           else
             let p :=
               Particle.mk
                 (Particle.x p + Particle.vx p * dt)
                 (Particle.y p + Particle.vy p * dt)
                 (Particle.vx p) (Particle.vy p)
                 (Particle.life p - dt) in
             set_particles (<[i:=p]> (Star.particles s)) s
       | None => s
       end)
    s.

(** ** update_star (lines 229-292) *)

Definition update_star (s : Star.t) (dt : R) (g : nat) : Star.t * nat :=
  let s := set_time (Star.time s + dt) s in
  if (Star.state s =? GIANT)%Z then
    let s := set_radius (9 + sin (Star.time s * 3) * 1.5) s in
    if Star.time s >? 5 then
      let s := set_state COLLAPSE s in
      let s := set_time 0 s in
      let s := set_velocity 0 s in
      (s, g)
    else (s, g)
  else if (Star.state s =? COLLAPSE)%Z then
    let s := set_velocity (Star.velocity s + 40 * dt) s in
    let s := set_radius (Star.radius s - Star.velocity s * dt) s in
    if Star.radius s <? 3 then
      let s := set_state BOUNCE s in
      let s := set_time 0 s in
      let s := set_core_radius 2 s in
      (s, g)
    else (s, g)
  else if (Star.state s =? BOUNCE)%Z then
    let s := set_radius (Star.radius s + 25 * dt) s in
    if Star.time s >? 0.8 then
      let s := set_state EXPLOSION s in
      let s := set_time 0 s in
      let s := set_explosion_radius 3 s in
      spawn_particles s g
    else (s, g)
  else if (Star.state s =? EXPLOSION)%Z then
    let s := set_explosion_radius (Star.explosion_radius s + 30 * dt) s in
    let s := update_particles s dt in
    if Star.explosion_radius s >? 32 then
      let s := set_state NEBULA s in
      let s := set_time 0 s in
      (s, g)
    else (s, g)
  else if (Star.state s =? NEBULA)%Z then
    let s := set_explosion_radius (Star.explosion_radius s + 6 * dt) s in
    let s := update_particles s dt in
    if Star.explosion_radius s >? 42 then
      let s := set_state GIANT s in
      let s := set_time 0 s in
      let s := set_radius 9 s in
      (s, g)
    else (s, g)
  else (s, g).

(** ** main (lines 294-315)

    [Star s] is a local variable: the fields that [main] does not assign
    ([density] and the particle array) hold whatever the stack held, here
    [density0] and [particles0]. *)

Definition star_init (density0 : R) (particles0 : list Particle.t) : Star.t :=
  Star.mk 9 0 0 0 0 density0 GIANT particles0 0.

(** [float dt = 1.0 / FPS] *)
Definition dt_main : R := 1.0 / IZR FPS.

(** One turn of [while(1)]: the new program state and the frame written. *)
Definition frame (w : Star.t * nat) : (Star.t * nat) * list ascii :=
  let '(s, g) := w in
  let '(s, g) := update_star s dt_main g in
  let '(out, g) := draw_star s g in
  ((s, g), out).

(** One turn of the loop, frame dropped. *)
Definition tick (w : Star.t * nat) : Star.t * nat := fst (frame w).

(** The program state after [n] turns of the loop. *)
Definition main_loop (density0 : R) (particles0 : list Particle.t)
    (n : nat) : Star.t * nat :=
  Nat.iter n tick (star_init density0 particles0, O).

End Program.

(** ** Notions used to state the properties *)

Section Notions.

Context {L : Libc}.

(** What one turn of the loop of [update_particles] does to the particle
    it visits. *)
Definition particle_step (dt : R) (p : Particle.t) : Particle.t :=
  if Particle.life p <=? 0 then p
  else
    Particle.mk
      (Particle.x p + Particle.vx p * dt)
      (Particle.y p + Particle.vy p * dt)
      (Particle.vx p) (Particle.vy p)
      (Particle.life p - dt).

(** The particle that one turn of the loop of [spawn_particles] writes when
    [g] calls to [rand()] were made before it. *)
Definition spawned_particle (g : nat) : Particle.t :=
  Particle.mk
    (IZR WIDTH / 2.0) (IZR HEIGHT / 2.0)
    (cos (IZR (rand g) / IZR RAND_MAX * 2 * PI)
     * IZR (10 + Z.rem (rand (S g)) 40))
    (sin (IZR (rand g) / IZR RAND_MAX * 2 * PI)
     * IZR (10 + Z.rem (rand (S g)) 40) * 0.55)
    (2.5 + IZR (rand (S (S g))) / IZR RAND_MAX * 1.5).

(** A live particle of the ensemble sits on the cell [(x, y)]. *)
Definition particle_on (s : Star.t) (y x : Z) : Prop :=
  exists (i : nat) (p : Particle.t),
    (Z.of_nat i < Star.particle_count s)%Z /\
    Star.particles s !! i = Some p /\
    Ztrunc (Particle.x p) = x /\ Ztrunc (Particle.y p) = y /\
    0 < Particle.life p.

(** Where [draw_star] writes the character of the cell [(x, y)]: after
    the escape sequences of [clear()] and [y] lines of [WIDTH] characters
    and a line break. *)
Definition cell_index (y x : nat) : nat :=
  (length clear + y * (Z.to_nat WIDTH + 1) + x)%nat.

(** The stages of the program states [w], [tick w], ..., [tick^n w]. *)
Fixpoint stages (n : nat) (w : Star.t * nat) : list Z :=
  Star.state (fst w) ::
  match n with
  | O => []
  | S n' => stages n' (tick w)
  end.

(** A run of equal stages counts once. *)
Fixpoint compress (l : list Z) : list Z :=
  match l with
  | [] => []
  | a :: l' =>
      match l' with
      | [] => [a]
      | b :: _ => if (a =? b)%Z then compress l' else a :: compress l'
      end
  end.

(** The stage that follows [st] in the cycle. *)
Definition next_stage (st : Z) : Z :=
  if (st =? GIANT)%Z then COLLAPSE
  else if (st =? COLLAPSE)%Z then BOUNCE
  else if (st =? BOUNCE)%Z then EXPLOSION
  else if (st =? EXPLOSION)%Z then NEBULA
  else if (st =? NEBULA)%Z then GIANT
  else st.

(** The program states that calls of [update_star], with increments
    [dt] that satisfy [ok], and calls of [draw_star] produce from the
    initial one. *)
Inductive reachable_by (ok : R -> Prop) (density0 : R)
    (particles0 : list Particle.t) : Star.t * nat -> Prop :=
| reachable_init :
    reachable_by ok density0 particles0 (star_init density0 particles0, O)
| reachable_update s g dt :
    ok dt ->
    reachable_by ok density0 particles0 (s, g) ->
    reachable_by ok density0 particles0 (update_star s dt g)
| reachable_draw s g :
    reachable_by ok density0 particles0 (s, g) ->
    reachable_by ok density0 particles0 (s, snd (draw_star s g)).

(** Any increment at all. *)
Definition reachable : R -> list Particle.t -> Star.t * nat -> Prop :=
  reachable_by (fun _ => True).

(** What every reachable star satisfies: the stage is one of the five; the
    core radius is 0 before the first bounce and 2 from then on; until the
    first spawn there are no particles and no shock front, afterwards the
    ensemble is full. *)
Definition star_inv (s : Star.t) : Prop :=
  (GIANT <= Star.state s <= NEBULA)%Z /\
  (Star.core_radius s = 0 \/ Star.core_radius s = 2) /\
  ((BOUNCE <= Star.state s)%Z -> Star.core_radius s = 2) /\
  ((Star.particle_count s = 0%Z /\ Star.explosion_radius s = 0 /\
    (Star.state s <= BOUNCE)%Z) \/
   Star.particle_count s = MAX_PARTICLES).

(** *** The first cycle of the program, stage by stage

    What holds of the star [j] ticks of the driver after it entered a
    stage, and when it enters the next one. *)

Definition giant_phase (j : nat) (s : Star.t) : Prop :=
  Star.state s = GIANT /\
  Star.time s = IZR (Z.of_nat j) / 30 /\
  Star.core_radius s = 0 /\ Star.explosion_radius s = 0 /\
  Star.particle_count s = 0%Z.

Definition collapse_entry (s : Star.t) : Prop :=
  Star.state s = COLLAPSE /\
  Star.time s = 0 /\ Star.velocity s = 0 /\
  7.5 <= Star.radius s <= 10.5 /\
  Star.core_radius s = 0 /\ Star.explosion_radius s = 0 /\
  Star.particle_count s = 0%Z.

Definition collapse_phase (j : nat) (s : Star.t) : Prop :=
  Star.state s = COLLAPSE /\
  0 <= Star.velocity s /\
  Star.radius s <= 10.5 - IZR (Z.of_nat j) * (2 / 45) /\
  Star.core_radius s = 0 /\ Star.explosion_radius s = 0 /\
  Star.particle_count s = 0%Z.

Definition bounce_phase (j : nat) (s : Star.t) : Prop :=
  Star.state s = BOUNCE /\
  Star.time s = IZR (Z.of_nat j) / 30 /\
  Star.core_radius s = 2 /\ Star.explosion_radius s = 0 /\
  Star.particle_count s = 0%Z.

Definition explosion_phase (j : nat) (s : Star.t) : Prop :=
  Star.state s = EXPLOSION /\
  Star.explosion_radius s = 3 + IZR (Z.of_nat j) /\
  Star.core_radius s = 2 /\
  Star.particle_count s = MAX_PARTICLES.

Definition nebula_phase (j : nat) (s : Star.t) : Prop :=
  Star.state s = NEBULA /\
  Star.explosion_radius s = 33 + IZR (Z.of_nat j) / 5 /\
  Star.core_radius s = 2 /\
  Star.particle_count s = MAX_PARTICLES.

(** The star right after the restart that ends the first cycle. *)
Definition restarted (s : Star.t) : Prop :=
  Star.state s = GIANT /\
  Star.time s = 0 /\ Star.radius s = 9 /\
  Star.core_radius s = 2 /\ 42 < Star.explosion_radius s /\
  Star.particle_count s = MAX_PARTICLES.

End Notions.

(** ** Sample inputs *)

(** A generator with glibc's [RAND_MAX] whose third call returns
    [RAND_MAX]; the other calls follow a linear congruence. *)
Definition libc_sample : Libc := {|
  RAND_MAX := 2147483647;
  rand g :=
    if (g =? 2)%nat then 2147483647%Z
    else ((1103515245 * Z.of_nat g + 12345) mod 2147483648)%Z
|}.

Definition particle_sample : Particle.t := Particle.mk 47.5 16.25 12 (-3) 3.

Definition particle_dead : Particle.t := Particle.mk 50 10 12 (-3) 0.

Definition particles_sample : list Particle.t :=
  particle_dead :: replicate 449 particle_sample.

(** A star at the start of its explosion. *)
Definition star_exploding : Star.t :=
  Star.mk 20 2 3 30 0 0 EXPLOSION particles_sample 450.

(** A star in the middle of its collapse. *)
Definition star_collapsing : Star.t :=
  Star.mk 8 0 0 4 0.1 0 COLLAPSE particles_sample 0.

(** A nebula about to restart. *)
Definition star_fading : Star.t :=
  Star.mk 23 2 42 30 1.5 0 NEBULA particles_sample 450.

(** ** The rest of the file *)

(** clamp (lines 109-113); no function of the file calls it. *)
Definition clamp (v a b : R) : R :=
  if v <? a then a
  else if v >? b then b
  else v.

(** The characters of the symbol table of [draw_star] (lines 143-149) and
    the blank. *)
Definition symbols : list ascii := [" "; "#"; "@"; "*"; "."; "O"; "+"]%char.

Section MoreNotions.

Context {L : Libc}.


(** A sequence of program states in which each star is the one that
    [update_star] makes of the previous one with the increment [dt]
    (calls of [draw_star] may come in between). *)
Definition advances (dt : R) (W : nat -> Star.t * nat) : Prop :=
  forall i : nat,
    fst (W (S i)) = fst (update_star (fst (W i)) dt (snd (W i))).

End MoreNotions.


(** ** Floating-point arithmetic

    The program computes in [float] (binary32) and, where a [double]
    constant or a function of <math.h> comes in, in [double] (binary64).
    Every operation returns the value of its format that is nearest to the
    exact result, ties going to the even significand.  [round prec emin]
    is this rounding for the format of [prec] binary digits whose least
    exponent is [emin]; results too large for the format (infinities) and
    NaN are outside the model. *)

Definition bpow (e : Z) : R := powerRZ 2 e.

(** The exponent [e] with [2^(e-1) <= |x| < 2^e]. *)
Definition mag (x : R) : Z := (Int_part (ln (Rabs x) / ln 2) + 1)%Z.

(** The integer nearest to [r], the even one of two at equal distance. *)
Definition rne (r : R) : Z :=
  let f := Int_part r in
  let d := r - IZR f in
  if d <? / 2 then f
  else if / 2 <? d then (f + 1)%Z
  else if Z.even f then f else (f + 1)%Z.

(** The exponent of the last digit of [x] in the format. *)
Definition cexp (prec emin : Z) (x : R) : Z := Z.max (mag x - prec) emin.

(** Rounding to the multiples of [2^c]. *)
Definition round_at (c : Z) (x : R) : R :=
  IZR (rne (x * bpow (- c))) * bpow c.

Definition round (prec emin : Z) (x : R) : R :=
  round_at (cexp prec emin x) x.

Definition binary32 : R -> R := round 24 (-149).
Definition binary64 : R -> R := round 53 (-1074).

(** The arithmetic the program runs on: the conversions to [float] and to
    [double] that end every operation of that type, and [sin] and [cos]
    of <math.h>, which take and return a [double]. *)
Class Fpu : Type := {
  fl32 : R -> R;
  fl64 : R -> R;
  sin_d : R -> R;
  cos_d : R -> R
}.

(** What the properties below use of the conversion to [float]: it keeps
    the order, it leaves a [float] as it is, and the integers up to [2^24]
    are [float]s. *)
Class FpuSpec (F : Fpu) : Prop := {
  fl32_mono : forall x y : R, x <= y -> fl32 x <= fl32 y;
  fl32_idem : forall x : R, fl32 (fl32 x) = fl32 x;
  fl32_int : forall z : Z, (Z.abs z <= 16777216)%Z -> fl32 (IZR z) = IZR z
}.

(** Arithmetic without rounding: the model used above. *)
Definition fpu_exact : Fpu := {|
  fl32 := fun x => x;
  fl64 := fun x => x;
  sin_d := sin;
  cos_d := cos
|}.

(** IEEE 754 arithmetic, with a <math.h> whose [sin] and [cos] return the
    [double] nearest to the exact value. *)
Definition fpu_ieee : Fpu := {|
  fl32 := binary32;
  fl64 := binary64;
  sin_d := fun x => binary64 (sin x);
  cos_d := fun x => binary64 (cos x)
|}.

(** ** The program in floating-point arithmetic

    The functions that compute with the [float] fields, operation by
    operation: the operands of an operator are converted to the wider of
    their types, the result is rounded to that type, and an assignment to
    a [float] rounds to [float].  With [fpu_exact] they are the functions
    of the same names above. *)

Module Float.

Section Program.

Context {L : Libc} {F : Fpu}.

(** spawn_particles (lines 119-134).  [(float)rand()/RAND_MAX] is a
    [float] division; [* 2] stays in [float]; [* M_PI], [cos(angle)],
    [* 0.55], [* 1.5] and [2.5 +] are [double] operations. *)
Definition spawn_particles (s : Star.t) (g : nat) : Star.t * nat :=
  let s := set_particle_count MAX_PARTICLES s in
  let cx := fl32 (fl64 (IZR WIDTH / 2.0)) in
  let cy := fl32 (fl64 (IZR HEIGHT / 2.0)) in
  for_upto MAX_PARTICLES
    (fun i '(s, g) =>
       let angle :=
         fl32 (fl64 (fl32 (fl32 (fl32 (IZR (rand g)) / fl32 (IZR RAND_MAX))
                           * 2)
                     * fl64 PI)) in
       let g := S g in
       let speed := fl32 (IZR (10 + Z.rem (rand g) 40)) in
       let g := S g in
       let p :=
         Particle.mk cx cy
           (fl32 (fl64 (cos_d angle * speed)))
           (fl32 (fl64 (fl64 (sin_d angle * speed) * fl64 0.55)))
           (fl32 (fl64 (2.5 +
              fl64 (fl32 (fl32 (IZR (rand g)) / fl32 (IZR RAND_MAX))
                    * 1.5)))) in
       let g := S g in
       (set_particles (<[i:=p]> (Star.particles s)) s, g))
    (s, g).

(** update_particles (lines 216-224): [float] operations throughout. *)
Definition update_particles (s : Star.t) (dt : R) : Star.t :=
  for_upto (Star.particle_count s)
    (fun i s =>
       match Star.particles s !! i with
       | Some p =>
           if Particle.life p <=? 0 then s
           else
             let p :=
               Particle.mk
                 (fl32 (Particle.x p + fl32 (Particle.vx p * dt)))
                 (fl32 (Particle.y p + fl32 (Particle.vy p * dt)))
                 (Particle.vx p) (Particle.vy p)
                 (fl32 (Particle.life p - dt)) in
             set_particles (<[i:=p]> (Star.particles s)) s
       | None => s
       end)
    s.

(** update_star (lines 229-292).  The integer constants are converted to
    [float]; [sin] and the constants [1.5] and [0.8] are [double]s, so the
    radius of the giant is computed in [double] and the clock is compared
    with the [double] nearest to 0.8. *)
Definition update_star (s : Star.t) (dt : R) (g : nat) : Star.t * nat :=
  let s := set_time (fl32 (Star.time s + dt)) s in
  if (Star.state s =? GIANT)%Z then
    let s :=
      set_radius
        (fl32 (fl64 (9 + fl64 (sin_d (fl32 (Star.time s * 3)) * 1.5)))) s in
    if Star.time s >? 5 then
      let s := set_state COLLAPSE s in
      let s := set_time 0 s in
      let s := set_velocity 0 s in
      (s, g)
    else (s, g)
  else if (Star.state s =? COLLAPSE)%Z then
    let s := set_velocity (fl32 (Star.velocity s + fl32 (40 * dt))) s in
    let s :=
      set_radius (fl32 (Star.radius s - fl32 (Star.velocity s * dt))) s in
    if Star.radius s <? 3 then
      let s := set_state BOUNCE s in
      let s := set_time 0 s in
      let s := set_core_radius 2 s in
      (s, g)
    else (s, g)
  else if (Star.state s =? BOUNCE)%Z then
    let s := set_radius (fl32 (Star.radius s + fl32 (25 * dt))) s in
    if Star.time s >? fl64 0.8 then
      let s := set_state EXPLOSION s in
      let s := set_time 0 s in
      let s := set_explosion_radius 3 s in
      spawn_particles s g
    else (s, g)
  else if (Star.state s =? EXPLOSION)%Z then
    let s :=
      set_explosion_radius
        (fl32 (Star.explosion_radius s + fl32 (30 * dt))) s in
    let s := update_particles s dt in
    if Star.explosion_radius s >? 32 then
      let s := set_state NEBULA s in
      let s := set_time 0 s in
      (s, g)
    else (s, g)
  else if (Star.state s =? NEBULA)%Z then
    let s :=
      set_explosion_radius
        (fl32 (Star.explosion_radius s + fl32 (6 * dt))) s in
    let s := update_particles s dt in
    if Star.explosion_radius s >? 42 then
      let s := set_state GIANT s in
      let s := set_time 0 s in
      let s := set_radius 9 s in
      (s, g)
    else (s, g)
  else (s, g).

(** [float dt = 1.0 / FPS]: a [double] division, rounded to [float]. *)
Definition dt_main : R := fl32 (fl64 (1.0 / IZR FPS)).

(** What one turn of the loop of [update_particles] does to the particle
    it visits. *)
Definition particle_step (dt : R) (p : Particle.t) : Particle.t :=
  if Particle.life p <=? 0 then p
  else
    Particle.mk
      (fl32 (Particle.x p + fl32 (Particle.vx p * dt)))
      (fl32 (Particle.y p + fl32 (Particle.vy p * dt)))
      (Particle.vx p) (Particle.vy p)
      (fl32 (Particle.life p - dt)).

(** The program states that calls of [update_star] with increments that
    satisfy [ok] produce from the initial one; the calls of [draw_star] in
    between leave the star alone and move the generator on. *)
Inductive reachable_by (ok : R -> Prop) (density0 : R)
    (particles0 : list Particle.t) : Star.t * nat -> Prop :=
| reachable_init :
    reachable_by ok density0 particles0 (star_init density0 particles0, O)
| reachable_update s g dt :
    ok dt ->
    reachable_by ok density0 particles0 (s, g) ->
    reachable_by ok density0 particles0 (update_star s dt g)
| reachable_draw s g g' :
    reachable_by ok density0 particles0 (s, g) ->
    reachable_by ok density0 particles0 (s, g').

(** [n] successive calls with the same increment. *)
Definition update_star_n (n : nat) (dt : R) (w : Star.t * nat)
    : Star.t * nat :=
  Nat.iter n (fun w => update_star (fst w) dt (snd w)) w.

Definition update_particles_n (n : nat) (dt : R) (s : Star.t) : Star.t :=
  Nat.iter n (fun s => update_particles s dt) s.

End Program.

End Float.

(** A giant whose clock stands at 2. *)
Definition star_giant : Star.t :=
  Star.mk 9 0 0 0 2 0 GIANT particles_sample 0.

(** The star that one long tick of IEEE arithmetic has just taken from the
    initial state into Collapse. *)
Definition star_collapse_entry : Star.t :=
  fst (@Float.update_star libc_sample fpu_ieee
         (star_init 0 particles_sample) 6 O).

(** * Properties *)

(** ** Comparisons and truncation *)

Lemma Rltb_lt (a b : R) : (a <? b) = true <-> a < b.
Proof. unfold Rltb. destruct (Rlt_dec a b); split; intros; auto; discriminate. Qed.

Lemma Rltb_ge (a b : R) : (a <? b) = false <-> b <= a.
Proof.
  unfold Rltb. destruct (Rlt_dec a b); split; intros; auto; try discriminate; lra.
Qed.

Lemma Rleb_le (a b : R) : (a <=? b) = true <-> a <= b.
Proof. unfold Rleb. destruct (Rle_dec a b); split; intros; auto; discriminate. Qed.

Lemma Rleb_gt (a b : R) : (a <=? b) = false <-> b < a.
Proof.
  unfold Rleb. destruct (Rle_dec a b); split; intros; auto; try discriminate; lra.
Qed.

Lemma Ztrunc_IZR (n : Z) : Ztrunc (IZR n) = n.
Proof.
  unfold Ztrunc. destruct (0 <=? IZR n) eqn:E.
  - symmetry. apply Int_part_spec. lra.
  - rewrite <- opp_IZR.
    replace (Int_part (IZR (- n))) with (- n)%Z; [lia |].
    apply Int_part_spec. lra.
Qed.

Lemma Ztrunc_nonneg (v : R) (n : Z) :
  IZR n <= v < IZR n + 1 -> 0 <= v -> Ztrunc v = n.
Proof.
  intros Hv H0. unfold Ztrunc.
  apply Rleb_le in H0. rewrite H0.
  symmetry. apply Int_part_spec. lra.
Qed.

Lemma Ztrunc_neg (v : R) (n : Z) :
  IZR n - 1 < v <= IZR n -> v < 0 -> Ztrunc v = n.
Proof.
  intros Hv H0. unfold Ztrunc.
  apply Rleb_gt in H0. rewrite H0.
  replace (Int_part (- v)) with (- n)%Z; [lia |].
  apply Int_part_spec. rewrite opp_IZR. lra.
Qed.

(** [(int)47.5] is 47 and [(int)(-0.5)] is 0. *)
Example Ztrunc_examples : Ztrunc 47.5 = 47%Z /\ Ztrunc (-0.5) = 0%Z.
Proof.
  split.
  - apply Ztrunc_nonneg; lra.
  - apply Ztrunc_neg; lra.
Qed.

(** ** Loops *)

Lemma for_loop_snoc {A : Type} (body : nat -> A -> A) (n i : nat) (a : A) :
  for_loop i (S n) body a = body (i + n)%nat (for_loop i n body a).
Proof.
  revert i a. induction n as [|n IH]; intros i a.
  - simpl. now rewrite Nat.add_0_r.
  - change (for_loop i (S (S n)) body a)
      with (for_loop (S i) (S n) body (body i a)).
    rewrite IH. simpl. now rewrite Nat.add_succ_r.
Qed.

(** A property that holds before the loop and that every turn carries
    from the index [j] to [j + 1] holds of the result at the index [n]. *)
Lemma for_upto_nat_inv {A : Type} (P : nat -> A -> Prop)
    (body : nat -> A -> A) (n : nat) (a : A) :
  P O a ->
  (forall j b, (j < n)%nat -> P j b -> P (S j) (body j b)) ->
  P n (for_loop 0 n body a).
Proof.
  induction n as [|n IH]; intros H0 Hstep.
  - exact H0.
  - rewrite for_loop_snoc. simpl. apply Hstep; [lia |].
    apply IH; [exact H0 |]. intros j b Hj. apply Hstep. lia.
Qed.

Example for_loop_order :
  for_loop 2 3 (fun i l => l ++ [i]) [] = [2; 3; 4]%nat.
Proof. reflexivity. Qed.

Example for_upto_negative : for_upto (-3) (fun i l => l ++ [i]) [] = [].
Proof. reflexivity. Qed.

Example compress_example :
  compress [0; 0; 1; 1; 1; 2; 0]%Z = [0; 1; 2; 0]%Z.
Proof. reflexivity. Qed.

Example next_stage_cycle :
  map next_stage [GIANT; COLLAPSE; BOUNCE; EXPLOSION; NEBULA]
  = [COLLAPSE; BOUNCE; EXPLOSION; NEBULA; GIANT].
Proof. reflexivity. Qed.

(** The first cell is written after the six characters of [clear()], the
    first cell of the second line 91 characters later. *)
Example cell_index_examples :
  cell_index 0 0 = 6%nat /\ cell_index 1 0 = 97%nat /\
  cell_index 31 89 = 2916%nat.
Proof. repeat split. Qed.

Section Facts.

Context {L : Libc}.

(** ** The particle loops, index by index *)

(** [update_particles] writes the particle array and nothing else; below
    the count every particle made one step, above it nothing moved. *)
Lemma update_particles_spec (s : Star.t) (dt : R) :
  let s' := update_particles s dt in
  s' = set_particles (Star.particles s') s /\
  length (Star.particles s') = length (Star.particles s) /\
  forall k : nat,
    Star.particles s' !! k =
    if (k <? Z.to_nat (Star.particle_count s))%nat
    then particle_step dt <$> Star.particles s !! k
    else Star.particles s !! k.
Proof.
  unfold update_particles, for_upto.
  set (n := Z.to_nat (Star.particle_count s)).
  apply (for_upto_nat_inv
    (fun j s' =>
       s' = set_particles (Star.particles s') s /\
       length (Star.particles s') = length (Star.particles s) /\
       forall k : nat,
         Star.particles s' !! k =
         if (k <? j)%nat
         then particle_step dt <$> Star.particles s !! k
         else Star.particles s !! k)).
  - split; [now destruct s |]. split; [reflexivity |].
    intros k. destruct (Nat.ltb_spec k (0)); [lia | reflexivity].
  - intros j b Hj (Hb & Hlen & Hk).
    assert (Hj' : Star.particles b !! j = Star.particles s !! j).
    { rewrite Hk. destruct (Nat.ltb_spec j (j)); [lia | reflexivity]. }
    destruct (Star.particles b !! j) as [p|] eqn:Ep.
    + assert (Hstep : forall k : nat,
        <[j:=particle_step dt p]> (Star.particles b) !! k =
        if (k <? S j)%nat
        then particle_step dt <$> Star.particles s !! k
        else Star.particles s !! k).
      { intros k. destruct (decide (k = j)) as [->|Hne].
        - rewrite list_lookup_insert_eq
            by (apply lookup_lt_is_Some; rewrite Ep; eauto).
          destruct (Nat.ltb_spec j (S j)); [| lia].
          now rewrite <- Hj'.
        - rewrite list_lookup_insert_ne by congruence.
          rewrite Hk.
          destruct (Nat.ltb_spec k j), (Nat.ltb_spec k (S j));
            try reflexivity; lia. }
      unfold particle_step in Hstep.
      destruct (Particle.life p <=? 0) eqn:El.
      * split; [exact Hb |]. split; [exact Hlen |].
        intros k. rewrite <- Hstep.
        now rewrite list_insert_id.
      * split; [rewrite Hb at 2; reflexivity |].
        split; [simpl; now rewrite length_insert |].
        exact Hstep.
    + split; [exact Hb |]. split; [exact Hlen |].
      intros k. rewrite Hk.
      destruct (Nat.ltb_spec k j), (Nat.ltb_spec k (S j));
        try reflexivity; try lia.
      assert (k = j) as -> by lia.
      now rewrite <- Hj'.
Qed.

Lemma update_particles_frame (s : Star.t) (dt : R) :
  update_particles s dt =
  set_particles (Star.particles (update_particles s dt)) s.
Proof. apply (update_particles_spec s dt). Qed.

(** [spawn_particles] sets the count, writes the particle array and calls
    [rand()] three times for each of the [MAX_PARTICLES] particles. *)
Lemma spawn_particles_spec (s : Star.t) (g : nat) :
  let s' := fst (spawn_particles s g) in
  s' = set_particles (Star.particles s') (set_particle_count MAX_PARTICLES s) /\
  snd (spawn_particles s g) = (g + 3 * Z.to_nat MAX_PARTICLES)%nat /\
  length (Star.particles s') = length (Star.particles s) /\
  forall k : nat,
    (k < length (Star.particles s))%nat ->
    Star.particles s' !! k =
    if (k <? Z.to_nat MAX_PARTICLES)%nat
    then Some (spawned_particle (g + 3 * k))
    else Star.particles s !! k.
Proof.
  unfold spawn_particles, for_upto.
  apply (for_upto_nat_inv
    (fun j (w : Star.t * nat) =>
       fst w = set_particles (Star.particles (fst w))
                 (set_particle_count MAX_PARTICLES s) /\
       snd w = (g + 3 * j)%nat /\
       length (Star.particles (fst w)) = length (Star.particles s) /\
       forall k : nat,
         (k < length (Star.particles s))%nat ->
         Star.particles (fst w) !! k =
         if (k <? j)%nat
         then Some (spawned_particle (g + 3 * k))
         else Star.particles s !! k)).
  - simpl. split; [reflexivity |]. split; [lia |]. split; [reflexivity |].
    intros k _. destruct (Nat.ltb_spec k (0)); [lia | reflexivity].
  - intros j [b gb] Hj (Hb & Hg & Hlen & Hk). simpl in *. subst gb.
    split; [rewrite Hb at 2; reflexivity |].
    split; [lia |].
    split; [now rewrite length_insert |].
    intros k Hlt. destruct (decide (k = j)) as [->|Hne].
    + rewrite list_lookup_insert_eq by lia.
      destruct (Nat.ltb_spec j (S j)); [| lia].
      reflexivity.
    + rewrite list_lookup_insert_ne by congruence.
      rewrite Hk by exact Hlt.
      destruct (Nat.ltb_spec k j), (Nat.ltb_spec k (S j));
        try reflexivity; lia.
Qed.

Lemma spawn_particles_frame (s : Star.t) (g : nat) :
  fst (spawn_particles s g) =
  set_particles (Star.particles (fst (spawn_particles s g)))
    (set_particle_count MAX_PARTICLES s).
Proof. apply (spawn_particles_spec s g). Qed.

End Facts.

(** ** One call of [update_star], branch by branch *)

Section Steps.

Context {L : Libc}.

Ltac take_branch H :=
  unfold update_star;
  cbn [Star.state Star.time Star.radius Star.velocity Star.explosion_radius
       set_time set_radius set_velocity set_explosion_radius];
  rewrite H;
  cbn [Z.eqb Pos.eqb GIANT COLLAPSE BOUNCE EXPLOSION NEBULA].

Lemma update_star_giant_stay (s : Star.t) (dt : R) (g : nat) :
  Star.state s = GIANT ->
  Star.time s + dt <= 5 ->
  update_star s dt g =
  (set_radius (9 + sin ((Star.time s + dt) * 3) * 1.5)
     (set_time (Star.time s + dt) s), g).
Proof.
  intros H Hc. take_branch H.
  apply Rltb_ge in Hc. rewrite Hc. reflexivity.
Qed.

Lemma update_star_giant_leave (s : Star.t) (dt : R) (g : nat) :
  Star.state s = GIANT ->
  5 < Star.time s + dt ->
  update_star s dt g =
  (set_velocity 0 (set_time 0 (set_state COLLAPSE
     (set_radius (9 + sin ((Star.time s + dt) * 3) * 1.5)
        (set_time (Star.time s + dt) s)))), g).
Proof.
  intros H Hc. take_branch H.
  apply Rltb_lt in Hc. rewrite Hc. reflexivity.
Qed.

Lemma update_star_collapse_stay (s : Star.t) (dt : R) (g : nat) :
  Star.state s = COLLAPSE ->
  3 <= Star.radius s - (Star.velocity s + 40 * dt) * dt ->
  update_star s dt g =
  (set_radius (Star.radius s - (Star.velocity s + 40 * dt) * dt)
     (set_velocity (Star.velocity s + 40 * dt)
        (set_time (Star.time s + dt) s)), g).
Proof.
  intros H Hc. take_branch H.
  apply Rltb_ge in Hc. rewrite Hc. reflexivity.
Qed.

Lemma update_star_collapse_leave (s : Star.t) (dt : R) (g : nat) :
  Star.state s = COLLAPSE ->
  Star.radius s - (Star.velocity s + 40 * dt) * dt < 3 ->
  update_star s dt g =
  (set_core_radius 2 (set_time 0 (set_state BOUNCE
     (set_radius (Star.radius s - (Star.velocity s + 40 * dt) * dt)
        (set_velocity (Star.velocity s + 40 * dt)
           (set_time (Star.time s + dt) s))))), g).
Proof.
  intros H Hc. take_branch H.
  apply Rltb_lt in Hc. rewrite Hc. reflexivity.
Qed.

Lemma update_star_bounce_stay (s : Star.t) (dt : R) (g : nat) :
  Star.state s = BOUNCE ->
  Star.time s + dt <= 0.8 ->
  update_star s dt g =
  (set_radius (Star.radius s + 25 * dt) (set_time (Star.time s + dt) s), g).
Proof.
  intros H Hc. take_branch H.
  apply Rltb_ge in Hc. rewrite Hc. reflexivity.
Qed.

Lemma update_star_bounce_leave (s : Star.t) (dt : R) (g : nat) :
  Star.state s = BOUNCE ->
  0.8 < Star.time s + dt ->
  update_star s dt g =
  spawn_particles
    (set_explosion_radius 3 (set_time 0 (set_state EXPLOSION
       (set_radius (Star.radius s + 25 * dt)
          (set_time (Star.time s + dt) s))))) g.
Proof.
  intros H Hc. take_branch H.
  apply Rltb_lt in Hc. rewrite Hc. reflexivity.
Qed.

Lemma update_star_explosion_stay (s : Star.t) (dt : R) (g : nat) :
  Star.state s = EXPLOSION ->
  Star.explosion_radius s + 30 * dt <= 32 ->
  update_star s dt g =
  (update_particles
     (set_explosion_radius (Star.explosion_radius s + 30 * dt)
        (set_time (Star.time s + dt) s)) dt, g).
Proof.
  intros H Hc. take_branch H.
  rewrite update_particles_frame.
  cbn [Star.explosion_radius set_particles set_explosion_radius].
  apply Rltb_ge in Hc. rewrite Hc. reflexivity.
Qed.

Lemma update_star_explosion_leave (s : Star.t) (dt : R) (g : nat) :
  Star.state s = EXPLOSION ->
  32 < Star.explosion_radius s + 30 * dt ->
  update_star s dt g =
  (set_time 0 (set_state NEBULA
     (update_particles
        (set_explosion_radius (Star.explosion_radius s + 30 * dt)
           (set_time (Star.time s + dt) s)) dt)), g).
Proof.
  intros H Hc. take_branch H.
  rewrite update_particles_frame.
  cbn [Star.explosion_radius set_particles set_explosion_radius].
  apply Rltb_lt in Hc. rewrite Hc. reflexivity.
Qed.

Lemma update_star_nebula_stay (s : Star.t) (dt : R) (g : nat) :
  Star.state s = NEBULA ->
  Star.explosion_radius s + 6 * dt <= 42 ->
  update_star s dt g =
  (update_particles
     (set_explosion_radius (Star.explosion_radius s + 6 * dt)
        (set_time (Star.time s + dt) s)) dt, g).
Proof.
  intros H Hc. take_branch H.
  rewrite update_particles_frame.
  cbn [Star.explosion_radius set_particles set_explosion_radius].
  apply Rltb_ge in Hc. rewrite Hc. reflexivity.
Qed.

Lemma update_star_nebula_leave (s : Star.t) (dt : R) (g : nat) :
  Star.state s = NEBULA ->
  42 < Star.explosion_radius s + 6 * dt ->
  update_star s dt g =
  (set_radius 9 (set_time 0 (set_state GIANT
     (update_particles
        (set_explosion_radius (Star.explosion_radius s + 6 * dt)
           (set_time (Star.time s + dt) s)) dt))), g).
Proof.
  intros H Hc. take_branch H.
  rewrite update_particles_frame.
  cbn [Star.explosion_radius set_particles set_explosion_radius].
  apply Rltb_lt in Hc. rewrite Hc. reflexivity.
Qed.

(** A stage outside the five macros: only the clock moves. *)
Lemma update_star_other (s : Star.t) (dt : R) (g : nat) :
  (Star.state s < GIANT \/ NEBULA < Star.state s)%Z ->
  update_star s dt g = (set_time (Star.time s + dt) s, g).
Proof.
  intros H. unfold update_star. cbn [Star.state set_time].
  unfold GIANT, COLLAPSE, BOUNCE, EXPLOSION, NEBULA in *.
  repeat match goal with
         | |- context [(?a =? ?b)%Z] => destruct (Z.eqb_spec a b); [lia |]
         end.
  reflexivity.
Qed.

End Steps.

(** ** The transition table of [update_star] *)

Section Table.

Context {L : Libc}.


End Table.


(** ** Runs of the driver *)

Section Runs.

Context {L : Libc}.

Lemma tick_star (w : Star.t * nat) :
  fst (tick w) = fst (update_star (fst w) dt_main (snd w)).
Proof.
  unfold tick, frame. destruct w as [s g]. cbn [fst snd].
  destruct (update_star s dt_main g) as [s' g'].
  destruct (draw_star s' g'). reflexivity.
Qed.

Lemma iter_tick_succ (n : nat) (w : Star.t * nat) :
  Nat.iter (S n) tick w = Nat.iter n tick (tick w).
Proof. induction n as [|n IH]; [reflexivity |]. simpl in *. now rewrite IH. Qed.

Lemma iter_tick_add (a b : nat) (w : Star.t * nat) :
  Nat.iter (a + b) tick w = Nat.iter b tick (Nat.iter a tick w).
Proof.
  revert w. induction a as [|a IH]; intros w; [reflexivity |].
  change (S a + b)%nat with (S (a + b)).
  now rewrite !iter_tick_succ, IH.
Qed.

Lemma stages_app (a b : nat) (w : Star.t * nat) :
  stages (S a + b) w = stages a w ++ stages b (Nat.iter (S a) tick w).
Proof.
  revert w. induction a as [|a IH]; intros w; [reflexivity |].
  change (stages (S (S a) + b) w)
    with (Star.state (fst w) :: stages (S a + b) (tick w)).
  rewrite IH, (iter_tick_succ (S a)). reflexivity.
Qed.

(** A stage whose invariant [Inv], indexed by the ticks spent in it, is
    carried by every tick until [Post] holds, and is left at the latest
    after [N] ticks: the run stays in the stage for some [k <= N] ticks
    and the next tick establishes [Post]. *)
Lemma phase_exit (ST : Z) (Inv : nat -> Star.t -> Prop)
    (Post : Star.t -> Prop) (N : nat) :
  (forall j s, Inv j s -> Star.state s = ST) ->
  (forall j s g, (j < N)%nat -> Inv j s ->
     Inv (S j) (fst (update_star s dt_main g)) \/
     Post (fst (update_star s dt_main g))) ->
  (forall s g, Inv N s -> Post (fst (update_star s dt_main g))) ->
  forall d j w, (j + d = N)%nat -> Inv j (fst w) ->
  exists k, (k <= d)%nat /\
    stages k w = repeat ST (S k) /\
    Star.state (fst (Nat.iter k tick w)) = ST /\
    Post (fst (Nat.iter (S k) tick w)).
Proof.
  intros Hst Hstep Hlast. induction d as [|d IH]; intros j w Hj Hinv.
  - exists O. split; [lia |]. split; [| split].
    + simpl. now rewrite (Hst _ _ Hinv).
    + exact (Hst _ _ Hinv).
    + simpl. rewrite tick_star. apply Hlast.
      now replace N with j by lia.
  - destruct (Hstep j (fst w) (snd w)) as [Hnext | Hpost]; [lia | exact Hinv | |].
    + rewrite <- tick_star in Hnext.
      destruct (IH (S j) (tick w)) as (k & Hk & Hs & Hl & Hp);
        [lia | exact Hnext |].
      exists (S k). split; [lia |]. split; [| split].
      * change (stages (S k) w)
          with (Star.state (fst w) :: stages k (tick w)).
        rewrite Hs, (Hst _ _ Hinv). reflexivity.
      * now rewrite iter_tick_succ.
      * now rewrite iter_tick_succ.
    + exists O. split; [lia |]. split; [| split].
      * simpl. now rewrite (Hst _ _ Hinv).
      * exact (Hst _ _ Hinv).
      * simpl. now rewrite tick_star.
Qed.

Lemma compress_run (a : Z) (k : nat) (l : list Z) :
  match l with
  | [] => True
  | b :: _ => a <> b
  end ->
  compress (repeat a (S k) ++ l) = a :: compress l.
Proof.
  intros Hl. induction k as [|k IH].
  - destruct l as [|b l]; [reflexivity |]. simpl.
    destruct (Z.eqb_spec a b); [contradiction | reflexivity].
  - change (repeat a (S (S k)) ++ l) with (a :: (repeat a (S k) ++ l)).
    rewrite <- IH.
    change (repeat a (S k) ++ l) with (a :: (repeat a k ++ l)).
    simpl. now rewrite Z.eqb_refl.
Qed.

End Runs.

(** ** The first cycle, one stage after the other *)

Section FirstCycle.

Context {L : Libc}.

Lemma IZR_of_nat_succ (j : nat) :
  IZR (Z.of_nat (S j)) = IZR (Z.of_nat j) + 1.
Proof. now rewrite Nat2Z.inj_succ, succ_IZR. Qed.

Lemma IZR_of_nat_bounds (j : nat) (n : Z) :
  (Z.of_nat j < n)%Z -> 0 <= IZR (Z.of_nat j) <= IZR n - 1.
Proof.
  intros H. split.
  - apply (IZR_le 0). lia.
  - rewrite <- minus_IZR. apply IZR_le. lia.
Qed.

Ltac fields :=
  cbn [fst snd Star.radius Star.core_radius Star.explosion_radius
       Star.velocity Star.time Star.density Star.state Star.particles
       Star.particle_count set_radius set_core_radius set_explosion_radius
       set_velocity set_time set_state set_particles set_particle_count].

Lemma giant_step (j : nat) (s : Star.t) (g : nat) :
  (j < 150)%nat -> giant_phase j s ->
  giant_phase (S j) (fst (update_star s dt_main g)).
Proof.
  intros Hj (Hst & Ht & Hc & He & Hn).
  pose proof (IZR_of_nat_bounds j 150 ltac:(lia)) as Hb.
  rewrite update_star_giant_stay
    by (try exact Hst; rewrite Ht; unfold dt_main, FPS; lra).
  unfold giant_phase. fields. rewrite IZR_of_nat_succ, Ht.
  repeat split; try assumption. unfold dt_main, FPS. lra.
Qed.

Lemma giant_last (s : Star.t) (g : nat) :
  giant_phase 150 s -> collapse_entry (fst (update_star s dt_main g)).
Proof.
  intros (Hst & Ht & Hc & He & Hn). change (Z.of_nat 150) with 150%Z in Ht.
  rewrite update_star_giant_leave
    by (try exact Hst; rewrite Ht; unfold dt_main, FPS; lra).
  unfold collapse_entry. fields.
  pose proof (SIN_bound ((Star.time s + dt_main) * 3)) as Hsin.
  repeat split; try assumption; lra.
Qed.

Lemma collapse_entry_phase (s : Star.t) :
  collapse_entry s -> collapse_phase 0 s.
Proof.
  intros (Hst & Ht & Hv & Hr & Hc & He & Hn).
  unfold collapse_phase. change (Z.of_nat 0) with 0%Z. repeat split; try assumption; lra.
Qed.

Lemma collapse_step (j : nat) (s : Star.t) (g : nat) :
  collapse_phase j s ->
  collapse_phase (S j) (fst (update_star s dt_main g)) \/
  bounce_phase 0 (fst (update_star s dt_main g)).
Proof.
  intros (Hst & Hv & Hr & Hc & He & Hn).
  destruct (Rlt_le_dec
    (Star.radius s - (Star.velocity s + 40 * dt_main) * dt_main) 3)
    as [Hlt | Hge].
  - right. rewrite update_star_collapse_leave by assumption.
    unfold bounce_phase. fields. change (Z.of_nat 0) with 0%Z.
    repeat split; try assumption; lra.
  - left. rewrite update_star_collapse_stay by assumption.
    unfold collapse_phase. fields. rewrite IZR_of_nat_succ.
    unfold dt_main, FPS in *.
    repeat split; try assumption; nra.
Qed.

Lemma collapse_last (s : Star.t) (g : nat) :
  collapse_phase 168 s -> bounce_phase 0 (fst (update_star s dt_main g)).
Proof.
  intros (Hst & Hv & Hr & Hc & He & Hn). change (Z.of_nat 168) with 168%Z in Hr.
  rewrite update_star_collapse_leave
    by (try exact Hst; unfold dt_main, FPS; nra).
  unfold bounce_phase. fields. change (Z.of_nat 0) with 0%Z.
  repeat split; try assumption; lra.
Qed.

Lemma bounce_step (j : nat) (s : Star.t) (g : nat) :
  (j < 24)%nat -> bounce_phase j s ->
  bounce_phase (S j) (fst (update_star s dt_main g)).
Proof.
  intros Hj (Hst & Ht & Hc & He & Hn).
  pose proof (IZR_of_nat_bounds j 24 ltac:(lia)) as Hb.
  rewrite update_star_bounce_stay
    by (try exact Hst; rewrite Ht; unfold dt_main, FPS; lra).
  unfold bounce_phase. fields. rewrite IZR_of_nat_succ, Ht.
  repeat split; try assumption. unfold dt_main, FPS. lra.
Qed.

Lemma bounce_last (s : Star.t) (g : nat) :
  bounce_phase 24 s -> explosion_phase 0 (fst (update_star s dt_main g)).
Proof.
  intros (Hst & Ht & Hc & He & Hn). change (Z.of_nat 24) with 24%Z in Ht.
  rewrite update_star_bounce_leave
    by (try exact Hst; rewrite Ht; unfold dt_main, FPS; lra).
  rewrite spawn_particles_frame.
  unfold explosion_phase. fields. change (Z.of_nat 0) with 0%Z.
  repeat split; try assumption; lra.
Qed.

Lemma explosion_step (j : nat) (s : Star.t) (g : nat) :
  (j < 29)%nat -> explosion_phase j s ->
  explosion_phase (S j) (fst (update_star s dt_main g)).
Proof.
  intros Hj (Hst & He & Hc & Hn).
  pose proof (IZR_of_nat_bounds j 29 ltac:(lia)) as Hb.
  rewrite update_star_explosion_stay
    by (try exact Hst; rewrite He; unfold dt_main, FPS; lra).
  rewrite update_particles_frame.
  unfold explosion_phase. fields. rewrite IZR_of_nat_succ, He.
  repeat split; try assumption. unfold dt_main, FPS. lra.
Qed.

Lemma explosion_last (s : Star.t) (g : nat) :
  explosion_phase 29 s -> nebula_phase 0 (fst (update_star s dt_main g)).
Proof.
  intros (Hst & He & Hc & Hn). change (Z.of_nat 29) with 29%Z in He.
  rewrite update_star_explosion_leave
    by (try exact Hst; rewrite He; unfold dt_main, FPS; lra).
  rewrite update_particles_frame.
  unfold nebula_phase. fields. rewrite He. change (Z.of_nat 0) with 0%Z.
  repeat split; try assumption. unfold dt_main, FPS. lra.
Qed.

Lemma nebula_step (j : nat) (s : Star.t) (g : nat) :
  (j < 45)%nat -> nebula_phase j s ->
  nebula_phase (S j) (fst (update_star s dt_main g)).
Proof.
  intros Hj (Hst & He & Hc & Hn).
  pose proof (IZR_of_nat_bounds j 45 ltac:(lia)) as Hb.
  rewrite update_star_nebula_stay
    by (try exact Hst; rewrite He; unfold dt_main, FPS; lra).
  rewrite update_particles_frame.
  unfold nebula_phase. fields. rewrite IZR_of_nat_succ, He.
  repeat split; try assumption. unfold dt_main, FPS. lra.
Qed.

Lemma nebula_last (s : Star.t) (g : nat) :
  nebula_phase 45 s -> restarted (fst (update_star s dt_main g)).
Proof.
  intros (Hst & He & Hc & Hn). change (Z.of_nat 45) with 45%Z in He.
  rewrite update_star_nebula_leave
    by (try exact Hst; rewrite He; unfold dt_main, FPS; lra).
  rewrite update_particles_frame.
  unfold restarted. fields. rewrite He.
  repeat split; try assumption; unfold dt_main, FPS; lra.
Qed.

(** From the initial star the driver goes through Giant, Collapse, Bounce,
    Explosion and Nebula, in this order, and the tick that leaves Nebula
    restarts in Giant. *)
Lemma first_cycle (density0 : R) (particles0 : list Particle.t) :
  exists m : nat,
    Star.state (fst (main_loop density0 particles0 m)) = NEBULA /\
    restarted (fst (main_loop density0 particles0 (S m))) /\
    compress (stages (S m) (star_init density0 particles0, O)) =
    [GIANT; COLLAPSE; BOUNCE; EXPLOSION; NEBULA; GIANT].
Proof.
  set (w0 := (star_init density0 particles0, O)).
  assert (H0 : giant_phase 0 (fst w0)).
  { unfold giant_phase, w0, star_init. fields.
    change (Z.of_nat 0) with 0%Z. repeat split; lra. }
  destruct (phase_exit GIANT giant_phase collapse_entry 150)
    with (d := 150%nat) (j := 0%nat) (w := w0) as (k1 & _ & Hs1 & _ & Hp1).
  { now intros j s (H & _). }
  { intros j s g Hj H. left. now apply giant_step. }
  { intros s g. apply giant_last. }
  { reflexivity. }
  { exact H0. }
  set (w1 := Nat.iter (S k1) tick w0) in *.
  apply collapse_entry_phase in Hp1.
  destruct (phase_exit COLLAPSE collapse_phase (bounce_phase 0) 168)
    with (d := 168%nat) (j := 0%nat) (w := w1) as (k2 & _ & Hs2 & _ & Hp2).
  { now intros j s (H & _). }
  { intros j s g _ H. now apply collapse_step. }
  { intros s g. apply collapse_last. }
  { reflexivity. }
  { exact Hp1. }
  set (w2 := Nat.iter (S k2) tick w1) in *.
  destruct (phase_exit BOUNCE bounce_phase (explosion_phase 0) 24)
    with (d := 24%nat) (j := 0%nat) (w := w2) as (k3 & _ & Hs3 & _ & Hp3).
  { now intros j s (H & _). }
  { intros j s g Hj H. left. now apply bounce_step. }
  { intros s g. apply bounce_last. }
  { reflexivity. }
  { exact Hp2. }
  set (w3 := Nat.iter (S k3) tick w2) in *.
  destruct (phase_exit EXPLOSION explosion_phase (nebula_phase 0) 29)
    with (d := 29%nat) (j := 0%nat) (w := w3) as (k4 & _ & Hs4 & _ & Hp4).
  { now intros j s (H & _). }
  { intros j s g Hj H. left. now apply explosion_step. }
  { intros s g. apply explosion_last. }
  { reflexivity. }
  { exact Hp3. }
  set (w4 := Nat.iter (S k4) tick w3) in *.
  destruct (phase_exit NEBULA nebula_phase restarted 45)
    with (d := 45%nat) (j := 0%nat) (w := w4) as (k5 & _ & Hs5 & Hl5 & Hp5).
  { now intros j s (H & _). }
  { intros j s g Hj H. left. now apply nebula_step. }
  { intros s g. apply nebula_last. }
  { reflexivity. }
  { exact Hp4. }
  set (a := (S k1 + (S k2 + (S k3 + S k4)))%nat).
  assert (Hw4 : Nat.iter a tick w0 = w4).
  { unfold a. now rewrite !iter_tick_add. }
  exists (a + k5)%nat.
  change (main_loop density0 particles0) with (fun n => Nat.iter n tick w0).
  cbv beta.
  replace (S (a + k5)) with (a + S k5)%nat by lia.
  rewrite !iter_tick_add, Hw4.
  split; [exact Hl5 |]. split; [exact Hp5 |].
  replace (a + S k5)%nat with (S k1 + (S k2 + (S k3 + (S k4 + (S k5 + 0)))))%nat
    by lia.
  rewrite !stages_app.
  fold w1. fold w2. fold w3. fold w4.
  rewrite Hs1, Hs2, Hs3, Hs4, Hs5.
  destruct Hp5 as (Hg & _).
  change (stages 0 (Nat.iter (S k5) tick w4))
    with [Star.state (fst (Nat.iter (S k5) tick w4))].
  rewrite Hg.
  rewrite !compress_run by (simpl; discriminate).
  reflexivity.
Qed.

End FirstCycle.

(** ** Invariants of the reachable states *)

(** Case analysis on the branch that a call of [update_star] takes; the
    call in the goal is replaced by its result. *)
Ltac step_cases s dt g :=
  let Hst := fresh "Hst" in
  let Hc := fresh "Hcond" in
  destruct (Z.eq_dec (Star.state s) GIANT) as [Hst|];
  [ destruct (Rlt_le_dec 5 (Star.time s + dt)) as [Hc|Hc];
    [ rewrite (update_star_giant_leave s dt g Hst Hc)
    | rewrite (update_star_giant_stay s dt g Hst Hc) ]
  | destruct (Z.eq_dec (Star.state s) COLLAPSE) as [Hst|];
    [ destruct (Rlt_le_dec
        (Star.radius s - (Star.velocity s + 40 * dt) * dt) 3) as [Hc|Hc];
      [ rewrite (update_star_collapse_leave s dt g Hst Hc)
      | rewrite (update_star_collapse_stay s dt g Hst Hc) ]
    | destruct (Z.eq_dec (Star.state s) BOUNCE) as [Hst|];
      [ destruct (Rlt_le_dec 0.8 (Star.time s + dt)) as [Hc|Hc];
        [ rewrite (update_star_bounce_leave s dt g Hst Hc);
          rewrite spawn_particles_frame
        | rewrite (update_star_bounce_stay s dt g Hst Hc) ]
      | destruct (Z.eq_dec (Star.state s) EXPLOSION) as [Hst|];
        [ destruct (Rlt_le_dec 32 (Star.explosion_radius s + 30 * dt))
            as [Hc|Hc];
          [ rewrite (update_star_explosion_leave s dt g Hst Hc);
            rewrite update_particles_frame
          | rewrite (update_star_explosion_stay s dt g Hst Hc);
            rewrite update_particles_frame ]
        | destruct (Z.eq_dec (Star.state s) NEBULA) as [Hst|];
          [ destruct (Rlt_le_dec 42 (Star.explosion_radius s + 6 * dt))
              as [Hc|Hc];
            [ rewrite (update_star_nebula_leave s dt g Hst Hc);
              rewrite update_particles_frame
            | rewrite (update_star_nebula_stay s dt g Hst Hc);
              rewrite update_particles_frame ]
          | rewrite (update_star_other s dt g)
              by (unfold GIANT, COLLAPSE, BOUNCE, EXPLOSION, NEBULA in *;
                  lia) ] ] ] ] ];
  cbn [fst snd Star.radius Star.core_radius Star.explosion_radius
       Star.velocity Star.time Star.density Star.state Star.particles
       Star.particle_count set_radius set_core_radius set_explosion_radius
       set_velocity set_time set_state set_particles set_particle_count].

Section Invariants.

Context {L : Libc}.

Lemma reachable_by_weaken (ok ok' : R -> Prop) (density0 : R)
    (particles0 : list Particle.t) (w : Star.t * nat) :
  (forall dt, ok dt -> ok' dt) ->
  reachable_by ok density0 particles0 w ->
  reachable_by ok' density0 particles0 w.
Proof.
  intros Hok H. induction H as [| s g dt Hdt H IH | s g H IH].
  - apply reachable_init.
  - apply reachable_update; auto.
  - now apply reachable_draw.
Qed.

(** The states of the loop of [main] are reachable with the driver's
    increment. *)
Lemma main_loop_reachable (density0 : R) (particles0 : list Particle.t)
    (n : nat) :
  reachable_by (eq dt_main) density0 particles0
    (main_loop density0 particles0 n).
Proof.
  induction n as [|n IH]; [apply reachable_init |].
  change (main_loop density0 particles0 (S n))
    with (fst (frame (main_loop density0 particles0 n))).
  destruct (main_loop density0 particles0 n) as [s g].
  unfold frame.
  pose proof (reachable_update _ _ _ s g dt_main eq_refl IH) as Hu.
  destruct (update_star s dt_main g) as [s' g'].
  pose proof (reachable_draw _ _ _ s' g' Hu) as Hd.
  destruct (draw_star s' g') as [out g'']. exact Hd.
Qed.

(** The stage after a call is the stage before it or its successor. *)
Lemma update_star_order (s : Star.t) (dt : R) (g : nat) :
  Star.state (fst (update_star s dt g)) = Star.state s \/
  Star.state (fst (update_star s dt g)) = next_stage (Star.state s).
Proof.
  step_cases s dt g; try rewrite Hst; auto.
Qed.

Lemma star_inv_init (density0 : R) (particles0 : list Particle.t) :
  star_inv (star_init density0 particles0).
Proof.
  unfold star_inv, star_init, GIANT, BOUNCE, NEBULA. simpl.
  repeat split; try lia; auto. left. repeat split; lia.
Qed.

Lemma star_inv_update (s : Star.t) (dt : R) (g : nat) :
  star_inv s -> star_inv (fst (update_star s dt g)).
Proof.
  unfold star_inv.
  intros (Hrange & Hcore & Hb & Hcount).
  unfold GIANT, COLLAPSE, BOUNCE, EXPLOSION, NEBULA, MAX_PARTICLES in *.
  step_cases s dt g;
    unfold GIANT, COLLAPSE, BOUNCE, EXPLOSION, NEBULA, MAX_PARTICLES in *;
    repeat split; auto; try lia;
    try (intros; apply Hb; lia);
    try (destruct Hcount as [(Hn & He & Hs) | Hn]; [| now right];
         first [ left; repeat split; (assumption || lia) | exfalso; lia ]).
Qed.

Lemma reachable_star_inv (density0 : R) (particles0 : list Particle.t)
    (w : Star.t * nat) :
  reachable density0 particles0 w -> star_inv (fst w).
Proof.
  intros H. induction H as [| s g dt _ H IH | s g H IH].
  - apply star_inv_init.
  - now apply star_inv_update.
  - exact IH.
Qed.

End Invariants.

(** ** The renderer, cell by cell *)

Section Render.

Context {L : Libc}.

Lemma particle_pixel_hit (s : Star.t) (y x : Z) (pixel : ascii) :
  particle_on s y x -> particle_pixel s y x pixel = "+"%char.
Proof.
  intros (i & p & Hi & Hp & Hx & Hy & Hl).
  unfold particle_pixel, for_upto.
  assert (Hn : (i < Z.to_nat (Star.particle_count s))%nat) by lia.
  revert Hn.
  apply (for_upto_nat_inv
    (fun j (pix : ascii) => (i < j)%nat -> pix = "+"%char)).
  - lia.
  - intros j pix Hj IH Hij.
    destruct (Nat.eq_dec i j) as [<-|Hne].
    + rewrite Hp, Hx, Hy, !Z.eqb_refl.
      apply Rltb_lt in Hl. now rewrite Hl.
    + rewrite IH by lia.
      destruct (Star.particles s !! j) as [q|]; [| reflexivity].
      now destruct (_ && _).
Qed.

Lemma particle_pixel_miss (s : Star.t) (y x : Z) (pixel : ascii) :
  ~ particle_on s y x -> particle_pixel s y x pixel = pixel.
Proof.
  intros Hno. unfold particle_pixel, for_upto.
  apply (for_upto_nat_inv (fun _ (pix : ascii) => pix = pixel)).
  - reflexivity.
  - intros j pix Hj ->.
    destruct (Star.particles s !! j) as [q|] eqn:Eq; [| reflexivity].
    destruct (_ && _) eqn:Ec; [| reflexivity].
    exfalso. apply Hno.
    apply andb_prop in Ec as [Ec Hl]. apply andb_prop in Ec as [Hx Hy].
    exists j, q. repeat split.
    + lia.
    + exact Eq.
    + now apply Z.eqb_eq.
    + now apply Z.eqb_eq.
    + now apply Rltb_lt.
Qed.

Lemma pixel_at_layers (s : Star.t) (y x : Z) (g : nat) :
  pixel_at s y x g =
  (particle_pixel s y x
     (core_pixel s (cell_distance y x)
        (fst (base_pixel s (cell_distance y x) g))),
   snd (base_pixel s (cell_distance y x) g)).
Proof.
  unfold pixel_at. now destruct (base_pixel s (cell_distance y x) g).
Qed.

(** The symbols that the first two layers can produce. *)
Lemma base_pixel_symbols (s : Star.t) (d : R) (g : nat) :
  fst (base_pixel s d g) ∈ [" "; "#"; "@"; "*"; "."]%char.
Proof.
  unfold base_pixel.
  repeat match goal with
         | |- context [if ?b then _ else _] => destruct b
         end;
    cbn [fst]; rewrite !elem_of_cons; auto 10.
Qed.

Lemma pixel_at_no_particles (s : Star.t) (y x : Z) (g : nat) :
  (Star.particle_count s <= 0)%Z ->
  fst (pixel_at s y x g) <> "+"%char.
Proof.
  intros Hn. rewrite pixel_at_layers. cbn [fst].
  rewrite particle_pixel_miss.
  - unfold core_pixel. destruct (_ <=? _); [discriminate |].
    pose proof (base_pixel_symbols s (cell_distance y x) g) as H.
    rewrite !elem_of_cons, elem_of_nil in H.
    intros E. rewrite E in H.
    repeat destruct H as [H | H]; try discriminate H; exact H.
  - intros (i & p & Hi & _). lia.
Qed.

(** Without particles no character that [draw_star] writes is the ejecta
    symbol. *)
Lemma draw_star_no_particles (s : Star.t) (g : nat) :
  (Star.particle_count s <= 0)%Z ->
  "+"%char ∉ fst (draw_star s g).
Proof.
  intros Hn. unfold draw_star, for_upto.
  apply (for_upto_nat_inv
    (fun _ (w : list ascii * nat) => "+"%char ∉ fst w)).
  - cbn [fst]. intros H%list_elem_of_In. vm_compute in H.
    repeat destruct H as [H | H]; try discriminate H; exact H.
  - intros y [out gy] _ IH. cbn [fst] in IH.
    assert (Hrow : "+"%char ∉ fst
      (for_loop 0 (Z.to_nat WIDTH)
         (fun (x : nat) '(out, g) =>
            let '(pixel, g0) := pixel_at s (Z.of_nat y) (Z.of_nat x) g in
            (out ++ [pixel], g0)) (out, gy))).
    { apply (for_upto_nat_inv
        (fun _ (w : list ascii * nat) => "+"%char ∉ fst w)).
      - exact IH.
      - intros x [o gx] _ IHx. cbn [fst] in IHx.
        pose proof (pixel_at_no_particles s (Z.of_nat y) (Z.of_nat x) gx Hn)
          as Hp.
        destruct (pixel_at s (Z.of_nat y) (Z.of_nat x) gx) as [c g'].
        cbn [fst] in *. rewrite elem_of_app, list_elem_of_singleton.
        intros [H | H]; [now apply IHx | now apply Hp]. }
    destruct (for_loop 0 (Z.to_nat WIDTH) _ (out, gy)) as [o g'].
    cbn [fst] in *. rewrite elem_of_app, list_elem_of_singleton.
    intros [H | H]; [now apply Hrow | discriminate H].
Qed.

Ltac grid_arith :=
  unfold cell_index;
  change (Z.to_nat WIDTH) with 90%nat in *;
  change (length clear) with 6%nat in *;
  cbn [length] in *; nia.

(** The character that [draw_star] writes for a cell of the grid is the
    one [pixel_at] computes for it, after some number of calls of
    [rand()]. *)
Lemma draw_star_cell (s : Star.t) (g : nat) (y x : nat) :
  (y < Z.to_nat HEIGHT)%nat -> (x < Z.to_nat WIDTH)%nat ->
  exists g' : nat,
    fst (draw_star s g) !! cell_index y x =
    Some (fst (pixel_at s (Z.of_nat y) (Z.of_nat x) g')).
Proof.
  intros Hy Hx.
  pose (drawn := fun (out : list ascii) (y' x' : nat) =>
    exists g' : nat,
      out !! cell_index y' x' =
      Some (fst (pixel_at s (Z.of_nat y') (Z.of_nat x') g'))).
  cut (forall y' x', (y' < Z.to_nat HEIGHT)%nat ->
         (x' < Z.to_nat WIDTH)%nat -> drawn (fst (draw_star s g)) y' x').
  { intros H. now apply H. }
  unfold draw_star, for_upto.
  apply (for_upto_nat_inv
    (fun yj (w : list ascii * nat) =>
       length (fst w) = cell_index yj 0 /\
       forall y' x', (y' < yj)%nat -> (x' < Z.to_nat WIDTH)%nat ->
         drawn (fst w) y' x')).
  - cbn [fst]. split; [reflexivity |]. intros y' x' Hy'. lia.
  - intros yj [out gy] _ (Hlen & Hrows). cbn [fst] in *.
    assert (Hrow :
      let w := for_loop 0 (Z.to_nat WIDTH)
         (fun (x : nat) '(out, g) =>
            let '(pixel, g0) := pixel_at s (Z.of_nat yj) (Z.of_nat x) g in
            (out ++ [pixel], g0)) (out, gy) in
      length (fst w) = cell_index yj (Z.to_nat WIDTH) /\
      (forall y' x', (y' < yj)%nat -> (x' < Z.to_nat WIDTH)%nat ->
         drawn (fst w) y' x') /\
      (forall x', (x' < Z.to_nat WIDTH)%nat -> drawn (fst w) yj x')).
    { apply (for_upto_nat_inv
        (fun xj (w : list ascii * nat) =>
           length (fst w) = cell_index yj xj /\
           (forall y' x', (y' < yj)%nat -> (x' < Z.to_nat WIDTH)%nat ->
              drawn (fst w) y' x') /\
           (forall x', (x' < xj)%nat -> drawn (fst w) yj x'))).
      - cbn [fst]. split; [exact Hlen |]. split; [exact Hrows |].
        intros x' Hx'. lia.
      - intros xj [o gx] Hxj (Hl & Hr & Hc). cbn [fst] in *.
        destruct (pixel_at s (Z.of_nat yj) (Z.of_nat xj) gx) as [c g'] eqn:Ep.
        cbn [fst]. split; [| split].
        + rewrite length_app, Hl. grid_arith.
        + intros y' x' Hy' Hx'. destruct (Hr y' x' Hy' Hx') as (g0 & Hg0).
          exists g0. rewrite lookup_app_l; [exact Hg0 |].
          rewrite Hl. grid_arith.
        + intros x' Hx'. destruct (Nat.eq_dec x' xj) as [->|Hne].
          * exists gx. rewrite Ep. cbn [fst].
            rewrite lookup_app_r by lia.
            now rewrite Hl, Nat.sub_diag.
          * destruct (Hc x') as (g0 & Hg0); [lia |].
            exists g0. rewrite lookup_app_l; [exact Hg0 |].
            rewrite Hl. grid_arith. }
    destruct (for_loop 0 (Z.to_nat WIDTH) _ (out, gy)) as [o g'].
    cbn [fst] in *. destruct Hrow as (Hl & Hr & Hc).
    split.
    + rewrite length_app, Hl. grid_arith.
    + intros y' x' Hy' Hx'.
      assert (Hd : drawn o y' x').
      { destruct (Nat.eq_dec y' yj) as [->|Hne];
          [now apply Hc | apply Hr; [lia | exact Hx']]. }
      destruct Hd as (g0 & Hg0). exists g0.
      rewrite lookup_app_l; [exact Hg0 |].
      apply lookup_lt_is_Some. rewrite Hg0. eauto.
Qed.

End Render.

(** ** Particles *)




(** ** The fields that survive the restart *)

Section Lifecycles.

Context {L : Libc}.

Lemma core_radius_step (s : Star.t) (dt : R) (g : nat) :
  let s' := fst (update_star s dt g) in
  (Star.state s = COLLAPSE -> Star.state s' = BOUNCE ->
   Star.core_radius s' = 2) /\
  (~ (Star.state s = COLLAPSE /\ Star.state s' = BOUNCE) ->
   Star.core_radius s' = Star.core_radius s).
Proof.
  cbv zeta. step_cases s dt g; split; intros; try reflexivity;
    try tauto;
    unfold GIANT, COLLAPSE, BOUNCE, EXPLOSION, NEBULA in *;
    try congruence; try lia; tauto.
Qed.

Lemma explosion_radius_step (s : Star.t) (dt : R) (g : nat) :
  let s' := fst (update_star s dt g) in
  (Star.state s = BOUNCE -> Star.state s' = EXPLOSION ->
   Star.explosion_radius s' = 3) /\
  ((Star.state s <= BOUNCE)%Z -> Star.state s' <> EXPLOSION ->
   Star.explosion_radius s' = Star.explosion_radius s) /\
  (Star.state s = NEBULA -> Star.state s' = GIANT ->
   42 < Star.explosion_radius s').
Proof.
  cbv zeta. unfold GIANT, COLLAPSE, BOUNCE, EXPLOSION, NEBULA in *.
  step_cases s dt g; repeat split; intros;
    unfold GIANT, COLLAPSE, BOUNCE, EXPLOSION, NEBULA in *;
    try reflexivity; try congruence; try lia; try lra.
Qed.

Lemma particle_count_step (s : Star.t) (dt : R) (g : nat) :
  let s' := fst (update_star s dt g) in
  (Star.state s = BOUNCE -> Star.state s' = EXPLOSION ->
   Star.particle_count s' = MAX_PARTICLES) /\
  (~ (Star.state s = BOUNCE /\ Star.state s' = EXPLOSION) ->
   Star.particle_count s' = Star.particle_count s).
Proof.
  cbv zeta. step_cases s dt g; split; intros; try reflexivity;
    try tauto;
    unfold GIANT, COLLAPSE, BOUNCE, EXPLOSION, NEBULA in *;
    try congruence; try lia; tauto.
Qed.

(** With positive increments the shock front, once spawned, never falls
    below its starting radius. *)
Lemma explosion_radius_spawned (density0 : R) (particles0 : list Particle.t)
    (w : Star.t * nat) :
  reachable_by (Rlt 0) density0 particles0 w ->
  Star.particle_count (fst w) = MAX_PARTICLES ->
  3 <= Star.explosion_radius (fst w).
Proof.
  intros H. induction H as [| s g dt Hdt H IH | s g H IH].
  - discriminate.
  - cbn [fst] in IH. revert IH.
    step_cases s dt g; intros IH Hn; try (apply IH; exact Hn); try lra;
      specialize (IH Hn); lra.
  - exact IH.
Qed.

(** C3, as the code has it.  In every reachable state [core_radius] is 0
    or 2, and it is 2 from the first bounce on.  A call of [update_star]
    assigns it only in the Collapse-to-Bounce transition, to 2; every
    other call leaves it unchanged, so it stays constant through Bounce,
    Explosion and Nebula, and the Nebula-to-Giant restart keeps the value 2
    as well. *)
Theorem core_radius_lifecycle (density0 : R) (particles0 : list Particle.t)
    (s : Star.t) (g : nat) (dt : R) :
  reachable density0 particles0 (s, g) ->
  let s' := fst (update_star s dt g) in
  (Star.core_radius s = 0 \/ Star.core_radius s = 2) /\
  ((BOUNCE <= Star.state s)%Z -> Star.core_radius s = 2) /\
  (Star.state s = COLLAPSE -> Star.state s' = BOUNCE ->
   Star.core_radius s' = 2) /\
  (~ (Star.state s = COLLAPSE /\ Star.state s' = BOUNCE) ->
   Star.core_radius s' = Star.core_radius s) /\
  (Star.state s = NEBULA -> Star.state s' = GIANT ->
   Star.core_radius s' = 2).
Proof.
  intros Hr s'.
  apply reachable_star_inv in Hr. cbn [fst] in Hr.
  destruct Hr as (_ & Hcore & Hb & _).
  destruct (core_radius_step s dt g) as (Hset & Hkeep). fold s' in Hset, Hkeep.
  repeat split; try assumption.
  intros Hn Hg. rewrite Hkeep.
  - apply Hb. rewrite Hn. unfold NEBULA, BOUNCE. lia.
  - intros (Hc & _). rewrite Hn in Hc. discriminate Hc.
Qed.

(** C4, as the code has it.  In every state reachable with positive
    increments: while no particles were spawned the stage is Giant,
    Collapse or Bounce and [explosion_radius] is 0; once they were, it is
    at least 3.  The Bounce-to-Explosion transition sets it to 3; a call
    in Giant, Collapse or Bounce that does not make this transition leaves
    it unchanged; and the Nebula-to-Giant restart leaves it above 42, so
    that it is not 0 in the Giant, Collapse and Bounce stages of the
    following cycles. *)
Theorem explosion_radius_lifecycle (density0 : R)
    (particles0 : list Particle.t) (s : Star.t) (g : nat) (dt : R) :
  reachable_by (Rlt 0) density0 particles0 (s, g) ->
  let s' := fst (update_star s dt g) in
  (Star.particle_count s = 0%Z ->
   Star.explosion_radius s = 0 /\ (GIANT <= Star.state s <= BOUNCE)%Z) /\
  (Star.particle_count s = MAX_PARTICLES -> 3 <= Star.explosion_radius s) /\
  (Star.state s = BOUNCE -> Star.state s' = EXPLOSION ->
   Star.explosion_radius s' = 3) /\
  ((Star.state s <= BOUNCE)%Z -> Star.state s' <> EXPLOSION ->
   Star.explosion_radius s' = Star.explosion_radius s) /\
  (Star.state s = NEBULA -> Star.state s' = GIANT ->
   42 < Star.explosion_radius s').
Proof.
  intros Hr s'.
  pose proof (explosion_radius_spawned _ _ _ Hr) as Hsp. cbn [fst] in Hsp.
  apply (reachable_by_weaken _ (fun _ => True)) in Hr; [| trivial].
  apply reachable_star_inv in Hr. cbn [fst] in Hr.
  destruct Hr as ((Hlo & _) & _ & _ & Hcount).
  destruct (explosion_radius_step s dt g) as (H1 & H2 & H3).
  fold s' in H1, H2, H3.
  repeat split; try assumption.
  - destruct Hcount as [(_ & He & _) | Hn]; [exact He |].
    rewrite Hn in H. discriminate H.
  - destruct Hcount as [(_ & _ & Hs) | Hn]; [exact Hs |].
    rewrite Hn in H. discriminate H.
Qed.

(** C10.  In every reachable state [particle_count] is 0 or 450; it is 0
    only while the star has not exploded yet, becomes 450 in the
    Bounce-to-Explosion transition and is left unchanged by every other
    call, so that it stays 450 for ever.  While it is 0, [draw_star]
    writes no ejecta symbol and [update_particles] changes nothing. *)
Theorem particle_count_lifecycle (density0 : R)
    (particles0 : list Particle.t) (s : Star.t) (g : nat) (dt : R) :
  reachable density0 particles0 (s, g) ->
  let s' := fst (update_star s dt g) in
  (Star.particle_count s = 0%Z \/ Star.particle_count s = 450%Z) /\
  (Star.particle_count s = 0%Z -> (GIANT <= Star.state s <= BOUNCE)%Z) /\
  (Star.state s = BOUNCE -> Star.state s' = EXPLOSION ->
   Star.particle_count s' = 450%Z) /\
  (~ (Star.state s = BOUNCE /\ Star.state s' = EXPLOSION) ->
   Star.particle_count s' = Star.particle_count s) /\
  (Star.particle_count s = 450%Z -> Star.particle_count s' = 450%Z) /\
  (Star.particle_count s = 0%Z ->
   ("+"%char ∉ fst (draw_star s g)) /\ update_particles s dt = s).
Proof.
  intros Hr s'.
  apply reachable_star_inv in Hr. cbn [fst] in Hr.
  destruct Hr as ((Hlo & _) & _ & _ & Hcount).
  destruct (particle_count_step s dt g) as (Hset & Hkeep).
  fold s' in Hset, Hkeep. change MAX_PARTICLES with 450%Z in *.
  repeat split; try assumption.
  - destruct Hcount as [(Hn & _) | Hn]; auto.
  - destruct Hcount as [(_ & _ & Hs) | Hn']; [exact Hs |].
    rewrite H in Hn'. discriminate Hn'.
  - intros Hn.
    destruct (Z.eq_dec (Star.state s) BOUNCE) as [Hb|Hb];
      [destruct (Z.eq_dec (Star.state s') EXPLOSION) as [He|He] |].
    + now apply Hset.
    + rewrite Hkeep; [exact Hn | tauto].
    + rewrite Hkeep; [exact Hn | tauto].
  - apply draw_star_no_particles. rewrite H. lia.
  - unfold update_particles, for_upto. now rewrite H.
Qed.

End Lifecycles.

(** The three lifecycles at the initial star of a run. *)
Lemma core_radius_lifecycle_witness :
  @reachable libc_sample 0 particles_sample
    (star_init 0 particles_sample, O) /\
  let s := star_init 0 particles_sample in
  let s' := fst (@update_star libc_sample s dt_main O) in
  (Star.core_radius s = 0 \/ Star.core_radius s = 2) /\
  ((BOUNCE <= Star.state s)%Z -> Star.core_radius s = 2) /\
  (Star.state s = COLLAPSE -> Star.state s' = BOUNCE ->
   Star.core_radius s' = 2) /\
  (~ (Star.state s = COLLAPSE /\ Star.state s' = BOUNCE) ->
   Star.core_radius s' = Star.core_radius s) /\
  (Star.state s = NEBULA -> Star.state s' = GIANT ->
   Star.core_radius s' = 2).
Proof.
  assert (H : @reachable libc_sample 0 particles_sample
                (star_init 0 particles_sample, O))
    by apply reachable_init.
  split; [exact H |].
  exact (@core_radius_lifecycle libc_sample 0 particles_sample
           (star_init 0 particles_sample) O dt_main H).
Defined.

Lemma explosion_radius_lifecycle_witness :
  @reachable_by libc_sample (Rlt 0) 0 particles_sample
    (star_init 0 particles_sample, O) /\
  let s := star_init 0 particles_sample in
  let s' := fst (@update_star libc_sample s dt_main O) in
  (Star.particle_count s = 0%Z ->
   Star.explosion_radius s = 0 /\ (GIANT <= Star.state s <= BOUNCE)%Z) /\
  (Star.particle_count s = MAX_PARTICLES -> 3 <= Star.explosion_radius s) /\
  (Star.state s = BOUNCE -> Star.state s' = EXPLOSION ->
   Star.explosion_radius s' = 3) /\
  ((Star.state s <= BOUNCE)%Z -> Star.state s' <> EXPLOSION ->
   Star.explosion_radius s' = Star.explosion_radius s) /\
  (Star.state s = NEBULA -> Star.state s' = GIANT ->
   42 < Star.explosion_radius s').
Proof.
  assert (H : @reachable_by libc_sample (Rlt 0) 0 particles_sample
                (star_init 0 particles_sample, O))
    by apply reachable_init.
  split; [exact H |].
  exact (@explosion_radius_lifecycle libc_sample 0 particles_sample
           (star_init 0 particles_sample) O dt_main H).
Defined.

Lemma particle_count_lifecycle_witness :
  @reachable libc_sample 0 particles_sample
    (star_init 0 particles_sample, O) /\
  let s := star_init 0 particles_sample in
  let s' := fst (@update_star libc_sample s dt_main O) in
  (Star.particle_count s = 0%Z \/ Star.particle_count s = 450%Z) /\
  (Star.particle_count s = 0%Z -> (GIANT <= Star.state s <= BOUNCE)%Z) /\
  (Star.state s = BOUNCE -> Star.state s' = EXPLOSION ->
   Star.particle_count s' = 450%Z) /\
  (~ (Star.state s = BOUNCE /\ Star.state s' = EXPLOSION) ->
   Star.particle_count s' = Star.particle_count s) /\
  (Star.particle_count s = 450%Z -> Star.particle_count s' = 450%Z) /\
  (Star.particle_count s = 0%Z ->
   ("+"%char ∉ fst (@draw_star libc_sample s O)) /\
   update_particles s dt_main = s).
Proof.
  assert (H : @reachable libc_sample 0 particles_sample
                (star_init 0 particles_sample, O))
    by apply reachable_init.
  split; [exact H |].
  exact (@particle_count_lifecycle libc_sample 0 particles_sample
           (star_init 0 particles_sample) O dt_main H).
Defined.

(** C3 as stated fails.  The tick that takes the fading nebula back to
    Giant leaves [core_radius] at 2; and in the run of the program the
    restart that ends the first cycle does so too. *)
Lemma core_radius_restart_counterexample :
  (let s' := fst (@update_star libc_sample star_fading dt_main O) in
   Star.state star_fading = NEBULA /\
   Star.state s' = GIANT /\
   Star.core_radius s' = 2 /\ Star.core_radius s' <> 0) /\
  (exists m : nat,
     let s := fst (@main_loop libc_sample 0 particles_sample m) in
     let s' := fst (@main_loop libc_sample 0 particles_sample (S m)) in
     Star.state s = NEBULA /\ Star.state s' = GIANT /\
     Star.core_radius s' = 2 /\ Star.core_radius s' <> 0).
Proof.
  split.
  - cbv zeta.
    rewrite update_star_nebula_leave
      by (try reflexivity; unfold dt_main, FPS; simpl; lra).
    rewrite update_particles_frame. simpl.
    repeat split; try reflexivity; lra.
  - destruct (@first_cycle libc_sample 0 particles_sample)
      as (m & Hn & (Hg & _ & _ & Hc & _) & _).
    exists m. cbv zeta. rewrite Hc. repeat split; try assumption; lra.
Qed.

(** C4 as stated fails.  The tick that takes the fading nebula back to
    Giant leaves [explosion_radius] at 42.2; and the run of the program
    reaches a Giant state whose [explosion_radius] is above 42. *)
Lemma explosion_radius_restart_counterexample :
  (let s' := fst (@update_star libc_sample star_fading dt_main O) in
   Star.state s' = GIANT /\
   Star.explosion_radius s' = 42 + 6 * dt_main /\
   Star.explosion_radius s' <> 0) /\
  (exists n : nat,
     let w := @main_loop libc_sample 0 particles_sample n in
     @reachable libc_sample 0 particles_sample w /\
     Star.state (fst w) = GIANT /\
     42 < Star.explosion_radius (fst w) /\
     Star.explosion_radius (fst w) <> 0).
Proof.
  split.
  - cbv zeta.
    rewrite update_star_nebula_leave
      by (try reflexivity; unfold dt_main, FPS; simpl; lra).
    rewrite update_particles_frame. simpl.
    repeat split; try reflexivity. unfold dt_main, FPS. lra.
  - destruct (@first_cycle libc_sample 0 particles_sample)
      as (m & _ & (Hg & _ & _ & _ & He & _) & _).
    exists (S m). cbv zeta. repeat split; try assumption; try lra.
    apply (reachable_by_weaken (eq dt_main)); [trivial |].
    apply main_loop_reachable.
Qed.

(** ** Spawning *)

Lemma libc_sample_spec : LibcSpec libc_sample.
Proof.
  split.
  - simpl. lia.
  - intros g. simpl. destruct (g =? 2)%nat; [lia |].
    pose proof (Z.mod_pos_bound (1103515245 * Z.of_nat g + 12345) 2147483648).
    lia.
Qed.

Section Spawn.

Context {L : Libc} {HL : LibcSpec L}.

Lemma rand_ratio (g : nat) : 0 <= IZR (rand g) / IZR RAND_MAX <= 1.
Proof using HL.
  pose proof RAND_MAX_min as Hmax. pose proof (rand_range g) as [H0 H1].
  assert (Hm : 0 < IZR RAND_MAX) by (apply (IZR_lt 0); lia).
  apply (IZR_le 0) in H0. apply IZR_le in H1.
  split.
  - apply Rmult_le_reg_r with (IZR RAND_MAX); [exact Hm |].
    unfold Rdiv. rewrite Rmult_assoc, Rinv_l by lra. lra.
  - apply Rmult_le_reg_r with (IZR RAND_MAX); [exact Hm |].
    unfold Rdiv. rewrite Rmult_assoc, Rinv_l by lra. lra.
Qed.

(** The velocity that a draw of the angle gives is one of an angle in
    [0, 2 pi): the draw [RAND_MAX] gives the angle [2 pi], whose cosine
    and sine are those of 0. *)
Lemma rand_angle (g : nat) :
  exists angle : R,
    0 <= angle < 2 * PI /\
    cos (IZR (rand g) / IZR RAND_MAX * 2 * PI) = cos angle /\
    sin (IZR (rand g) / IZR RAND_MAX * 2 * PI) = sin angle.
Proof using HL.
  pose proof PI_RGT_0 as Hpi.
  pose proof (rand_ratio g) as [H0 H1].
  destruct (Rle_lt_or_eq_dec _ _ H1) as [Hlt | Heq].
  - exists (IZR (rand g) / IZR RAND_MAX * 2 * PI).
    repeat split; try reflexivity; nra.
  - exists 0. rewrite Heq.
    replace (1 * 2 * PI) with (2 * PI) by lra.
    rewrite cos_2PI, sin_2PI, cos_0, sin_0.
    repeat split; try reflexivity; lra.
Qed.

(** C5, as the code has it.  Right after [spawn_particles] the count is
    450 and every one of the 450 particles sits at the centre of the grid,
    has the velocity [(cos(angle)*speed, sin(angle)*speed*0.55)] of some
    angle in [0, 2 pi) and some integer speed in [10, 50), and a lifetime
    in the closed interval [2.5, 4.0].  (The angle drawn lies in the
    closed interval [0, 2 pi]; at [2 pi] the velocity is that of the
    angle 0.) *)
Theorem spawn_particles_spawned (s : Star.t) (g : nat) (i : nat) :
  length (Star.particles s) = 450%nat ->
  (i < 450)%nat ->
  let s' := fst (spawn_particles s g) in
  Star.particle_count s' = 450%Z /\
  exists p : Particle.t,
    Star.particles s' !! i = Some p /\
    Particle.x p = IZR WIDTH / 2 /\
    Particle.y p = IZR HEIGHT / 2 /\
    (exists (drawn angle : R) (speed : Z),
       0 <= drawn <= 2 * PI /\
       0 <= angle < 2 * PI /\ (10 <= speed < 50)%Z /\
       Particle.vx p = cos drawn * IZR speed /\
       Particle.vy p = sin drawn * IZR speed * 0.55 /\
       Particle.vx p = cos angle * IZR speed /\
       Particle.vy p = sin angle * IZR speed * 0.55) /\
    2.5 <= Particle.life p <= 4.0.
Proof using HL.
  intros Hlen Hi s'.
  destruct (spawn_particles_spec s g) as (Hs & _ & _ & Hk).
  fold s' in Hs, Hk. split.
  - rewrite Hs. reflexivity.
  - exists (spawned_particle (g + 3 * i)). split; [| split; [| split; [| split]]].
    + rewrite Hk by lia.
      change (Z.to_nat MAX_PARTICLES) with 450%nat.
      destruct (Nat.ltb_spec i 450); [reflexivity | lia].
    + unfold spawned_particle; cbn [Particle.x Particle.y Particle.vx Particle.vy Particle.life]. lra.
    + unfold spawned_particle; cbn [Particle.x Particle.y Particle.vx Particle.vy Particle.life]. lra.
    + destruct (rand_angle (g + 3 * i)) as (angle & Ha & Hcos & Hsin).
      exists (IZR (rand (g + 3 * i)) / IZR RAND_MAX * 2 * PI), angle,
        (10 + Z.rem (rand (S (g + 3 * i))) 40)%Z.
      unfold spawned_particle. cbn [Particle.vx Particle.vy].
      split; [| split; [exact Ha | split; [| split; [| split; [| split]]]]].
      * pose proof (rand_ratio (g + 3 * i)) as [H0 H1].
        pose proof PI_RGT_0. nra.
      * pose proof (rand_range (S (g + 3 * i))) as [H0 _].
        pose proof (Z.rem_bound_pos (rand (S (g + 3 * i))) 40 H0).
        lia.
      * reflexivity.
      * reflexivity.
      * now rewrite Hcos.
      * now rewrite Hsin.
    + pose proof (rand_ratio (S (S (g + 3 * i)))) as [H0 H1].
      unfold spawned_particle; cbn [Particle.x Particle.y Particle.vx Particle.vy Particle.life]. lra.
Qed.

End Spawn.

(** The first of the particles spawned over the collapsing star. *)
Lemma spawn_particles_spawned_witness :
  length (Star.particles star_collapsing) = 450%nat /\
  (0 < 450)%nat /\
  let s' := fst (@spawn_particles libc_sample star_collapsing O) in
  Star.particle_count s' = 450%Z /\
  exists p : Particle.t,
    Star.particles s' !! 0%nat = Some p /\
    Particle.x p = IZR WIDTH / 2 /\
    Particle.y p = IZR HEIGHT / 2 /\
    (exists (drawn angle : R) (speed : Z),
       0 <= drawn <= 2 * PI /\
       0 <= angle < 2 * PI /\ (10 <= speed < 50)%Z /\
       Particle.vx p = cos drawn * IZR speed /\
       Particle.vy p = sin drawn * IZR speed * 0.55 /\
       Particle.vx p = cos angle * IZR speed /\
       Particle.vy p = sin angle * IZR speed * 0.55) /\
    2.5 <= Particle.life p <= 4.0.
Proof.
  assert (H1 : length (Star.particles star_collapsing) = 450%nat)
    by reflexivity.
  assert (H2 : (0 < 450)%nat) by lia.
  split; [exact H1 |]. split; [exact H2 |].
  exact (@spawn_particles_spawned libc_sample libc_sample_spec
           star_collapsing O O H1 H2).
Defined.

(** C5 as stated fails: when the call of [rand()] that draws a lifetime
    returns [RAND_MAX], as the third call of the sample generator does,
    the lifetime is 4.0, outside the half-open interval [2.5, 4.0). *)
Lemma spawn_particles_lifetime_counterexample :
  @rand libc_sample 2 = @RAND_MAX libc_sample /\
  exists p : Particle.t,
    Star.particles (fst (@spawn_particles libc_sample star_collapsing O))
      !! 0%nat = Some p /\
    Particle.life p = 4.0 /\
    ~ (2.5 <= Particle.life p < 4.0).
Proof.
  split; [reflexivity |].
  exists (@spawned_particle libc_sample 0).
  assert (Hl : Particle.life (@spawned_particle libc_sample 0) = 4.0).
  { simpl. lra. }
  split; [| split].
  - destruct (@spawn_particles_spec libc_sample star_collapsing O)
      as (_ & _ & _ & Hk).
    rewrite Hk by (change (length (Star.particles star_collapsing))
                     with 450%nat; lia).
    reflexivity.
  - exact Hl.
  - rewrite Hl. lra.
Qed.

(** ** Rendering priority and geometry *)

Section Layers.

Context {L : Libc}.

Lemma base_pixel_tests (s : Star.t) (d : R) (g : nat) :
  (Star.state s = GIANT ->
   (fst (base_pixel s d g) = "#"%char <-> d <= Star.radius s)) /\
  (Star.state s = COLLAPSE ->
   (fst (base_pixel s d g) = "@"%char <-> d <= Star.radius s)) /\
  (Star.state s = BOUNCE ->
   (fst (base_pixel s d g) = "*"%char <->
    Star.radius s - 1.5 <= d <= Star.radius s)) /\
  (Star.state s = EXPLOSION ->
   (fst (base_pixel s d g) = "*"%char <->
    Star.explosion_radius s - 1.6 <= d <= Star.explosion_radius s)) /\
  (Star.state s = NEBULA ->
   (fst (base_pixel s d g) = "."%char <->
    d <= Star.explosion_radius s /\ Z.rem (rand g) 12 = 0%Z)).
Proof.
  assert (Hfin : forall (c1 c2 : ascii) (P : Prop),
            c1 <> c2 -> ~ P -> (c1 = c2 <-> P)) by (intros; tauto).
  split; [| split; [| split; [| split]]]; intros Hst;
    unfold base_pixel; rewrite Hst;
    cbn [Z.eqb Pos.eqb GIANT COLLAPSE BOUNCE EXPLOSION NEBULA].
  - destruct (d <=? Star.radius s) eqn:E;
      [apply Rleb_le in E | apply Rleb_gt in E]; cbn [fst].
    + tauto.
    + apply Hfin; [discriminate | lra].
  - destruct (d <=? Star.radius s) eqn:E;
      [apply Rleb_le in E | apply Rleb_gt in E]; cbn [fst].
    + tauto.
    + apply Hfin; [discriminate | lra].
  - destruct (d <=? Star.radius s) eqn:E1;
      [apply Rleb_le in E1 | apply Rleb_gt in E1];
      (destruct (Star.radius s - 1.5 <=? d) eqn:E2;
       [apply Rleb_le in E2 | apply Rleb_gt in E2]); cbn [fst andb].
    + tauto.
    + apply Hfin; [discriminate | lra].
    + apply Hfin; [discriminate | lra].
    + apply Hfin; [discriminate | lra].
  - destruct (d <=? Star.explosion_radius s) eqn:E1;
      [apply Rleb_le in E1 | apply Rleb_gt in E1];
      (destruct (Star.explosion_radius s - 1.6 <=? d) eqn:E2;
       [apply Rleb_le in E2 | apply Rleb_gt in E2]); cbn [fst andb].
    + tauto.
    + apply Hfin; [discriminate | lra].
    + apply Hfin; [discriminate | lra].
    + apply Hfin; [discriminate | lra].
  - destruct (d <=? Star.explosion_radius s) eqn:E1;
      [apply Rleb_le in E1 | apply Rleb_gt in E1].
    + destruct (Z.eqb_spec (Z.rem (rand g) 12) 0); cbn [fst].
      * tauto.
      * apply Hfin; [discriminate | tauto].
    + cbn [fst]. apply Hfin; [discriminate | lra].
Qed.

(** C6.  For every cell of the grid, the character that [draw_star]
    writes is the one that the three layers give in this order of
    priority: the ejecta symbol when a live particle sits on the cell;
    otherwise the remnant symbol when the cell is within [core_radius];
    otherwise the symbol of the base layer.  In particular a cell that is
    within [core_radius], in the band of the shock and under a live
    particle shows the ejecta symbol. *)
Theorem render_priority (s : Star.t) (g : nat) (y x : nat) :
  (y < 32)%nat -> (x < 90)%nat ->
  let d := cell_distance (Z.of_nat y) (Z.of_nat x) in
  exists g' : nat,
    let pixel := fst (pixel_at s (Z.of_nat y) (Z.of_nat x) g') in
    fst (draw_star s g) !! cell_index y x = Some pixel /\
    (particle_on s (Z.of_nat y) (Z.of_nat x) -> pixel = "+"%char) /\
    (~ particle_on s (Z.of_nat y) (Z.of_nat x) ->
     d <= Star.core_radius s -> pixel = "O"%char) /\
    (~ particle_on s (Z.of_nat y) (Z.of_nat x) ->
     Star.core_radius s < d -> pixel = fst (base_pixel s d g')) /\
    (d <= Star.core_radius s ->
     (Star.state s = BOUNCE /\
      Star.radius s - 1.5 <= d <= Star.radius s) \/
     (Star.state s = EXPLOSION /\
      Star.explosion_radius s - 1.6 <= d <= Star.explosion_radius s) ->
     particle_on s (Z.of_nat y) (Z.of_nat x) -> pixel = "+"%char).
Proof.
  intros Hy Hx d.
  destruct (draw_star_cell s g y x) as (g' & Hg'); [exact Hy | exact Hx |].
  exists g'. cbv zeta. split; [exact Hg' |].
  rewrite pixel_at_layers. cbn [fst]. fold d.
  repeat split.
  - intros Hon. now apply particle_pixel_hit.
  - intros Hno Hd. rewrite particle_pixel_miss by exact Hno.
    unfold core_pixel. apply Rleb_le in Hd. now rewrite Hd.
  - intros Hno Hd. rewrite particle_pixel_miss by exact Hno.
    unfold core_pixel. apply Rleb_gt in Hd. now rewrite Hd.
  - intros _ _ Hon. now apply particle_pixel_hit.
Qed.

Lemma cell_distance_centre : cell_distance 16 45 = 0.
Proof.
  unfold cell_distance, WIDTH, HEIGHT.
  replace ((45 - 90 / 2.0) * (45 - 90 / 2.0)
           + (16 - 32 / 2.0) * 1.5 * ((16 - 32 / 2.0) * 1.5)) with 0 by lra.
  apply sqrt_0.
Qed.

(** C7.  The distance of a cell from the centre is the Euclidean one
    with the vertical offset multiplied by 1.5; every geometric test of
    the renderer (envelope, collapse, bounce band, explosion band, nebula,
    core) compares this one distance with a radius; and for every [k > 0]
    the cell [k] rows below the centre is strictly farther from it than the
    cell [k] columns to its right. *)
Theorem distance_anisotropy (k : Z) :
  (0 < k)%Z ->
  cell_distance 16 (45 + k) < cell_distance (16 + k) 45 /\
  cell_distance 16 45 = 0 /\
  (forall y x : Z,
     cell_distance y x =
     sqrt ((IZR x - 45) * (IZR x - 45)
           + (IZR y - 16) * 1.5 * ((IZR y - 16) * 1.5))) /\
  (forall (s : Star.t) (y x : Z) (g : nat),
     let d := cell_distance y x in
     pixel_at s y x g =
     (particle_pixel s y x (core_pixel s d (fst (base_pixel s d g))),
      snd (base_pixel s d g)) /\
     (Star.state s = GIANT ->
      (fst (base_pixel s d g) = "#"%char <-> d <= Star.radius s)) /\
     (Star.state s = COLLAPSE ->
      (fst (base_pixel s d g) = "@"%char <-> d <= Star.radius s)) /\
     (Star.state s = BOUNCE ->
      (fst (base_pixel s d g) = "*"%char <->
       Star.radius s - 1.5 <= d <= Star.radius s)) /\
     (Star.state s = EXPLOSION ->
      (fst (base_pixel s d g) = "*"%char <->
       Star.explosion_radius s - 1.6 <= d <= Star.explosion_radius s)) /\
     (Star.state s = NEBULA ->
      (fst (base_pixel s d g) = "."%char <->
       d <= Star.explosion_radius s /\ Z.rem (rand g) 12 = 0%Z)) /\
     (forall pixel : ascii,
        core_pixel s d pixel = "O"%char <->
        d <= Star.core_radius s \/ pixel = "O"%char)).
Proof.
  intros Hk.
  assert (Hform : forall y x : Z,
     cell_distance y x =
     sqrt ((IZR x - 45) * (IZR x - 45)
           + (IZR y - 16) * 1.5 * ((IZR y - 16) * 1.5))).
  { intros y x. unfold cell_distance, WIDTH, HEIGHT. f_equal. lra. }
  split; [| split; [| split; [exact Hform |]]].
  - rewrite !Hform, !plus_IZR.
    apply (IZR_lt 0) in Hk.
    apply sqrt_lt_1; nra.
  - apply cell_distance_centre.
  - intros s y x g d. split; [apply pixel_at_layers |].
    destruct (base_pixel_tests s d g) as (H1 & H2 & H3 & H4 & H5).
    split; [exact H1 |]. split; [exact H2 |]. split; [exact H3 |].
    split; [exact H4 |]. split; [exact H5 |].
    intros pixel. unfold core_pixel.
    destruct (d <=? Star.core_radius s) eqn:E;
      [apply Rleb_le in E | apply Rleb_gt in E].
    + tauto.
    + split; [auto |]. intros [Hd | Hp]; [lra | exact Hp].
Qed.

End Layers.

(** The cell two columns to the right of the centre of the exploding star
    lies within the core radius and within the band of the shock, and live
    particles sit on it: the character written for it is the ejecta
    symbol. *)
Lemma render_priority_witness :
  (16 < 32)%nat /\ (47 < 90)%nat /\
  cell_distance 16 47 <= Star.core_radius star_exploding /\
  Star.state star_exploding = EXPLOSION /\
  Star.explosion_radius star_exploding - 1.6 <= cell_distance 16 47
    <= Star.explosion_radius star_exploding /\
  particle_on star_exploding 16 47 /\
  fst (@draw_star libc_sample star_exploding O) !! cell_index 16 47
  = Some "+"%char.
Proof.
  assert (H1 : (16 < 32)%nat) by lia.
  assert (H2 : (47 < 90)%nat) by lia.
  assert (Hd : cell_distance 16 47 = 2).
  { unfold cell_distance, WIDTH, HEIGHT.
    replace ((47 - 90 / 2.0) * (47 - 90 / 2.0)
             + (16 - 32 / 2.0) * 1.5 * ((16 - 32 / 2.0) * 1.5))
      with (2 * 2) by lra.
    apply sqrt_square. lra. }
  assert (Hon : particle_on star_exploding 16 47).
  { exists 1%nat, particle_sample. split; [| split; [| split; [| split]]].
    - reflexivity.
    - reflexivity.
    - apply Ztrunc_nonneg; unfold particle_sample; cbn [Particle.x]; lra.
    - apply Ztrunc_nonneg; unfold particle_sample; cbn [Particle.y]; lra.
    - unfold particle_sample. cbn [Particle.life]. lra. }
  split; [exact H1 |]. split; [exact H2 |].
  split; [| split; [reflexivity | split]];
    try (rewrite Hd; unfold star_exploding;
         cbn [Star.core_radius Star.explosion_radius]; lra).
  split; [exact Hon |].
  destruct (@render_priority libc_sample star_exploding O 16 47 H1 H2)
    as (g' & Hcell & Hpart & _).
  rewrite Hcell. f_equal. apply Hpart. exact Hon.
Defined.

Lemma distance_anisotropy_witness :
  (0 < 3)%Z /\ cell_distance 16 (45 + 3) < cell_distance (16 + 3) 45.
Proof.
  assert (H : (0 < 3)%Z) by lia.
  split; [exact H |].
  exact (proj1 (@distance_anisotropy libc_sample 3 H)).
Defined.

(** ** Collapse and the closure of the cycle *)

Section Cycle.

Context {L : Libc}.

(** With positive increments the contraction speed of a collapsing star
    is never negative: the collapse is entered with speed 0. *)
Lemma collapse_velocity_nonneg (density0 : R) (particles0 : list Particle.t)
    (w : Star.t * nat) :
  reachable_by (Rlt 0) density0 particles0 w ->
  Star.state (fst w) = COLLAPSE -> 0 <= Star.velocity (fst w).
Proof.
  intros H. induction H as [| s g dt Hdt H IH | s g H IH].
  - discriminate.
  - cbn [fst] in IH. revert IH.
    step_cases s dt g; intros IH Hs;
      unfold GIANT, COLLAPSE, BOUNCE, EXPLOSION, NEBULA in *;
      try lra; try congruence; try lia.
    specialize (IH Hst). lra.
  - exact IH.
Qed.

Lemma stages_seq (n : nat) (w : Star.t * nat) :
  stages n w =
  map (fun i => Star.state (fst (Nat.iter i tick w))) (seq 0 (S n)).
Proof.
  revert w. induction n as [|n IH]; intros w; [reflexivity |].
  change (stages (S n) w) with (Star.state (fst w) :: stages n (tick w)).
  rewrite IH.
  change (seq 0 (S (S n))) with (0%nat :: seq 1 (S n)).
  rewrite <- seq_shift, map_cons, map_map.
  f_equal. apply map_ext. intros i. now rewrite iter_tick_succ.
Qed.

(** C9.  From the initial star some number [n > 0] of ticks of the
    driver ([dt = 1/30]) leads to a Giant state with [radius = 9] and
    [time = 0], and the stages of the states visited on the way are, in
    this order, Giant, Collapse, Bounce, Explosion, Nebula, Giant.  No call
    of [update_star] can take another transition: the stage after a call
    is the stage before it or its successor in the cycle. *)
Theorem cycle_closure (density0 : R) (particles0 : list Particle.t) :
  (exists n : nat,
     (0 < n)%nat /\
     let s := fst (main_loop density0 particles0 n) in
     Star.state s = GIANT /\ Star.radius s = 9 /\ Star.time s = 0 /\
     compress
       (map (fun i => Star.state (fst (main_loop density0 particles0 i)))
          (seq 0 (S n)))
     = [GIANT; COLLAPSE; BOUNCE; EXPLOSION; NEBULA; GIANT]) /\
  (forall (s : Star.t) (dt : R) (g : nat),
     Star.state (fst (update_star s dt g)) = Star.state s \/
     Star.state (fst (update_star s dt g)) = next_stage (Star.state s)) /\
  next_stage GIANT = COLLAPSE /\ next_stage COLLAPSE = BOUNCE /\
  next_stage BOUNCE = EXPLOSION /\ next_stage EXPLOSION = NEBULA /\
  next_stage NEBULA = GIANT.
Proof.
  split; [| split; [apply update_star_order | repeat split]].
  destruct (first_cycle density0 particles0)
    as (m & _ & (Hg & Ht & Hrad & _) & Hst).
  exists (S m). split; [lia |]. cbv zeta.
  split; [exact Hg |]. split; [exact Hrad |]. split; [exact Ht |].
  rewrite <- Hst, stages_seq. reflexivity.
Qed.

End Cycle.

(** * Further properties of the code *)

(** ** clamp *)

(** X1.  With ordered bounds [clamp] returns a value between them, returns
    its argument when that already lies between them, and clamping twice
    is clamping once. *)
Theorem clamp_range (v a b : R) :
  a <= b ->
  a <= clamp v a b <= b /\
  (a <= v <= b -> clamp v a b = v) /\
  (v < a -> clamp v a b = a) /\
  (b < v -> clamp v a b = b) /\
  clamp (clamp v a b) a b = clamp v a b.
Proof.
  intros Hab.
  assert (Hcases : (v < a /\ clamp v a b = a) \/
                   (b < v /\ clamp v a b = b) \/
                   (a <= v <= b /\ clamp v a b = v)).
  { unfold clamp.
    destruct (v <? a) eqn:E1; [apply Rltb_lt in E1 | apply Rltb_ge in E1];
      [now left |].
    destruct (v >? b) eqn:E2; [apply Rltb_lt in E2 | apply Rltb_ge in E2];
      [right; now left | right; right; split; [lra | reflexivity]]. }
  assert (Hid : forall u, a <= u <= b -> clamp u a b = u).
  { intros u [Hu1 Hu2]. unfold clamp.
    apply Rltb_ge in Hu1. rewrite Hu1.
    apply Rltb_ge in Hu2. now rewrite Hu2. }
  destruct Hcases as [[H1 E] | [[H1 E] | [H1 E]]];
    (split; [rewrite E; lra |]);
    (split; [exact (Hid v) |]);
    (split; [intros; lra || exact E |]);
    (split; [intros; lra || exact E |]);
    rewrite E; apply Hid; lra.
Qed.

Lemma clamp_range_witness :
  0 <= 1 /\ 0 <= clamp 5 0 1 <= 1 /\ clamp 5 0 1 = 1.
Proof.
  assert (H : 0 <= 1) by lra.
  destruct (clamp_range 5 0 1 H) as (Hr & _ & _ & Hb & _).
  split; [exact H |]. split; [exact Hr |]. apply Hb. lra.
Defined.

(** X2.  With the bounds in the wrong order ([b < a]) [clamp] never
    returns its argument unless it is one of the bounds: below [a] it
    returns [a], from [a] on it returns [b]. *)
Theorem clamp_inverted (v a b : R) :
  b < a ->
  (v < a -> clamp v a b = a) /\
  (a <= v -> clamp v a b = b) /\
  (clamp v a b = a \/ clamp v a b = b).
Proof.
  intros Hba. unfold clamp.
  destruct (v <? a) eqn:E1; [apply Rltb_lt in E1 | apply Rltb_ge in E1].
  - repeat split; auto. intros. lra.
  - assert (E2 : (v >? b) = true) by (apply Rltb_lt; lra).
    rewrite E2. repeat split; auto. intros. lra.
Qed.

Lemma clamp_inverted_witness :
  1 < 2 /\ clamp 0 2 1 = 2 /\ clamp 3 2 1 = 1.
Proof.
  assert (H : 1 < 2) by lra.
  split; [exact H |]. split.
  - apply (proj1 (clamp_inverted 0 2 1 H)). lra.
  - apply (proj1 (proj2 (clamp_inverted 3 2 1 H))). lra.
Defined.

(** The case analysis of [step_cases] for goals that look at the
    particles or at the generator: the result of [spawn_particles] is
    replaced by a variable [sp] of which the index-by-index facts are
    kept. *)
Ltac step_cases_sp s dt g :=
  let Hst := fresh "Hst" in
  let Hc := fresh "Hcond" in
  destruct (Z.eq_dec (Star.state s) GIANT) as [Hst|];
  [ destruct (Rlt_le_dec 5 (Star.time s + dt)) as [Hc|Hc];
    [ rewrite (update_star_giant_leave s dt g Hst Hc)
    | rewrite (update_star_giant_stay s dt g Hst Hc) ]
  | destruct (Z.eq_dec (Star.state s) COLLAPSE) as [Hst|];
    [ destruct (Rlt_le_dec
        (Star.radius s - (Star.velocity s + 40 * dt) * dt) 3) as [Hc|Hc];
      [ rewrite (update_star_collapse_leave s dt g Hst Hc)
      | rewrite (update_star_collapse_stay s dt g Hst Hc) ]
    | destruct (Z.eq_dec (Star.state s) BOUNCE) as [Hst|];
      [ destruct (Rlt_le_dec 0.8 (Star.time s + dt)) as [Hc|Hc];
        [ rewrite (update_star_bounce_leave s dt g Hst Hc);
          match goal with
          | |- context [spawn_particles ?X g] =>
              let sp := fresh "sp" in
              let Hsp := fresh "Hsp" in
              pose proof (spawn_particles_spec X g) as Hsp;
              cbv zeta in Hsp;
              revert Hsp;
              generalize (spawn_particles X g);
              intros sp Hsp;
              let Hf := fresh "Hframe" in
              destruct Hsp as (Hf & Hsp);
              rewrite Hf
          end
        | rewrite (update_star_bounce_stay s dt g Hst Hc) ]
      | destruct (Z.eq_dec (Star.state s) EXPLOSION) as [Hst|];
        [ destruct (Rlt_le_dec 32 (Star.explosion_radius s + 30 * dt))
            as [Hc|Hc];
          [ rewrite (update_star_explosion_leave s dt g Hst Hc);
            rewrite update_particles_frame
          | rewrite (update_star_explosion_stay s dt g Hst Hc);
            rewrite update_particles_frame ]
        | destruct (Z.eq_dec (Star.state s) NEBULA) as [Hst|];
          [ destruct (Rlt_le_dec 42 (Star.explosion_radius s + 6 * dt))
              as [Hc|Hc];
            [ rewrite (update_star_nebula_leave s dt g Hst Hc);
              rewrite update_particles_frame
            | rewrite (update_star_nebula_stay s dt g Hst Hc);
              rewrite update_particles_frame ]
          | rewrite (update_star_other s dt g)
              by (unfold GIANT, COLLAPSE, BOUNCE, EXPLOSION, NEBULA in *;
                  lia) ] ] ] ] ];
  cbn [fst snd Star.radius Star.core_radius Star.explosion_radius
       Star.velocity Star.time Star.density Star.state Star.particles
       Star.particle_count set_radius set_core_radius set_explosion_radius
       set_velocity set_time set_state set_particles set_particle_count]
    in *.

(** ** update_star: the clock, the generator, the array *)

Section Clock.

Context {L : Libc}.


(** [spawn_particles] calls [rand()] 1350 times and keeps the length of
    the array. *)
Lemma spawn_particles_rand (s : Star.t) (g : nat) :
  snd (spawn_particles s g) = (g + 1350)%nat /\
  length (Star.particles (fst (spawn_particles s g)))
  = length (Star.particles s).
Proof.
  destruct (spawn_particles_spec s g) as (_ & Hg & Hlen & _).
  split; [| exact Hlen].
  rewrite Hg. change (Z.to_nat MAX_PARTICLES) with 450%nat. lia.
Qed.

Lemma update_star_rest_rand (s : Star.t) (dt : R) (g : nat) :
  Star.state s <> BOUNCE ->
  snd (update_star s dt g) = g /\
  length (Star.particles (fst (update_star s dt g)))
  = length (Star.particles s).
Proof.
  intros Hb.
  step_cases_sp s dt g; try (destruct (Hb Hst)); (split; [reflexivity |]);
    try match goal with
        | |- context [update_particles ?X dt] =>
            destruct (update_particles_spec X dt) as (_ & Hlen & _);
            rewrite Hlen
        end;
    reflexivity.
Qed.

(** X4.  [update_star] calls [rand()] only in the Bounce-to-Explosion
    transition, and then exactly 1350 times (three calls for each of the
    450 particles); it never changes the length of the particle array. *)
Theorem update_star_rand (s : Star.t) (dt : R) (g : nat) :
  let w := update_star s dt g in
  (Star.state s = BOUNCE -> Star.state (fst w) = EXPLOSION ->
   snd w = (g + 1350)%nat) /\
  (~ (Star.state s = BOUNCE /\ Star.state (fst w) = EXPLOSION) ->
   snd w = g) /\
  length (Star.particles (fst w)) = length (Star.particles s).
Proof.
  cbv zeta.
  destruct (Z.eq_dec (Star.state s) BOUNCE) as [Hb | Hb].
  - destruct (Rlt_le_dec 0.8 (Star.time s + dt)) as [Hc | Hc].
    + rewrite (update_star_bounce_leave s dt g Hb Hc).
      match goal with
      | |- context [spawn_particles ?X g] =>
          destruct (spawn_particles_rand X g) as (Hg & Hlen);
          pose proof (spawn_particles_frame X g) as Hf
      end.
      rewrite Hg, Hlen.
      split; [reflexivity |]. split; [| reflexivity].
      intros Hno. exfalso. apply Hno. split; [exact Hb |].
      rewrite Hf. reflexivity.
    + rewrite (update_star_bounce_stay s dt g Hb Hc). cbn [fst snd].
      split; [| split; reflexivity].
      cbn [Star.state set_radius set_time]. intros _ He.
      rewrite Hb in He. discriminate He.
  - destruct (update_star_rest_rand s dt g Hb) as (Hs & Hl).
    split; [intros H; destruct (Hb H) |].
    split; [intros _; exact Hs | exact Hl].
Qed.

End Clock.

Lemma update_star_rand_witness :
  let s := Star.mk 2.9 2 0 30 0.79 0 BOUNCE particles_sample 0 in
  let w := @update_star libc_sample s dt_main 5 in
  Star.state s = BOUNCE /\ Star.state (fst w) = EXPLOSION /\
  snd w = 1355%nat.
Proof.
  set (s := Star.mk 2.9 2 0 30 0.79 0 BOUNCE particles_sample 0).
  assert (Hs : Star.state s = BOUNCE) by reflexivity.
  assert (He : Star.state (fst (@update_star libc_sample s dt_main 5))
               = EXPLOSION).
  { rewrite update_star_bounce_leave
      by (try reflexivity; unfold dt_main, FPS; simpl; lra).
    rewrite spawn_particles_frame. reflexivity. }
  cbv zeta. split; [exact Hs |]. split; [exact He |].
  exact (proj1 (@update_star_rand libc_sample s dt_main 5) Hs He).
Defined.

Section Stray.

Context {L : Libc}.



End Stray.


Section Envelope.

Context {L : Libc}.

(** The envelope of a reachable star, with increments that are not
    negative: a giant pulses between 7.5 and 10.5, and the collapse only
    shrinks it. *)
Lemma envelope_inv (density0 : R) (particles0 : list Particle.t)
    (w : Star.t * nat) :
  reachable_by (Rle 0) density0 particles0 w ->
  (Star.state (fst w) = GIANT -> 7.5 <= Star.radius (fst w) <= 10.5) /\
  (Star.state (fst w) = COLLAPSE ->
   0 <= Star.velocity (fst w) /\ Star.radius (fst w) <= 10.5).
Proof.
  intros H. induction H as [| s g dt Hdt H IH | s g H IH].
  - cbn. split; [intros _; lra | discriminate].
  - cbn [fst] in IH. destruct IH as (IHg & IHc). revert IHg IHc.
    step_cases s dt g; intros IHg IHc;
      unfold GIANT, COLLAPSE, BOUNCE, EXPLOSION, NEBULA in *;
      (split; intros Hs'; try congruence; try lia).
    all: try (pose proof (SIN_bound ((Star.time s + dt) * 3)); lra).
    all: try (specialize (IHc Hst); split; nra).
    all: lra.
  - exact IH.
Qed.

(** X6.  In every state that calls of [update_star] with increments
    [dt >= 0] reach from the initial star, a star in stage Giant has its
    radius between 7.5 and 10.5, and a star in stage Collapse has a
    contraction speed that is not negative and a radius of at most
    10.5. *)
Theorem envelope_bounds (density0 : R) (particles0 : list Particle.t)
    (s : Star.t) (g : nat) :
  reachable_by (Rle 0) density0 particles0 (s, g) ->
  (Star.state s = GIANT -> 7.5 <= Star.radius s <= 10.5) /\
  (Star.state s = COLLAPSE -> 0 <= Star.velocity s /\ Star.radius s <= 10.5).
Proof. intros H. exact (envelope_inv _ _ _ H). Qed.

End Envelope.

Lemma envelope_bounds_witness :
  let w := @update_star libc_sample (star_init 0 particles_sample) 2 O in
  @reachable_by libc_sample (Rle 0) 0 particles_sample (fst w, snd w) /\
  Star.state (fst w) = GIANT /\
  7.5 <= Star.radius (fst w) <= 10.5.
Proof.
  set (w := @update_star libc_sample (star_init 0 particles_sample) 2 O).
  assert (Hr : @reachable_by libc_sample (Rle 0) 0 particles_sample
                 (fst w, snd w)).
  { rewrite <- surjective_pairing. unfold w.
    apply reachable_update; [lra | apply reachable_init]. }
  assert (Hs : Star.state (fst w) = GIANT).
  { unfold w.
    rewrite update_star_giant_stay by (try reflexivity; simpl; lra).
    reflexivity. }
  cbv zeta. split; [exact Hr |]. split; [exact Hs |].
  exact (proj1 (@envelope_bounds libc_sample 0 particles_sample
                  (fst w) (snd w) Hr) Hs).
Defined.

(** ** draw_star: the frame as a whole *)

Section Frame.

Context {L : Libc}.

Ltac frame_arith :=
  unfold cell_index in *;
  change (Z.to_nat WIDTH) with 90%nat in *;
  change (length clear) with 6%nat in *;
  cbn [length] in *; lia.

Lemma base_pixel_rand (s : Star.t) (d : R) (g : nat) :
  (snd (base_pixel s d g) = g \/ snd (base_pixel s d g) = S g) /\
  (Star.state s <> NEBULA -> snd (base_pixel s d g) = g).
Proof.
  unfold base_pixel.
  destruct (Z.eqb_spec (Star.state s) GIANT); [cbn [snd]; auto |].
  destruct (Z.eqb_spec (Star.state s) COLLAPSE); [cbn [snd]; auto |].
  destruct (Z.eqb_spec (Star.state s) BOUNCE); [cbn [snd]; auto |].
  destruct (Z.eqb_spec (Star.state s) EXPLOSION); [cbn [snd]; auto |].
  destruct (Z.eqb_spec (Star.state s) NEBULA) as [Hn | Hn]; [| cbn [snd]; auto].
  destruct (d <=? Star.explosion_radius s); cbn [snd];
    (split; [auto | intros H; destruct (H Hn)]).
Qed.

Lemma pixel_at_rand (s : Star.t) (y x : Z) (g : nat) :
  (g <= snd (pixel_at s y x g) <= S g)%nat /\
  (Star.state s <> NEBULA -> snd (pixel_at s y x g) = g).
Proof.
  rewrite pixel_at_layers. cbn [snd].
  destruct (base_pixel_rand s (cell_distance y x) g) as (Hor & Hn).
  split; [destruct Hor as [H | H]; rewrite H; lia | exact Hn].
Qed.

(** The particle layer writes the ejecta symbol exactly when a live
    particle sits on the cell. *)
Lemma pixel_at_ejecta (s : Star.t) (y x : Z) (g : nat) :
  fst (pixel_at s y x g) = "+"%char <-> particle_on s y x.
Proof.
  split; [| intros H; rewrite pixel_at_layers; now apply particle_pixel_hit].
  intros Hp.
  destruct (Classical_Prop.classic (particle_on s y x)) as [Hon | Hno];
    [exact Hon | exfalso].
  rewrite pixel_at_layers in Hp. cbn [fst] in Hp.
  rewrite particle_pixel_miss in Hp by exact Hno.
  unfold core_pixel in Hp.
  destruct (_ <=? _); [discriminate Hp |].
  pose proof (base_pixel_symbols s (cell_distance y x) g) as H.
  rewrite Hp, !elem_of_cons, elem_of_nil in H.
  repeat destruct H as [H | H]; try discriminate H; exact H.
Qed.

Lemma pixel_at_symbol (s : Star.t) (y x : Z) (g : nat) :
  fst (pixel_at s y x g) ∈ symbols.
Proof.
  destruct (Classical_Prop.classic (particle_on s y x)) as [Hon | Hno].
  - apply (proj2 (pixel_at_ejecta s y x g)) in Hon. rewrite Hon.
    unfold symbols. rewrite !elem_of_cons. auto 10.
  - rewrite pixel_at_layers. cbn [fst].
    rewrite particle_pixel_miss by exact Hno.
    unfold core_pixel, symbols.
    destruct (_ <=? _); [rewrite !elem_of_cons; auto 10 |].
    pose proof (base_pixel_symbols s (cell_distance y x) g) as H.
    rewrite !elem_of_cons, elem_of_nil in H.
    rewrite !elem_of_cons. tauto.
Qed.

(** The frame, line by line: its length, the escape sequences at its
    head, the line breaks, and the calls of [rand()] made for it. *)
Lemma draw_star_shape (s : Star.t) (g : nat) :
  let w := draw_star s g in
  length (fst w) = cell_index 32 0 /\
  (forall i : nat, (i < length clear)%nat -> fst w !! i = clear !! i) /\
  (forall y : nat, (y < 32)%nat ->
     fst w !! cell_index y 90 = Some newline) /\
  (g <= snd w <= g + 32 * 90)%nat /\
  (Star.state s <> NEBULA -> snd w = g).
Proof.
  unfold draw_star, for_upto.
  change (Z.to_nat HEIGHT) with 32%nat.
  apply (for_upto_nat_inv
    (fun yj (w : list ascii * nat) =>
       length (fst w) = cell_index yj 0 /\
       (forall i : nat, (i < length clear)%nat -> fst w !! i = clear !! i) /\
       (forall y : nat, (y < yj)%nat ->
          fst w !! cell_index y 90 = Some newline) /\
       (g <= snd w <= g + yj * 90)%nat /\
       (Star.state s <> NEBULA -> snd w = g))).
  - cbn [fst snd]. split; [reflexivity |]. split; [reflexivity |].
    split; [intros y Hy; lia |]. split; [lia | reflexivity].
  - intros yj [out gy] _ (Hlen & Hclr & Hnl & Hg & Hneb). cbn [fst snd] in *.
    assert (Hrow :
      let w := for_loop 0 (Z.to_nat WIDTH)
         (fun (x : nat) '(out, g) =>
            let '(pixel, g0) := pixel_at s (Z.of_nat yj) (Z.of_nat x) g in
            (out ++ [pixel], g0)) (out, gy) in
      length (fst w) = cell_index yj (Z.to_nat WIDTH) /\
      (forall i : nat, (i < length out)%nat -> fst w !! i = out !! i) /\
      (gy <= snd w <= gy + Z.to_nat WIDTH)%nat /\
      (Star.state s <> NEBULA -> snd w = gy)).
    { apply (for_upto_nat_inv
        (fun xj (w : list ascii * nat) =>
           length (fst w) = cell_index yj xj /\
           (forall i : nat, (i < length out)%nat -> fst w !! i = out !! i) /\
           (gy <= snd w <= gy + xj)%nat /\
           (Star.state s <> NEBULA -> snd w = gy))).
      - cbn [fst snd]. split; [exact Hlen |]. split; [reflexivity |].
        split; [lia | reflexivity].
      - intros xj [o gx] _ (Hl & Hpre & Hgx & Hnx). cbn [fst snd] in *.
        pose proof (pixel_at_rand s (Z.of_nat yj) (Z.of_nat xj) gx)
          as (Hr1 & Hr2).
        destruct (pixel_at s (Z.of_nat yj) (Z.of_nat xj) gx) as [c g'].
        cbn [fst snd] in *. split; [| split; [| split]].
        + rewrite length_app, Hl. frame_arith.
        + intros i Hi. rewrite lookup_app_l; [now apply Hpre |].
          rewrite Hl, Hlen in *. frame_arith.
        + lia.
        + intros Hs. rewrite (Hr2 Hs). now apply Hnx. }
    destruct (for_loop 0 (Z.to_nat WIDTH) _ (out, gy)) as [o g'].
    cbn [fst snd] in *. destruct Hrow as (Hl & Hpre & Hgr & Hnr).
    change (Z.to_nat WIDTH) with 90%nat in *.
    split; [| split; [| split; [| split]]].
    + rewrite length_app, Hl. frame_arith.
    + intros i Hi. rewrite lookup_app_l by (rewrite Hl; frame_arith).
      rewrite Hpre by (rewrite Hlen; frame_arith). now apply Hclr.
    + intros y Hy. destruct (Nat.eq_dec y yj) as [-> | Hne].
      * rewrite lookup_app_r by lia. now rewrite Hl, Nat.sub_diag.
      * assert (Hy' : (y < yj)%nat) by lia.
        rewrite lookup_app_l by (rewrite Hl; frame_arith).
        rewrite Hpre by (rewrite Hlen; frame_arith). now apply Hnl.
    + lia.
    + intros Hs. rewrite (Hnr Hs). now apply Hneb.
Qed.

(** X7.  Every frame that [draw_star] writes has the same layout: 2918
    characters, the six characters of the two escape sequences of
    [clear()] first, then 32 lines of 90 cells, each line closed by a line
    break. *)
Theorem draw_star_layout (s : Star.t) (g : nat) :
  length (fst (draw_star s g)) = 2918%nat /\
  take 6 (fst (draw_star s g)) = clear /\
  (forall y : nat, (y < 32)%nat ->
     fst (draw_star s g) !! (6 + 91 * y + 90)%nat = Some newline) /\
  (forall y x : nat, (y < 32)%nat -> (x < 90)%nat ->
     exists c : ascii,
       fst (draw_star s g) !! (6 + 91 * y + x)%nat = Some c /\
       c <> newline).
Proof.
  destruct (draw_star_shape s g) as (Hlen & Hclr & Hnl & _).
  split; [exact Hlen |]. split; [| split].
  - apply list_eq. intros i.
    destruct (Nat.lt_ge_cases i 6) as [Hi | Hi].
    + rewrite lookup_take_lt by exact Hi. apply Hclr. exact Hi.
    + rewrite lookup_take_ge by exact Hi.
      symmetry. apply lookup_ge_None. exact Hi.
  - intros y Hy. rewrite <- (Hnl y Hy). f_equal. frame_arith.
  - intros y x Hy Hx.
    destruct (draw_star_cell s g y x) as (g' & Hc); [exact Hy | exact Hx |].
    exists (fst (pixel_at s (Z.of_nat y) (Z.of_nat x) g')). split.
    + rewrite <- Hc. f_equal. frame_arith.
    + pose proof (pixel_at_symbol s (Z.of_nat y) (Z.of_nat x) g') as Hs.
      intros E. rewrite E in Hs. unfold symbols in Hs.
      rewrite !elem_of_cons, elem_of_nil in Hs.
      repeat destruct Hs as [Hs | Hs]; try discriminate Hs; exact Hs.
Qed.

(** X8.  The character written for a cell of the grid is always one of
    the seven symbols; it is the ejecta symbol exactly when a live
    particle (below the count, lifetime > 0) truncates to the cell, and
    the remnant symbol exactly when no such particle does and the cell is
    within [core_radius]. *)
Theorem draw_star_cell_symbol (s : Star.t) (g : nat) (y x : nat) :
  (y < 32)%nat -> (x < 90)%nat ->
  exists c : ascii,
    fst (draw_star s g) !! cell_index y x = Some c /\
    c ∈ symbols /\
    (c = "+"%char <-> particle_on s (Z.of_nat y) (Z.of_nat x)) /\
    (c = "O"%char <->
     ~ particle_on s (Z.of_nat y) (Z.of_nat x) /\
     cell_distance (Z.of_nat y) (Z.of_nat x) <= Star.core_radius s).
Proof.
  intros Hy Hx.
  destruct (draw_star_cell s g y x) as (g' & Hc); [exact Hy | exact Hx |].
  exists (fst (pixel_at s (Z.of_nat y) (Z.of_nat x) g')).
  split; [exact Hc |]. split; [apply pixel_at_symbol |].
  split; [apply pixel_at_ejecta |].
  split.
  - intros HO.
    assert (Hno : ~ particle_on s (Z.of_nat y) (Z.of_nat x)).
    { intros Hon.
      apply (proj2 (pixel_at_ejecta s (Z.of_nat y) (Z.of_nat x) g')) in Hon.
      rewrite Hon in HO. discriminate HO. }
    split; [exact Hno |].
    rewrite pixel_at_layers in HO. cbn [fst] in HO.
    rewrite particle_pixel_miss in HO by exact Hno.
    unfold core_pixel in HO.
    destruct (_ <=? _) eqn:E; [now apply Rleb_le in E |].
    pose proof (base_pixel_symbols s
                  (cell_distance (Z.of_nat y) (Z.of_nat x)) g') as H.
    rewrite HO, !elem_of_cons, elem_of_nil in H.
    repeat destruct H as [H | H]; try discriminate H; destruct H.
  - intros (Hno & Hd).
    rewrite pixel_at_layers. cbn [fst].
    rewrite particle_pixel_miss by exact Hno.
    unfold core_pixel. apply Rleb_le in Hd. now rewrite Hd.
Qed.

(** X9.  [draw_star] calls [rand()] only for a star in stage Nebula; for
    any star it makes at most one call for each of the 2880 cells. *)
Theorem draw_star_rand (s : Star.t) (g : nat) :
  (g <= snd (draw_star s g) <= g + 2880)%nat /\
  (Star.state s <> NEBULA -> snd (draw_star s g) = g).
Proof.
  destruct (draw_star_shape s g) as (_ & _ & _ & Hg & Hn).
  split; [| exact Hn]. lia.
Qed.

End Frame.

Lemma draw_star_cell_symbol_witness :
  (16 < 32)%nat /\ (47 < 90)%nat /\
  exists c : ascii,
    fst (@draw_star libc_sample star_exploding O) !! cell_index 16 47
    = Some c /\ c ∈ symbols.
Proof.
  assert (H1 : (16 < 32)%nat) by lia.
  assert (H2 : (47 < 90)%nat) by lia.
  split; [exact H1 |]. split; [exact H2 |].
  destruct (@draw_star_cell_symbol libc_sample star_exploding O 16 47 H1 H2)
    as (c & Hc & Hs & _).
  exists c. split; [exact Hc | exact Hs].
Defined.

(** ** No stage lasts for ever *)

Lemma nat_above (r : R) : exists N : nat, r < INR N.
Proof.
  destruct (archimed r) as [Hup _].
  exists (Z.to_nat (up r)). rewrite INR_IZR_INZ.
  destruct (Z_lt_le_dec (up r) 0) as [Hneg | Hpos].
  - apply IZR_lt in Hneg.
    assert (H0 : 0 <= IZR (Z.of_nat (Z.to_nat (up r))))
      by (apply (IZR_le 0); lia).
    lra.
  - rewrite Z2Nat.id by exact Hpos. lra.
Qed.

Section Liveness.

Context {L : Libc}.

(** A stage in which every call that stays adds at least [delta > 0] to a
    quantity [m] that cannot pass [T] while the stage lasts is left after
    finitely many calls. *)
Lemma stage_exit_measure (dt : R) (ST : Z) (Inv : Star.t -> Prop)
    (m : Star.t -> R) (T delta : R) :
  0 < delta ->
  (forall s g, Star.state s = ST -> Inv s ->
     Star.state (fst (update_star s dt g)) = next_stage ST \/
     (Star.state (fst (update_star s dt g)) = ST /\
      Inv (fst (update_star s dt g)) /\
      m s + delta <= m (fst (update_star s dt g)) /\
      m (fst (update_star s dt g)) <= T)) ->
  forall (N : nat) (W : nat -> Star.t * nat),
    advances dt W ->
    Star.state (fst (W O)) = ST -> Inv (fst (W O)) ->
    T < m (fst (W O)) + INR (S N) * delta ->
    exists n : nat,
      Star.state (fst (W (S n))) = next_stage ST /\
      forall i : nat, (i <= n)%nat -> Star.state (fst (W i)) = ST.
Proof.
  intros Hd Hstep. induction N as [|N IH]; intros W HW Hst Hinv Hm.
  - destruct (Hstep _ (snd (W O)) Hst Hinv) as [Hl | (_ & _ & H1 & H2)].
    + exists O. rewrite HW. split; [exact Hl |].
      intros i Hi. now replace i with O by lia.
    + exfalso. simpl in Hm. lra.
  - destruct (Hstep _ (snd (W O)) Hst Hinv) as [Hl | (Hs & Hi & H1 & H2)].
    + exists O. rewrite HW. split; [exact Hl |].
      intros i Hi. now replace i with O by lia.
    + rewrite <- HW in Hs, Hi, H1, H2.
      destruct (IH (fun i => W (S i))) as (n & Hn & Hall).
      * intros i. apply HW.
      * exact Hs.
      * exact Hi.
      * rewrite S_INR in Hm. lra.
      * exists (S n). split; [exact Hn |].
        intros [|i] Hle; [exact Hst | apply Hall; lia].
Qed.

Lemma stage_exit_by (dt : R) (ST : Z) (Inv : Star.t -> Prop)
    (m : Star.t -> R) (T delta : R) (W : nat -> Star.t * nat) :
  0 < delta ->
  (forall s g, Star.state s = ST -> Inv s ->
     Star.state (fst (update_star s dt g)) = next_stage ST \/
     (Star.state (fst (update_star s dt g)) = ST /\
      Inv (fst (update_star s dt g)) /\
      m s + delta <= m (fst (update_star s dt g)) /\
      m (fst (update_star s dt g)) <= T)) ->
  advances dt W ->
  Star.state (fst (W O)) = ST -> Inv (fst (W O)) ->
  exists n : nat,
    Star.state (fst (W (S n))) = next_stage ST /\
    forall i : nat, (i <= n)%nat -> Star.state (fst (W i)) = ST.
Proof.
  intros Hd Hstep HW Hst Hinv.
  destruct (nat_above ((T - m (fst (W O))) / delta)) as (N & HN).
  apply (stage_exit_measure dt ST Inv m T delta Hd Hstep N W HW Hst Hinv).
  rewrite S_INR.
  assert (H : T - m (fst (W O)) < INR N * delta).
  { apply Rmult_lt_compat_r with (r := delta) in HN; [| exact Hd].
    unfold Rdiv in HN. rewrite Rmult_assoc, Rinv_l, Rmult_1_r in HN by lra.
    exact HN. }
  lra.
Qed.

(** In exact arithmetic, with a fixed increment [dt > 0], no stage lasts
    for ever: from a star in one of the five stages (with a contraction
    speed that is not negative, if it is collapsing) finitely many calls
    of [update_star] stay in the stage and the next call enters the stage
    that follows it in the cycle. *)
Lemma stage_exit (dt : R) (W : nat -> Star.t * nat) :
  0 < dt ->
  advances dt W ->
  (GIANT <= Star.state (fst (W O)) <= NEBULA)%Z ->
  (Star.state (fst (W O)) = COLLAPSE -> 0 <= Star.velocity (fst (W O))) ->
  exists n : nat,
    Star.state (fst (W (S n))) = next_stage (Star.state (fst (W O))) /\
    forall i : nat, (i <= n)%nat ->
      Star.state (fst (W i)) = Star.state (fst (W O)).
Proof.
  intros Hdt HW Hrange Hvel.
  assert (Hcases : Star.state (fst (W O)) = GIANT \/
                   Star.state (fst (W O)) = COLLAPSE \/
                   Star.state (fst (W O)) = BOUNCE \/
                   Star.state (fst (W O)) = EXPLOSION \/
                   Star.state (fst (W O)) = NEBULA)
    by (unfold GIANT, COLLAPSE, BOUNCE, EXPLOSION, NEBULA in *; lia).
  destruct Hcases as [Hs | [Hs | [Hs | [Hs | Hs]]]]; rewrite Hs.
  - apply (stage_exit_by dt GIANT (fun _ => True) Star.time 5 dt);
      auto.
    intros s g Hst _.
    destruct (Rlt_le_dec 5 (Star.time s + dt)) as [Hc | Hc].
    + left. now rewrite update_star_giant_leave.
    + right. rewrite update_star_giant_stay by assumption.
      cbn. repeat split; auto; lra.
  - apply (stage_exit_by dt COLLAPSE (fun s => 0 <= Star.velocity s)
             (fun s => - Star.radius s) (-3) (40 * dt * dt));
      auto; [nra |].
    intros s g Hst Hv.
    destruct (Rlt_le_dec
      (Star.radius s - (Star.velocity s + 40 * dt) * dt) 3) as [Hc | Hc].
    + left. now rewrite update_star_collapse_leave.
    + right. rewrite update_star_collapse_stay by assumption.
      cbn. repeat split; auto; nra.
  - apply (stage_exit_by dt BOUNCE (fun _ => True) Star.time 0.8 dt);
      auto.
    intros s g Hst _.
    destruct (Rlt_le_dec 0.8 (Star.time s + dt)) as [Hc | Hc].
    + left. rewrite update_star_bounce_leave by assumption.
      now rewrite spawn_particles_frame.
    + right. rewrite update_star_bounce_stay by assumption.
      cbn. repeat split; auto; lra.
  - apply (stage_exit_by dt EXPLOSION (fun _ => True)
             Star.explosion_radius 32 (30 * dt));
      auto; [lra |].
    intros s g Hst _.
    destruct (Rlt_le_dec 32 (Star.explosion_radius s + 30 * dt))
      as [Hc | Hc].
    + left. rewrite update_star_explosion_leave by assumption.
      now rewrite update_particles_frame.
    + right. rewrite update_star_explosion_stay by assumption.
      rewrite update_particles_frame.
      cbn. repeat split; auto; lra.
  - apply (stage_exit_by dt NEBULA (fun _ => True)
             Star.explosion_radius 42 (6 * dt));
      auto; [lra |].
    intros s g Hst _.
    destruct (Rlt_le_dec 42 (Star.explosion_radius s + 6 * dt))
      as [Hc | Hc].
    + left. rewrite update_star_nebula_leave by assumption.
      now rewrite update_particles_frame.
    + right. rewrite update_star_nebula_stay by assumption.
      rewrite update_particles_frame.
      cbn. repeat split; auto; lra.
Qed.

Lemma main_loop_advances (density0 : R) (particles0 : list Particle.t)
    (n : nat) :
  advances dt_main (fun i => main_loop density0 particles0 (n + i)).
Proof.
  intros i. cbv beta. rewrite Nat.add_succ_r.
  change (main_loop density0 particles0 (S (n + i)))
    with (tick (main_loop density0 particles0 (n + i))).
  apply tick_star.
Qed.

(** In the run of the program every state is followed, some ticks later,
    by a state in the next stage. *)
Lemma main_loop_next (density0 : R) (particles0 : list Particle.t)
    (n : nat) :
  exists m : nat, (n < m)%nat /\
    Star.state (fst (main_loop density0 particles0 m)) =
    next_stage (Star.state (fst (main_loop density0 particles0 n))).
Proof.
  pose proof (main_loop_reachable density0 particles0 n) as Hr.
  assert (Hdt : 0 < dt_main) by (unfold dt_main, FPS; lra).
  destruct (stage_exit dt_main
              (fun i => main_loop density0 particles0 (n + i)))
    as (k & Hk & _).
  - exact Hdt.
  - apply main_loop_advances.
  - cbv beta. rewrite Nat.add_0_r.
    apply (reachable_by_weaken _ (fun _ => True)) in Hr; [| trivial].
    exact (proj1 (reachable_star_inv _ _ _ Hr)).
  - cbv beta. rewrite Nat.add_0_r.
    apply (reachable_by_weaken _ (Rlt 0)) in Hr;
      [| intros dt <-; exact Hdt].
    exact (collapse_velocity_nonneg _ _ _ Hr).
  - cbv beta in Hk. rewrite Nat.add_0_r in Hk.
    exists (n + S k)%nat. split; [lia | exact Hk].
Qed.

(** X11.  The run of the program never settles: after every tick count
    [n], each of the five stages is reached again at some later tick. *)
Theorem stage_recurs (density0 : R) (particles0 : list Particle.t)
    (n : nat) (st : Z) :
  (GIANT <= st <= NEBULA)%Z ->
  exists m : nat, (n < m)%nat /\
    Star.state (fst (main_loop density0 particles0 m)) = st.
Proof.
  intros Hst.
  destruct (main_loop_next density0 particles0 n) as (m1 & L1 & H1).
  destruct (main_loop_next density0 particles0 m1) as (m2 & L2 & H2).
  destruct (main_loop_next density0 particles0 m2) as (m3 & L3 & H3).
  destruct (main_loop_next density0 particles0 m3) as (m4 & L4 & H4).
  destruct (main_loop_next density0 particles0 m4) as (m5 & L5 & H5).
  pose proof (main_loop_reachable density0 particles0 n) as Hr.
  apply (reachable_by_weaken _ (fun _ => True)) in Hr; [| trivial].
  pose proof (proj1 (reachable_star_inv _ _ _ Hr)) as Hrange.
  clear Hr. revert H1 Hrange.
  generalize (Star.state (fst (main_loop density0 particles0 n))).
  intros s0 H1 Hrange.
  assert (Hs : (s0 = 0 \/ s0 = 1 \/ s0 = 2 \/ s0 = 3 \/ s0 = 4)%Z)
    by (unfold GIANT, NEBULA in Hrange; lia).
  assert (Ht : (st = 0 \/ st = 1 \/ st = 2 \/ st = 3 \/ st = 4)%Z)
    by (unfold GIANT, NEBULA in Hst; lia).
  clear Hrange Hst.
  destruct Hs as [Hs | [Hs | [Hs | [Hs | Hs]]]]; subst s0;
    [ change (next_stage 0) with 1%Z in H1
    | change (next_stage 1) with 2%Z in H1
    | change (next_stage 2) with 3%Z in H1
    | change (next_stage 3) with 4%Z in H1
    | change (next_stage 4) with 0%Z in H1 ];
    rewrite H1 in H2;
    [ change (next_stage 1) with 2%Z in H2
    | change (next_stage 2) with 3%Z in H2
    | change (next_stage 3) with 4%Z in H2
    | change (next_stage 4) with 0%Z in H2
    | change (next_stage 0) with 1%Z in H2 ];
    rewrite H2 in H3;
    [ change (next_stage 2) with 3%Z in H3
    | change (next_stage 3) with 4%Z in H3
    | change (next_stage 4) with 0%Z in H3
    | change (next_stage 0) with 1%Z in H3
    | change (next_stage 1) with 2%Z in H3 ];
    rewrite H3 in H4;
    [ change (next_stage 3) with 4%Z in H4
    | change (next_stage 4) with 0%Z in H4
    | change (next_stage 0) with 1%Z in H4
    | change (next_stage 1) with 2%Z in H4
    | change (next_stage 2) with 3%Z in H4 ];
    rewrite H4 in H5;
    [ change (next_stage 4) with 0%Z in H5
    | change (next_stage 0) with 1%Z in H5
    | change (next_stage 1) with 2%Z in H5
    | change (next_stage 2) with 3%Z in H5
    | change (next_stage 3) with 4%Z in H5 ];
    destruct Ht as [Ht | [Ht | [Ht | [Ht | Ht]]]]; subst st;
    first [ exists m1; split; [lia | exact H1]
          | exists m2; split; [lia | exact H2]
          | exists m3; split; [lia | exact H3]
          | exists m4; split; [lia | exact H4]
          | exists m5; split; [lia | exact H5] ].
Qed.

End Liveness.

Lemma stage_recurs_witness :
  (GIANT <= EXPLOSION <= NEBULA)%Z /\
  exists m : nat, (1000 < m)%nat /\
    Star.state (fst (@main_loop libc_sample 0 particles_sample m))
    = EXPLOSION.
Proof.
  assert (H : (GIANT <= EXPLOSION <= NEBULA)%Z) by (split; discriminate).
  split; [exact H |].
  exact (@stage_recurs libc_sample 0 particles_sample 1000 EXPLOSION H).
Defined.

(** ** A new explosion *)

Section Ejecta.

Context {L : Libc} {HL : LibcSpec L}.

(** The array that [spawn_particles] leaves, in full. *)
Lemma spawn_particles_array (s : Star.t) (g : nat) :
  length (Star.particles s) = 450%nat ->
  Star.particles (fst (spawn_particles s g)) =
  (fun k : nat => spawned_particle (g + 3 * k)) <$> seq 0 450.
Proof.
  intros Hlen.
  destruct (spawn_particles_spec s g) as (_ & _ & Hl & Hk).
  revert Hl Hk. generalize (fst (spawn_particles s g)). intros sp Hl Hk.
  apply list_eq. intros k.
  destruct (Nat.lt_ge_cases k 450) as [Hlt | Hge].
  - rewrite Hk by (rewrite Hlen; exact Hlt).
    change (Z.to_nat MAX_PARTICLES) with 450%nat.
    destruct (Nat.ltb_spec k 450); [| lia].
    rewrite list_lookup_fmap, lookup_seq_lt by exact Hlt.
    reflexivity.
  - rewrite !lookup_ge_None_2; [reflexivity | |].
    + rewrite length_fmap, length_seq. exact Hge.
    + rewrite Hl, Hlen. exact Hge.
Qed.

(** X14.  [spawn_particles] rewrites the whole array of 450 particles:
    the [k]-th particle is made from the three values that [rand()]
    returns at its calls number [3k], [3k+1], [3k+2] after the start, and
    from nothing else.  So nothing of the old ejecta survives: the result
    is the same as if the previous explosion had not happened. *)
Theorem spawn_particles_overwrite (s : Star.t) (g g0 : nat) :
  length (Star.particles s) = 450%nat ->
  Star.particles (fst (spawn_particles s g)) =
    (fun k : nat => spawned_particle (g + 3 * k)) <$> seq 0 450 /\
  fst (spawn_particles (fst (spawn_particles s g0)) g) =
  fst (spawn_particles s g).
Proof.
  intros Hlen. split; [now apply spawn_particles_array |].
  pose proof (spawn_particles_array s g Hlen) as Ha.
  destruct (spawn_particles_spec s g) as (Hf & _).
  destruct (spawn_particles_spec s g0) as (Hf0 & _ & Hl0 & _).
  revert Ha Hf. generalize (fst (spawn_particles s g)). intros sp Ha Hf.
  assert (Hlen0 : length (Star.particles (fst (spawn_particles s g0)))
                  = 450%nat) by (rewrite Hl0; exact Hlen).
  pose proof (spawn_particles_array _ g Hlen0) as Hb.
  destruct (spawn_particles_spec (fst (spawn_particles s g0)) g) as (Hg & _).
  revert Hb Hg. generalize (fst (spawn_particles (fst (spawn_particles s g0)) g)).
  intros sq Hb Hg.
  revert Hf0 Hg. generalize (fst (spawn_particles s g0)). intros s0 Hf0 Hg.
  rewrite Hg, Hf, Hb, Ha, Hf0. reflexivity.
Qed.

(** Right after [spawn_particles] the live particles all sit on the
    centre cell. *)
Lemma spawn_particles_on (s : Star.t) (g : nat) (y x : Z) :
  length (Star.particles s) = 450%nat ->
  particle_on (fst (spawn_particles s g)) y x <-> y = 16%Z /\ x = 45%Z.
Proof.
  intros Hlen.
  pose proof (spawn_particles_array s g Hlen) as Ha.
  destruct (spawn_particles_spec s g) as (Hf & _).
  revert Ha Hf. generalize (fst (spawn_particles s g)). intros sp Ha Hf.
  assert (Hc : Star.particle_count sp = 450%Z) by (rewrite Hf; reflexivity).
  assert (Hx : forall k, Ztrunc (Particle.x (spawned_particle k)) = 45%Z).
  { intros k. cbn [spawned_particle Particle.x].
    replace (IZR WIDTH / 2.0) with (IZR 45) by (unfold WIDTH; lra).
    apply Ztrunc_IZR. }
  assert (Hy : forall k, Ztrunc (Particle.y (spawned_particle k)) = 16%Z).
  { intros k. cbn [spawned_particle Particle.y].
    replace (IZR HEIGHT / 2.0) with (IZR 16) by (unfold HEIGHT; lra).
    apply Ztrunc_IZR. }
  unfold particle_on. rewrite Ha. split.
  - intros (i & p & _ & Hp & Hpx & Hpy & _).
    apply list_lookup_fmap_Some in Hp. destruct Hp as (k & -> & _).
    rewrite Hx in Hpx. rewrite Hy in Hpy. now subst.
  - intros (-> & ->). exists O, (spawned_particle (g + 3 * 0)).
    split; [rewrite Hc; reflexivity |]. split; [reflexivity |].
    split; [apply Hx |]. split; [apply Hy |].
    cbn [spawned_particle Particle.life].
    pose proof (rand_ratio (S (S (g + 3 * 0)))) as Hr. nra.
Qed.

(** X15.  The frame of the Bounce-to-Explosion transition: of the 2880
    cells that [draw_star] writes for the star that [update_star] has just
    made explode, the centre cell (line 16, column 45) holds the ejecta
    symbol and no other cell does; all 450 particles are drawn there, on
    top of the core. *)
Theorem explosion_first_frame (s : Star.t) (dt : R) (g g' : nat)
    (y x : nat) :
  Star.state s = BOUNCE ->
  0.8 < Star.time s + dt ->
  length (Star.particles s) = 450%nat ->
  (y < 32)%nat -> (x < 90)%nat ->
  fst (draw_star (fst (update_star s dt g)) g') !! cell_index y x
    = Some "+"%char
  <-> y = 16%nat /\ x = 45%nat.
Proof using HL.
  intros Hst Ht Hlen Hy Hx.
  rewrite (update_star_bounce_leave s dt g Hst Ht).
  match goal with
  | |- context [spawn_particles ?X g] =>
      pose proof (spawn_particles_on X g (Z.of_nat y) (Z.of_nat x) Hlen)
        as Hon;
      revert Hon; generalize (fst (spawn_particles X g))
  end.
  intros sp Hon.
  destruct (draw_star_cell sp g' y x) as (g1 & Hcell);
    [exact Hy | exact Hx |].
  rewrite Hcell.
  split.
  - intros H. injection H as H.
    apply (proj1 (pixel_at_ejecta _ _ _ _)) in H.
    apply Hon in H. lia.
  - intros (-> & ->). f_equal.
    apply (proj2 (pixel_at_ejecta _ _ _ _)). apply Hon. split; reflexivity.
Qed.

End Ejecta.

Lemma spawn_particles_overwrite_witness :
  length (Star.particles star_fading) = 450%nat /\
  Star.particles (fst (@spawn_particles libc_sample star_fading 7)) =
    (fun k : nat => @spawned_particle libc_sample (7 + 3 * k)) <$> seq 0 450 /\
  fst (@spawn_particles libc_sample
         (fst (@spawn_particles libc_sample star_fading 0)) 7) =
  fst (@spawn_particles libc_sample star_fading 7).
Proof.
  assert (Hlen : length (Star.particles star_fading) = 450%nat)
    by reflexivity.
  split; [exact Hlen |].
  exact (@spawn_particles_overwrite libc_sample star_fading 7 0 Hlen).
Defined.

Lemma explosion_first_frame_witness :
  let s := Star.mk 2.9 2 0 30 0.79 0 BOUNCE particles_sample 0 in
  Star.state s = BOUNCE /\
  0.8 < Star.time s + dt_main /\
  length (Star.particles s) = 450%nat /\
  (16 < 32)%nat /\ (45 < 90)%nat /\
  (fst (@draw_star libc_sample
          (fst (@update_star libc_sample s dt_main 0)) 1350)
     !! cell_index 16 45 = Some "+"%char
   <-> 16%nat = 16%nat /\ 45%nat = 45%nat).
Proof.
  set (s := Star.mk 2.9 2 0 30 0.79 0 BOUNCE particles_sample 0).
  assert (Hs : Star.state s = BOUNCE) by reflexivity.
  assert (Ht : 0.8 < Star.time s + dt_main)
    by (unfold dt_main, FPS; simpl; lra).
  assert (Hlen : length (Star.particles s) = 450%nat) by reflexivity.
  assert (Hy : (16 < 32)%nat) by lia.
  assert (Hx : (45 < 90)%nat) by lia.
  cbv zeta.
  split; [exact Hs |]. split; [exact Ht |]. split; [exact Hlen |].
  split; [exact Hy |]. split; [exact Hx |].
  exact (@explosion_first_frame libc_sample libc_sample_spec s dt_main
           0 1350 16 45 Hs Ht Hlen Hy Hx).
Defined.

(** * Floating-point arithmetic

    What the rounding of the program's [float] operations keeps of the
    properties above, and what it changes. *)

(** ** Powers of two *)

Lemma bpow_gt_0 (e : Z) : 0 < bpow e.
Proof. apply powerRZ_lt. lra. Qed.

Lemma bpow_add (e1 e2 : Z) : bpow (e1 + e2) = bpow e1 * bpow e2.
Proof. apply powerRZ_add. lra. Qed.

Lemma bpow_opp (e : Z) : bpow (- e) = / bpow e.
Proof. apply powerRZ_neg'. Qed.

Lemma bpow_0 : bpow 0 = 1.
Proof. reflexivity. Qed.

Lemma bpow_cancel (e : Z) : bpow (- e) * bpow e = 1.
Proof.
  rewrite bpow_opp. apply Rinv_l. pose proof (bpow_gt_0 e). lra.
Qed.

Lemma ln_2_pos : 0 < ln 2.
Proof. pose proof ln_lt_2. lra. Qed.

Lemma bpow_exp (e : Z) : bpow e = exp (IZR e * ln 2).
Proof. unfold bpow. rewrite powerRZ_Rpower by lra. reflexivity. Qed.

Lemma bpow_lt (e1 e2 : Z) : (e1 < e2)%Z -> bpow e1 < bpow e2.
Proof.
  intros H. rewrite !bpow_exp. apply exp_increasing.
  apply IZR_lt in H. pose proof ln_2_pos. nra.
Qed.

Lemma bpow_le (e1 e2 : Z) : (e1 <= e2)%Z -> bpow e1 <= bpow e2.
Proof.
  intros H. destruct (Z.eq_dec e1 e2) as [-> | Hne]; [lra |].
  left. apply bpow_lt. lia.
Qed.

Lemma bpow_lt_inv (e1 e2 : Z) : bpow e1 < bpow e2 -> (e1 < e2)%Z.
Proof.
  intros H. destruct (Z_lt_le_dec e1 e2) as [Hlt | Hge]; [exact Hlt |].
  apply bpow_le in Hge. lra.
Qed.

Lemma bpow_IZR (n : Z) : (0 <= n)%Z -> bpow n = IZR (2 ^ n).
Proof.
  intros Hn. rewrite <- (Z2Nat.id n Hn) at 1 2.
  unfold bpow. rewrite <- pow_powerRZ. apply pow_IZR.
Qed.

Lemma bpow_succ (e : Z) : bpow (e + 1) = 2 * bpow e.
Proof. rewrite bpow_add. change (bpow 1) with (2 * 1). lra. Qed.

Lemma bpow_pred (e : Z) : bpow (e - 1) = bpow e / 2.
Proof.
  replace e with (e - 1 + 1)%Z at 2 by lia. rewrite bpow_succ. lra.
Qed.

(** ** The exponent of a real *)

Lemma mag_unique (x : R) (e : Z) :
  bpow (e - 1) <= Rabs x < bpow e -> mag x = e.
Proof.
  intros [Hlo Hhi]. unfold mag.
  assert (Hx : 0 < Rabs x) by (pose proof (bpow_gt_0 (e - 1)); lra).
  pose proof ln_2_pos as H2.
  assert (Hl : IZR (e - 1) * ln 2 <= ln (Rabs x)).
  { rewrite bpow_exp in Hlo.
    destruct Hlo as [Hlo | Hlo].
    - left. rewrite <- (ln_exp (IZR (e - 1) * ln 2)).
      apply ln_increasing; [apply exp_pos | exact Hlo].
    - right. rewrite <- Hlo. now rewrite ln_exp. }
  assert (Hh : ln (Rabs x) < IZR e * ln 2).
  { rewrite bpow_exp in Hhi. rewrite <- (ln_exp (IZR e * ln 2)).
    apply ln_increasing; [exact Hx | exact Hhi]. }
  rewrite minus_IZR in Hl.
  assert (E : (e - 1)%Z = Int_part (ln (Rabs x) / ln 2)).
  { apply Int_part_spec. rewrite minus_IZR. split.
    - apply Rmult_lt_reg_r with (ln 2); [exact H2 |].
      unfold Rdiv. rewrite Rmult_minus_distr_r, Rmult_assoc, Rinv_l by lra.
      lra.
    - apply Rmult_le_reg_r with (ln 2); [exact H2 |].
      unfold Rdiv. rewrite Rmult_assoc, Rinv_l by lra. lra. }
  lia.
Qed.

Lemma mag_bounds (x : R) :
  x <> 0 -> bpow (mag x - 1) <= Rabs x < bpow (mag x).
Proof.
  intros Hx. unfold mag.
  assert (Ha : 0 < Rabs x) by (apply Rabs_pos_lt; exact Hx).
  pose proof ln_2_pos as H2.
  set (l := ln (Rabs x) / ln 2).
  destruct (base_Int_part l) as [Hlo Hhi].
  assert (El : ln (Rabs x) = l * ln 2).
  { unfold l, Rdiv. rewrite Rmult_assoc, Rinv_l by lra. lra. }
  replace (Int_part l + 1 - 1)%Z with (Int_part l) by lia.
  assert (Ex : Rabs x = exp (l * ln 2))
    by (rewrite <- El; symmetry; apply exp_ln; exact Ha).
  clearbody l. rewrite Ex, !bpow_exp, plus_IZR. split.
  - destruct Hlo as [Hlo | Hlo].
    + left. apply exp_increasing. nra.
    + right. now rewrite Hlo.
  - apply exp_increasing. nra.
Qed.

Lemma mag_opp (x : R) : mag (- x) = mag x.
Proof. unfold mag. now rewrite Rabs_Ropp. Qed.

Lemma mag_le (x y : R) :
  x <> 0 -> Rabs x <= Rabs y -> (mag x <= mag y)%Z.
Proof.
  intros Hx Hxy.
  assert (Hy : y <> 0).
  { intros ->. rewrite Rabs_R0 in Hxy.
    pose proof (Rabs_pos_lt x Hx). lra. }
  destruct (mag_bounds x Hx) as [H1 _].
  destruct (mag_bounds y Hy) as [_ H2].
  assert (H : bpow (mag x - 1) < bpow (mag y)) by lra.
  apply bpow_lt_inv in H. lia.
Qed.

(** ** Rounding to the nearest integer, ties to even *)

Lemma rne_cases (r : R) :
  (rne r = Int_part r /\ r - IZR (Int_part r) <= / 2) \/
  (rne r = (Int_part r + 1)%Z /\ / 2 <= r - IZR (Int_part r)).
Proof.
  unfold rne.
  destruct (Rlt_le_dec (r - IZR (Int_part r)) (/ 2)) as [H | H].
  - rewrite (proj2 (Rltb_lt _ _) H). left. split; [reflexivity | lra].
  - rewrite (proj2 (Rltb_ge _ _) H).
    destruct (Rlt_le_dec (/ 2) (r - IZR (Int_part r))) as [H' | H'].
    + rewrite (proj2 (Rltb_lt _ _) H'). right. split; [reflexivity | lra].
    + rewrite (proj2 (Rltb_ge _ _) H').
      destruct (Z.even _); [left | right]; (split; [reflexivity | lra]).
Qed.

Lemma rne_near (r : R) (m : Z) : Rabs (r - IZR m) < / 2 -> rne r = m.
Proof.
  intros H. apply Rabs_def2 in H. destruct H as [H1 H2].
  destruct (base_Int_part r) as [Hlo Hhi].
  destruct (rne_cases r) as [[-> Hd] | [-> Hd]].
  - apply eq_IZR.
    assert (A : IZR m - 1 < IZR (Int_part r)) by lra.
    assert (B : IZR (Int_part r) - 1 < IZR m) by lra.
    rewrite <- minus_IZR in A, B. apply lt_IZR in A, B. f_equal. lia.
  - apply eq_IZR.
    assert (A : IZR m - 1 < IZR (Int_part r + 1)) by (rewrite plus_IZR; lra).
    assert (B : IZR (Int_part r + 1) - 1 < IZR m) by (rewrite plus_IZR; lra).
    rewrite <- minus_IZR in A, B. apply lt_IZR in A, B. f_equal. lia.
Qed.

Lemma rne_IZR (m : Z) : rne (IZR m) = m.
Proof.
  apply rne_near. rewrite Rminus_diag, Rabs_R0. lra.
Qed.

Lemma Int_part_le (r1 r2 : R) : r1 <= r2 -> (Int_part r1 <= Int_part r2)%Z.
Proof.
  intros H.
  destruct (base_Int_part r1) as [H1 _]. destruct (base_Int_part r2) as [_ H2].
  assert (A : IZR (Int_part r1) < IZR (Int_part r2 + 1))
    by (rewrite plus_IZR; lra).
  apply lt_IZR in A. lia.
Qed.

Lemma rne_mono (r1 r2 : R) : r1 <= r2 -> (rne r1 <= rne r2)%Z.
Proof.
  intros H. pose proof (Int_part_le r1 r2 H) as Hf.
  destruct (Z.eq_dec (Int_part r1) (Int_part r2)) as [E | Hne].
  - unfold rne. rewrite E.
    destruct (Rlt_le_dec (r1 - IZR (Int_part r2)) (/ 2)) as [H1 | H1].
    + rewrite (proj2 (Rltb_lt _ _) H1).
      destruct (r2 - IZR (Int_part r2) <? / 2); [lia |].
      destruct (/ 2 <? r2 - IZR (Int_part r2)); [lia |].
      destruct (Z.even _); lia.
    + rewrite (proj2 (Rltb_ge _ _) H1).
      assert (H2 : / 2 <= r2 - IZR (Int_part r2)) by lra.
      rewrite (proj2 (Rltb_ge _ _) H2).
      destruct (Rlt_le_dec (/ 2) (r1 - IZR (Int_part r2))) as [H3 | H3].
      * rewrite (proj2 (Rltb_lt _ _) H3).
        assert (H4 : / 2 < r2 - IZR (Int_part r2)) by lra.
        rewrite (proj2 (Rltb_lt _ _) H4). lia.
      * rewrite (proj2 (Rltb_ge _ _) H3).
        destruct (/ 2 <? r2 - IZR (Int_part r2)); destruct (Z.even _); lia.
  - destruct (rne_cases r1) as [[-> _] | [-> _]];
      destruct (rne_cases r2) as [[-> _] | [-> _]]; lia.
Qed.

Lemma rne_opp (r : R) : rne (- r) = (- rne r)%Z.
Proof.
  destruct (base_Int_part r) as [Hlo Hhi].
  destruct (Req_dec r (IZR (Int_part r))) as [E | Hne].
  - rewrite E, <- opp_IZR, !rne_IZR. reflexivity.
  - assert (Ef : Int_part (- r) = (- Int_part r - 1)%Z).
    { symmetry. apply Int_part_spec.
      rewrite minus_IZR, opp_IZR. lra. }
    unfold rne. rewrite Ef. rewrite minus_IZR, opp_IZR.
    set (f := Int_part r) in *.
    destruct (Rlt_le_dec (r - IZR f) (/ 2)) as [H1 | H1].
    + rewrite (proj2 (Rltb_lt _ _) H1).
      assert (A : / 2 < - r - (- IZR f - 1)) by lra.
      rewrite (proj2 (Rltb_ge _ _) (Rlt_le _ _ A)).
      rewrite (proj2 (Rltb_lt _ _) A). lia.
    + rewrite (proj2 (Rltb_ge _ _) H1).
      destruct (Rlt_le_dec (/ 2) (r - IZR f)) as [H2 | H2].
      * rewrite (proj2 (Rltb_lt _ _) H2).
        assert (A : - r - (- IZR f - 1) < / 2) by lra.
        rewrite (proj2 (Rltb_lt _ _) A). lia.
      * rewrite (proj2 (Rltb_ge _ _) H2).
        assert (A : / 2 <= - r - (- IZR f - 1)) by lra.
        assert (B : - r - (- IZR f - 1) <= / 2) by lra.
        rewrite (proj2 (Rltb_ge _ _) A), (proj2 (Rltb_ge _ _) B).
        replace (- f - 1)%Z with (- (f + 1))%Z by lia.
        rewrite Z.even_opp, Z.even_add. cbn [Z.even].
        destruct (Z.even f); cbn; lia.
Qed.

(** ** Rounding to a fixed grid *)

Lemma scaled_int (c : Z) (m : Z) : IZR m * bpow c * bpow (- c) = IZR m.
Proof.
  rewrite Rmult_assoc, (Rmult_comm (bpow c)), bpow_cancel. lra.
Qed.

Lemma round_at_int (c : Z) (m : Z) :
  round_at c (IZR m * bpow c) = IZR m * bpow c.
Proof. unfold round_at. now rewrite scaled_int, rne_IZR. Qed.

Lemma round_at_0 (c : Z) : round_at c 0 = 0.
Proof.
  replace 0 with (IZR 0 * bpow c) at 1 by lra.
  rewrite round_at_int. lra.
Qed.

Lemma round_at_mono (c : Z) (x y : R) :
  x <= y -> round_at c x <= round_at c y.
Proof.
  intros H. unfold round_at.
  pose proof (bpow_gt_0 c) as Hc. pose proof (bpow_gt_0 (- c)) as Hc'.
  apply Rmult_le_compat_r; [lra |].
  apply IZR_le, rne_mono. apply Rmult_le_compat_r; lra.
Qed.

Lemma round_at_opp (c : Z) (x : R) : round_at c (- x) = - round_at c x.
Proof.
  unfold round_at.
  replace (- x * bpow (- c)) with (- (x * bpow (- c))) by lra.
  rewrite rne_opp, opp_IZR. lra.
Qed.

Lemma bpow_on_grid (c k : Z) :
  (c <= k)%Z -> bpow k = IZR (2 ^ (k - c)) * bpow c.
Proof.
  intros H. rewrite <- bpow_IZR by lia. rewrite <- bpow_add.
  f_equal. lia.
Qed.

Lemma round_at_bpow (c k : Z) : (c <= k)%Z -> round_at c (bpow k) = bpow k.
Proof.
  intros H. rewrite (bpow_on_grid c k H). apply round_at_int.
Qed.

Lemma round_at_near (c : Z) (x : R) (m : Z) :
  Rabs (x - IZR m * bpow c) < bpow c / 2 ->
  round_at c x = IZR m * bpow c.
Proof.
  intros H. unfold round_at. f_equal. f_equal. apply rne_near.
  pose proof (bpow_gt_0 c) as Hc. pose proof (bpow_gt_0 (- c)) as Hc'.
  replace (x * bpow (- c) - IZR m)
    with ((x - IZR m * bpow c) * bpow (- c))
    by (rewrite Rmult_minus_distr_r, scaled_int; reflexivity).
  rewrite Rabs_mult, (Rabs_pos_eq (bpow (- c))) by lra.
  apply Rmult_lt_reg_r with (bpow c); [exact Hc |].
  rewrite Rmult_assoc, bpow_cancel. lra.
Qed.

Lemma round_at_small (c : Z) (x : R) :
  Rabs x < bpow c / 2 -> round_at c x = 0.
Proof.
  intros H. rewrite (round_at_near c x 0); [lra |].
  now replace (x - 0 * bpow c) with x by lra.
Qed.

(** ** Rounding to a format of [prec] digits and least exponent [emin] *)

Section Round.

Variables prec emin : Z.
Hypothesis Hprec : (0 < prec)%Z.

Lemma cexp_opp (x : R) : cexp prec emin (- x) = cexp prec emin x.
Proof. unfold cexp. now rewrite mag_opp. Qed.

Lemma round_opp (x : R) : round prec emin (- x) = - round prec emin x.
Proof. unfold round. rewrite cexp_opp. apply round_at_opp. Qed.

Lemma round_0 : round prec emin 0 = 0.
Proof. apply round_at_0. Qed.

Lemma round_nonneg (x : R) : 0 <= x -> 0 <= round prec emin x.
Proof.
  intros H. unfold round.
  rewrite <- (round_at_0 (cexp prec emin x)). now apply round_at_mono.
Qed.

Lemma round_pos_mono (x y : R) :
  0 < x -> x <= y -> round prec emin x <= round prec emin y.
Proof using Hprec.
  intros Hx Hxy.
  assert (Hx0 : x <> 0) by lra. assert (Hy0 : y <> 0) by lra.
  pose proof (mag_bounds x Hx0) as [Hxl Hxh].
  pose proof (mag_bounds y Hy0) as [Hyl Hyh].
  rewrite Rabs_pos_eq in Hxl, Hxh, Hyl, Hyh by lra.
  assert (Hm : (mag x <= mag y)%Z)
    by (apply mag_le; [exact Hx0 | rewrite !Rabs_pos_eq by lra; exact Hxy]).
  unfold round, cexp.
  destruct (Z.eq_dec (mag x) (mag y)) as [E | Hne].
  - rewrite E. now apply round_at_mono.
  - set (cx := Z.max (mag x - prec) emin).
    set (cy := Z.max (mag y - prec) emin).
    assert (Hy' : 0 <= round_at cy y).
    { rewrite <- (round_at_0 cy). apply round_at_mono. lra. }
    destruct (Z_le_gt_dec cx (mag x)) as [Hcx | Hcx].
    + assert (Hcy : (cy <= mag y - 1)%Z) by lia.
      apply Rle_trans with (bpow (mag x)).
      * rewrite <- (round_at_bpow cx (mag x) Hcx).
        apply round_at_mono. lra.
      * apply Rle_trans with (bpow (mag y - 1)).
        -- apply bpow_le. lia.
        -- rewrite <- (round_at_bpow cy (mag y - 1) Hcy).
           now apply round_at_mono.
    + rewrite (round_at_small cx x); [exact Hy' |].
      rewrite Rabs_pos_eq by lra.
      assert (H : bpow (mag x) <= bpow (cx - 1)) by (apply bpow_le; lia).
      rewrite bpow_pred in H. lra.
Qed.

Lemma round_mono (x y : R) :
  x <= y -> round prec emin x <= round prec emin y.
Proof using Hprec.
  intros Hxy.
  destruct (Rlt_le_dec 0 x) as [Hx | Hx].
  - now apply round_pos_mono.
  - destruct (Rlt_le_dec y 0) as [Hy | Hy].
    + rewrite <- (Ropp_involutive x), <- (Ropp_involutive y).
      rewrite (round_opp (- x)), (round_opp (- y)).
      apply Ropp_le_contravar. apply round_pos_mono; lra.
    + apply Rle_trans with 0; [| now apply round_nonneg].
      rewrite <- (Ropp_involutive x), round_opp.
      pose proof (round_nonneg (- x)). lra.
Qed.

Lemma abs_IZR_bpow (m k : Z) :
  Rabs (IZR m * bpow k) = IZR (Z.abs m) * bpow k.
Proof.
  rewrite Rabs_mult, <- abs_IZR, (Rabs_pos_eq (bpow k)); [reflexivity |].
  pose proof (bpow_gt_0 k). lra.
Qed.

Lemma round_dyadic_lt (m k : Z) :
  (Z.abs m < 2 ^ prec)%Z -> (emin <= k)%Z ->
  round prec emin (IZR m * bpow k) = IZR m * bpow k.
Proof using Hprec.
  intros Hm Hk.
  destruct (Z.eq_dec m 0%Z) as [-> | Hm0].
  { rewrite Rmult_0_l. apply round_0. }
  set (j := (Z.log2 (Z.abs m) + 1)%Z).
  assert (Hpos : (0 < Z.abs m)%Z) by lia.
  destruct (Z.log2_spec (Z.abs m) Hpos) as [Hlo Hhi].
  pose proof (Z.log2_nonneg (Z.abs m)) as Hl0.
  assert (Hj : (j <= prec)%Z).
  { assert (H : (2 ^ Z.log2 (Z.abs m) < 2 ^ prec)%Z) by lia.
    apply Z.pow_lt_mono_r_iff in H; lia. }
  assert (Hmag : mag (IZR m * bpow k) = (j + k)%Z).
  { apply mag_unique. rewrite abs_IZR_bpow.
    pose proof (bpow_gt_0 k) as Hbk.
    replace (j + k - 1)%Z with (Z.log2 (Z.abs m) + k)%Z by lia.
    rewrite !bpow_add.
    rewrite (bpow_IZR (Z.log2 (Z.abs m))), (bpow_IZR j) by lia.
    replace j with (Z.succ (Z.log2 (Z.abs m))) by lia.
    apply IZR_le in Hlo. apply IZR_lt in Hhi.
    split; [apply Rmult_le_compat_r | apply Rmult_lt_compat_r]; lra. }
  unfold round, cexp. rewrite Hmag.
  set (c := Z.max (j + k - prec) emin).
  assert (Hc : (c <= k)%Z) by lia.
  rewrite (bpow_on_grid c k Hc), <- Rmult_assoc, <- mult_IZR.
  apply round_at_int.
Qed.

Lemma round_dyadic (m k : Z) :
  (Z.abs m <= 2 ^ prec)%Z -> (emin <= k)%Z ->
  round prec emin (IZR m * bpow k) = IZR m * bpow k.
Proof using Hprec.
  intros Hm Hk.
  destruct (Z_lt_le_dec (Z.abs m) (2 ^ prec)) as [Hlt | Hge].
  { now apply round_dyadic_lt. }
  assert (Hp : (2 ^ prec = 2 * 2 ^ (prec - 1))%Z).
  { rewrite <- Z.pow_succ_r by lia. f_equal. lia. }
  assert (Hpos : (0 < 2 ^ (prec - 1))%Z) by (apply Z.pow_pos_nonneg; lia).
  assert (Hcase : m = (2 * 2 ^ (prec - 1))%Z \/
                  m = (2 * - 2 ^ (prec - 1))%Z) by lia.
  destruct Hcase as [-> | ->]; rewrite mult_IZR, Rmult_assoc,
    (Rmult_comm 2), Rmult_assoc, (Rmult_comm (bpow k)), <- bpow_succ;
    apply round_dyadic_lt; lia.
Qed.

Lemma round_int (z : Z) :
  (Z.abs z <= 2 ^ prec)%Z -> (emin <= 0)%Z ->
  round prec emin (IZR z) = IZR z.
Proof using Hprec.
  intros Hz He. rewrite <- (Rmult_1_r (IZR z)). change 1 with (bpow 0).
  now apply round_dyadic.
Qed.

(** The result of rounding, as an integer on the grid of its argument. *)
Lemma round_bound (x : R) :
  exists n : Z,
    round prec emin x = IZR n * bpow (cexp prec emin x) /\
    (Z.abs n <= 2 ^ prec)%Z.
Proof using Hprec.
  set (c := cexp prec emin x).
  exists (rne (x * bpow (- c))). split; [reflexivity |].
  destruct (Req_dec x 0) as [-> | Hx].
  { rewrite Rmult_0_l. change 0 with (IZR 0). rewrite rne_IZR.
    assert (0 < 2 ^ prec)%Z by (apply Z.pow_pos_nonneg; lia). lia. }
  destruct (mag_bounds x Hx) as [_ Hhi].
  pose proof (bpow_gt_0 (- c)) as Hc'.
  assert (Hs : Rabs (x * bpow (- c)) <= IZR (2 ^ prec)).
  { rewrite Rabs_mult, (Rabs_pos_eq (bpow (- c))) by lra.
    rewrite <- bpow_IZR by lia.
    apply Rle_trans with (bpow (mag x) * bpow (- c)).
    - apply Rmult_le_compat_r; lra.
    - rewrite <- bpow_add. apply bpow_le. unfold c, cexp. lia. }
  assert (H12 : - IZR (2 ^ prec) <= x * bpow (- c) <= IZR (2 ^ prec))
    by (revert Hs; unfold Rabs; destruct (Rcase_abs _); lra).
  destruct H12 as [H1 H2].
  rewrite <- opp_IZR in H1.
  apply rne_mono in H1, H2. rewrite rne_IZR in H1, H2. lia.
Qed.

Lemma round_idem (x : R) :
  round prec emin (round prec emin x) = round prec emin x.
Proof using Hprec.
  destruct (round_bound x) as (n & -> & Hn).
  apply round_dyadic; [exact Hn | unfold cexp; lia].
Qed.

(** Rounding a real whose binade is known. *)
Lemma round_near (x : R) (e m : Z) :
  bpow (e - 1) <= Rabs x < bpow e ->
  (emin <= e - prec)%Z ->
  Rabs (x - IZR m * bpow (e - prec)) < bpow (e - prec) / 2 ->
  round prec emin x = IZR m * bpow (e - prec).
Proof.
  intros Hx He Hm. unfold round, cexp.
  rewrite (mag_unique x e Hx), Z.max_l by lia.
  now apply round_at_near.
Qed.

End Round.

(** ** The two arithmetics *)

Lemma bpow_pos_num (p : positive) : bpow (Z.pos p) = IZR (Z.pow_pos 2 p).
Proof. unfold bpow. now rewrite Zpower_pos_powerRZ. Qed.

Lemma bpow_neg_num (p : positive) : bpow (Z.neg p) = / IZR (Z.pow_pos 2 p).
Proof.
  change (Z.neg p) with (- Z.pos p)%Z. now rewrite bpow_opp, bpow_pos_num.
Qed.

(** Powers of two with a literal exponent, as numerals. *)
Ltac bpow_num :=
  repeat match goal with
  | |- context [bpow (?a - ?b)] =>
      let v := eval vm_compute in (a - b)%Z in
      progress change (a - b)%Z with v
  | H : context [bpow (?a - ?b)] |- _ =>
      let v := eval vm_compute in (a - b)%Z in
      progress change (a - b)%Z with v in H
  end;
  repeat match goal with
  | |- context [bpow (Z.neg ?p)] =>
      let v := eval vm_compute in (Z.pow_pos 2 p) in
      rewrite (bpow_neg_num p); change (Z.pow_pos 2 p) with v
  | |- context [bpow (Z.pos ?p)] =>
      let v := eval vm_compute in (Z.pow_pos 2 p) in
      rewrite (bpow_pos_num p); change (Z.pow_pos 2 p) with v
  | |- context [bpow 0] => change (bpow 0) with 1
  | H : context [bpow (Z.neg ?p)] |- _ =>
      let v := eval vm_compute in (Z.pow_pos 2 p) in
      rewrite (bpow_neg_num p) in H; change (Z.pow_pos 2 p) with v in H
  | H : context [bpow (Z.pos ?p)] |- _ =>
      let v := eval vm_compute in (Z.pow_pos 2 p) in
      rewrite (bpow_pos_num p) in H; change (Z.pow_pos 2 p) with v in H
  | H : context [bpow 0] |- _ => change (bpow 0) with 1 in H
  end.

Lemma fpu_exact_spec : FpuSpec fpu_exact.
Proof. split; intros; cbn; auto. Qed.

Lemma binary32_mono (x y : R) : x <= y -> binary32 x <= binary32 y.
Proof. apply round_mono. lia. Qed.

Lemma binary32_idem (x : R) : binary32 (binary32 x) = binary32 x.
Proof. apply round_idem. lia. Qed.

Lemma binary32_dyadic (m k : Z) :
  (Z.abs m <= 16777216)%Z -> (-149 <= k)%Z ->
  binary32 (IZR m * bpow k) = IZR m * bpow k.
Proof. intros Hm Hk. apply round_dyadic; [lia | exact Hm | exact Hk]. Qed.

Lemma binary32_int (z : Z) :
  (Z.abs z <= 16777216)%Z -> binary32 (IZR z) = IZR z.
Proof. intros Hz. apply round_int; [lia | exact Hz | lia]. Qed.

Lemma binary64_mono (x y : R) : x <= y -> binary64 x <= binary64 y.
Proof. apply round_mono. lia. Qed.

Lemma binary64_dyadic (m k : Z) :
  (Z.abs m <= 9007199254740992)%Z -> (-1074 <= k)%Z ->
  binary64 (IZR m * bpow k) = IZR m * bpow k.
Proof. intros Hm Hk. apply round_dyadic; [lia | exact Hm | exact Hk]. Qed.

Lemma fpu_ieee_spec : FpuSpec fpu_ieee.
Proof.
  split; cbn.
  - exact binary32_mono.
  - exact binary32_idem.
  - exact binary32_int.
Qed.

(** A real in the binade [2^(e-1) <= |x| < 2^e] within half a unit in the
    last place of the [float] [m * 2^(e-24)] rounds to it. *)
Lemma binary32_near (x : R) (e m : Z) :
  bpow (e - 1) <= Rabs x < bpow e ->
  (-125 <= e)%Z ->
  Rabs (x - IZR m * bpow (e - 24)) < bpow (e - 24) / 2 ->
  binary32 x = IZR m * bpow (e - 24).
Proof. intros Hx He Hm. apply round_near; [exact Hx | lia | exact Hm]. Qed.

(** A [float] of the binade of exponent [e] is a multiple of
    [2^(e-24)]. *)
Lemma binary32_grid (r : R) (e : Z) :
  binary32 r = r ->
  bpow (e - 1) <= Rabs r < bpow e ->
  (-125 <= e)%Z ->
  exists n : Z, r = IZR n * bpow (e - 24).
Proof.
  intros Hr Hb He. unfold binary32, round, cexp in Hr.
  rewrite (mag_unique r e Hb), Z.max_l in Hr by lia.
  eexists. symmetry. exact Hr.
Qed.

(** Between 7.5 and 10.5, where the radius of the giant lies, the [float]s
    are at least [2^-21] apart: taking off up to [2^-30] changes
    nothing. *)
Lemma binary32_absorb (r eps : R) :
  binary32 r = r -> 7.5 <= r <= 10.5 -> 0 <= eps <= bpow (-30) ->
  binary32 (r - eps) = r.
Proof.
  intros Hr Hb He.
  destruct (Rtotal_order r 8) as [Hlt | [-> | Hgt]].
  - assert (Hm : bpow (3 - 1) <= Rabs r < bpow 3)
      by (rewrite Rabs_pos_eq by lra; bpow_num; lra).
    destruct (binary32_grid r 3 Hr Hm) as (n & Hn); [lia |].
    rewrite Hn at 2. apply binary32_near; [| lia |].
    + rewrite Rabs_pos_eq by (bpow_num; lra).
      bpow_num. lra.
    + rewrite <- Hn.
      replace (r - eps - r) with (- eps) by lra.
      rewrite Rabs_Ropp, Rabs_pos_eq by lra.
      bpow_num. lra.
  - destruct (Req_dec eps 0) as [-> | Hne].
    + now rewrite Rminus_0_r.
    + replace 8 with (IZR 16777216 * bpow (3 - 24)) at 2
        by (bpow_num; lra).
      apply binary32_near; [| lia |].
      * rewrite Rabs_pos_eq by (bpow_num; lra).
        bpow_num. lra.
      * replace (8 - eps - IZR 16777216 * bpow (3 - 24)) with (- eps)
          by (bpow_num; lra).
        rewrite Rabs_Ropp, Rabs_pos_eq by lra.
        bpow_num. lra.
  - assert (Hm : bpow (4 - 1) <= Rabs r < bpow 4)
      by (rewrite Rabs_pos_eq by lra; bpow_num; lra).
    destruct (binary32_grid r 4 Hr Hm) as (n & Hn); [lia |].
    assert (Hn8 : (8388608 < n)%Z).
    { apply lt_IZR. rewrite Hn in Hgt.
      bpow_num. lra. }
    assert (Hn9 : IZR 8388609 <= IZR n) by (apply IZR_le; lia).
    rewrite Hn at 2. apply binary32_near; [| lia |].
    + rewrite Rabs_pos_eq by (bpow_num; lra).
      rewrite Hn. bpow_num. lra.
    + rewrite <- Hn.
      replace (r - eps - r) with (- eps) by lra.
      rewrite Rabs_Ropp, Rabs_pos_eq by lra.
      bpow_num. lra.
Qed.

(** ** The program in floating-point arithmetic *)

Section FloatFacts.

Context {L : Libc} {F : Fpu}.

(** [spawn_particles] and [update_particles] write the particle array
    (and the count) and nothing else. *)
Lemma float_spawn_particles_frame (s : Star.t) (g : nat) :
  fst (Float.spawn_particles s g) =
  set_particles (Star.particles (fst (Float.spawn_particles s g)))
    (set_particle_count MAX_PARTICLES s).
Proof.
  unfold Float.spawn_particles, for_upto.
  apply (for_upto_nat_inv
    (fun _ (w : Star.t * nat) =>
       fst w = set_particles (Star.particles (fst w))
                 (set_particle_count MAX_PARTICLES s))).
  - reflexivity.
  - intros j [b gb] _ Hb. cbn [fst] in *. rewrite Hb at 2. reflexivity.
Qed.

Lemma float_update_particles_spec (s : Star.t) (dt : R) :
  let s' := Float.update_particles s dt in
  s' = set_particles (Star.particles s') s /\
  length (Star.particles s') = length (Star.particles s) /\
  forall k : nat,
    Star.particles s' !! k =
    if (k <? Z.to_nat (Star.particle_count s))%nat
    then Float.particle_step dt <$> Star.particles s !! k
    else Star.particles s !! k.
Proof.
  unfold Float.update_particles, for_upto.
  set (n := Z.to_nat (Star.particle_count s)).
  apply (for_upto_nat_inv
    (fun j s' =>
       s' = set_particles (Star.particles s') s /\
       length (Star.particles s') = length (Star.particles s) /\
       forall k : nat,
         Star.particles s' !! k =
         if (k <? j)%nat
         then Float.particle_step dt <$> Star.particles s !! k
         else Star.particles s !! k)).
  - split; [now destruct s |]. split; [reflexivity |].
    intros k. destruct (Nat.ltb_spec k (0)); [lia | reflexivity].
  - intros j b Hj (Hb & Hlen & Hk).
    assert (Hj' : Star.particles b !! j = Star.particles s !! j).
    { rewrite Hk. destruct (Nat.ltb_spec j (j)); [lia | reflexivity]. }
    destruct (Star.particles b !! j) as [p|] eqn:Ep.
    + assert (Hstep : forall k : nat,
        <[j:=Float.particle_step dt p]> (Star.particles b) !! k =
        if (k <? S j)%nat
        then Float.particle_step dt <$> Star.particles s !! k
        else Star.particles s !! k).
      { intros k. destruct (decide (k = j)) as [->|Hne].
        - rewrite list_lookup_insert_eq
            by (apply lookup_lt_is_Some; rewrite Ep; eauto).
          destruct (Nat.ltb_spec j (S j)); [| lia].
          now rewrite <- Hj'.
        - rewrite list_lookup_insert_ne by congruence.
          rewrite Hk.
          destruct (Nat.ltb_spec k j), (Nat.ltb_spec k (S j));
            try reflexivity; lia. }
      unfold Float.particle_step in Hstep.
      destruct (Particle.life p <=? 0) eqn:El.
      * split; [exact Hb |]. split; [exact Hlen |].
        intros k. rewrite <- Hstep.
        now rewrite list_insert_id.
      * split; [rewrite Hb at 2; reflexivity |].
        split; [simpl; now rewrite length_insert |].
        exact Hstep.
    + split; [exact Hb |]. split; [exact Hlen |].
      intros k. rewrite Hk.
      destruct (Nat.ltb_spec k j), (Nat.ltb_spec k (S j));
        try reflexivity; try lia.
      assert (k = j) by lia. subst k. now rewrite <- Hj'.
Qed.

Lemma float_update_particles_frame (s : Star.t) (dt : R) :
  Float.update_particles s dt =
  set_particles (Star.particles (Float.update_particles s dt)) s.
Proof. apply (float_update_particles_spec s dt). Qed.

(** One call of [update_star], stage by stage. *)

Ltac float_branch H :=
  unfold Float.update_star;
  cbn [Star.state Star.time Star.radius Star.velocity Star.explosion_radius
       set_time set_radius set_velocity set_explosion_radius];
  rewrite H;
  cbn [Z.eqb Pos.eqb GIANT COLLAPSE BOUNCE EXPLOSION NEBULA].

Lemma float_update_star_giant (s : Star.t) (dt : R) (g : nat) :
  Star.state s = GIANT ->
  Float.update_star s dt g =
  (let t := fl32 (Star.time s + dt) in
   let s1 :=
     set_radius (fl32 (fl64 (9 + fl64 (sin_d (fl32 (t * 3)) * 1.5))))
       (set_time t s) in
   if t >? 5 then set_velocity 0 (set_time 0 (set_state COLLAPSE s1))
   else s1, g).
Proof.
  intros H. float_branch H. cbv zeta. destruct (_ <? _); reflexivity.
Qed.

Lemma float_update_star_collapse (s : Star.t) (dt : R) (g : nat) :
  Star.state s = COLLAPSE ->
  Float.update_star s dt g =
  (let v := fl32 (Star.velocity s + fl32 (40 * dt)) in
   let r := fl32 (Star.radius s - fl32 (v * dt)) in
   let s1 :=
     set_radius r (set_velocity v (set_time (fl32 (Star.time s + dt)) s)) in
   if r <? 3 then set_core_radius 2 (set_time 0 (set_state BOUNCE s1))
   else s1, g).
Proof.
  intros H. float_branch H. cbv zeta. destruct (_ <? _); reflexivity.
Qed.

Lemma float_update_star_bounce (s : Star.t) (dt : R) (g : nat) :
  Star.state s = BOUNCE ->
  Float.update_star s dt g =
  let t := fl32 (Star.time s + dt) in
  let s1 := set_radius (fl32 (Star.radius s + fl32 (25 * dt))) (set_time t s) in
  if t >? fl64 0.8
  then Float.spawn_particles
         (set_explosion_radius 3 (set_time 0 (set_state EXPLOSION s1))) g
  else (s1, g).
Proof. intros H. float_branch H. reflexivity. Qed.

Lemma float_update_star_explosion (s : Star.t) (dt : R) (g : nat) :
  Star.state s = EXPLOSION ->
  Float.update_star s dt g =
  (let e := fl32 (Star.explosion_radius s + fl32 (30 * dt)) in
   let s1 :=
     Float.update_particles
       (set_explosion_radius e (set_time (fl32 (Star.time s + dt)) s)) dt in
   if e >? 32 then set_time 0 (set_state NEBULA s1) else s1, g).
Proof.
  intros H. float_branch H. cbv zeta.
  rewrite float_update_particles_frame.
  cbn [Star.explosion_radius set_particles set_explosion_radius].
  destruct (_ <? _); reflexivity.
Qed.

Lemma float_update_star_nebula (s : Star.t) (dt : R) (g : nat) :
  Star.state s = NEBULA ->
  Float.update_star s dt g =
  (let e := fl32 (Star.explosion_radius s + fl32 (6 * dt)) in
   let s1 :=
     Float.update_particles
       (set_explosion_radius e (set_time (fl32 (Star.time s + dt)) s)) dt in
   if e >? 42 then set_radius 9 (set_time 0 (set_state GIANT s1)) else s1, g).
Proof.
  intros H. float_branch H. cbv zeta.
  rewrite float_update_particles_frame.
  cbn [Star.explosion_radius set_particles set_explosion_radius].
  destruct (_ <? _); reflexivity.
Qed.

Lemma float_update_star_other (s : Star.t) (dt : R) (g : nat) :
  (Star.state s < GIANT \/ NEBULA < Star.state s)%Z ->
  Float.update_star s dt g = (set_time (fl32 (Star.time s + dt)) s, g).
Proof.
  intros H. unfold Float.update_star. cbn [Star.state set_time].
  unfold GIANT, COLLAPSE, BOUNCE, EXPLOSION, NEBULA in *.
  repeat match goal with
         | |- context [(?a =? ?b)%Z] => destruct (Z.eqb_spec a b); [lia |]
         end.
  reflexivity.
Qed.

(** The case analysis of one call: the star that [update_star] returns,
    with the particle array that the particle functions left replaced by a
    variable. *)
Ltac float_cases s dt g :=
  let Hst := fresh "Hst" in
  destruct (Z.eq_dec (Star.state s) GIANT) as [Hst|];
  [ rewrite (float_update_star_giant s dt g Hst); cbv zeta;
    match goal with |- context [if ?c then _ else _] => destruct c end
  | destruct (Z.eq_dec (Star.state s) COLLAPSE) as [Hst|];
    [ rewrite (float_update_star_collapse s dt g Hst); cbv zeta;
      match goal with |- context [if ?c then _ else _] => destruct c end
    | destruct (Z.eq_dec (Star.state s) BOUNCE) as [Hst|];
      [ rewrite (float_update_star_bounce s dt g Hst); cbv zeta;
        match goal with |- context [if ?c then _ else _] => destruct c end;
        [ rewrite float_spawn_particles_frame;
          match goal with
          | |- context [Star.particles (fst (Float.spawn_particles ?X g))] =>
              generalize (Star.particles (fst (Float.spawn_particles X g)))
          end; intros ?
        | idtac ]
      | destruct (Z.eq_dec (Star.state s) EXPLOSION) as [Hst|];
        [ rewrite (float_update_star_explosion s dt g Hst); cbv zeta;
          rewrite float_update_particles_frame;
          match goal with
          | |- context [Star.particles (Float.update_particles ?X dt)] =>
              generalize (Star.particles (Float.update_particles X dt))
          end; intros ?;
          match goal with |- context [if ?c then _ else _] => destruct c end
        | destruct (Z.eq_dec (Star.state s) NEBULA) as [Hst|];
          [ rewrite (float_update_star_nebula s dt g Hst); cbv zeta;
            rewrite float_update_particles_frame;
            match goal with
            | |- context [Star.particles (Float.update_particles ?X dt)] =>
                generalize (Star.particles (Float.update_particles X dt))
            end; intros ?;
            match goal with |- context [if ?c then _ else _] => destruct c end
          | rewrite (float_update_star_other s dt g)
              by (unfold GIANT, COLLAPSE, BOUNCE, EXPLOSION, NEBULA in *;
                  lia) ] ] ] ] ];
  cbn [fst snd Star.radius Star.core_radius Star.explosion_radius
       Star.velocity Star.time Star.density Star.state Star.particles
       Star.particle_count set_radius set_core_radius set_explosion_radius
       set_velocity set_time set_state set_particles set_particle_count]
    in *.

Context {FS : FpuSpec F}.

Lemma fl32_0 : fl32 0 = 0.
Proof. apply (fl32_int 0). lia. Qed.

Lemma fl32_nonneg (x : R) : 0 <= x -> 0 <= fl32 x.
Proof. intros H. rewrite <- fl32_0. now apply fl32_mono. Qed.

Lemma fl32_nonpos (x : R) : x <= 0 -> fl32 x <= 0.
Proof. intros H. rewrite <- fl32_0. now apply fl32_mono. Qed.

(** In every state of a run with positive increments [radius] and
    [velocity] hold [float]s, and the contraction speed of a collapsing
    star is not negative. *)
Lemma float_reachable_inv (density0 : R) (particles0 : list Particle.t)
    (w : Star.t * nat) :
  Float.reachable_by (Rlt 0) density0 particles0 w ->
  fl32 (Star.radius (fst w)) = Star.radius (fst w) /\
  fl32 (Star.velocity (fst w)) = Star.velocity (fst w) /\
  (Star.state (fst w) = COLLAPSE -> 0 <= Star.velocity (fst w)).
Proof.
  intros H. induction H as [| s g dt Hdt H IH | s g g' H IH].
  - cbn. split; [apply (fl32_int 9); lia |].
    split; [apply fl32_0 | discriminate].
  - cbn [fst] in IH. destruct IH as (Hr & Hv & Hc).
    float_cases s dt g;
      (split; [| split]);
      try apply fl32_idem; try apply fl32_0; try exact Hr; try exact Hv;
      try (apply (fl32_int 9); lia);
      try (intros Hx; unfold GIANT, COLLAPSE, BOUNCE, EXPLOSION, NEBULA in *;
           first [ lia | lra ]).
    intros _. apply fl32_nonneg.
    specialize (Hc Hst).
    assert (0 <= fl32 (40 * dt)) by (apply fl32_nonneg; lra).
    lra.
  - exact IH.
Qed.

(** C8, as the code has it.  In every Collapse state of a run with
    positive increments the contraction speed is not negative, and a call
    of [update_star] with [dt > 0] replaces [velocity] by the [float]
    nearest to [velocity + 40*dt] and [radius] by the [float] nearest to
    [radius - velocity*dt] (the product rounded first): [velocity] does
    not decrease and [radius] does not increase, on every tick from the
    entry into Collapse to the one on which [radius < 3] fires.  Where
    no operation rounds, both changes are strict. *)
Theorem collapse_monotone (density0 : R) (particles0 : list Particle.t)
    (s : Star.t) (g : nat) (dt : R) :
  Float.reachable_by (Rlt 0) density0 particles0 (s, g) ->
  Star.state s = COLLAPSE ->
  0 < dt ->
  let s' := fst (Float.update_star s dt g) in
  0 <= Star.velocity s /\
  Star.velocity s' = fl32 (Star.velocity s + fl32 (40 * dt)) /\
  Star.radius s' = fl32 (Star.radius s - fl32 (Star.velocity s' * dt)) /\
  Star.velocity s <= Star.velocity s' /\
  Star.radius s' <= Star.radius s /\
  ((forall x : R, fl32 x = x) ->
   Star.velocity s < Star.velocity s' /\ Star.radius s' < Star.radius s).
Proof.
  intros Hreach Hs Hdt.
  destruct (float_reachable_inv _ _ _ Hreach) as (Hr & Hv & Hc).
  cbn [fst] in Hr, Hv, Hc. specialize (Hc Hs). cbv zeta.
  rewrite (float_update_star_collapse s dt g Hs). cbv zeta.
  assert (Hinc : 0 <= fl32 (40 * dt)) by (apply fl32_nonneg; lra).
  assert (Hvel : Star.velocity s <= fl32 (Star.velocity s + fl32 (40 * dt))).
  { rewrite <- Hv at 1. apply fl32_mono. lra. }
  assert (Hdec : 0 <= fl32 (fl32 (Star.velocity s + fl32 (40 * dt)) * dt)).
  { apply fl32_nonneg. apply Rmult_le_pos; lra. }
  assert (Hrad : fl32 (Star.radius s
                       - fl32 (fl32 (Star.velocity s + fl32 (40 * dt)) * dt))
                 <= Star.radius s).
  { rewrite <- Hr at 2. apply fl32_mono. lra. }
  assert (Hex : (forall x : R, fl32 x = x) ->
    Star.velocity s < fl32 (Star.velocity s + fl32 (40 * dt)) /\
    fl32 (Star.radius s
          - fl32 (fl32 (Star.velocity s + fl32 (40 * dt)) * dt))
    < Star.radius s).
  { intros E. rewrite !E. split; nra. }
  destruct (_ <? 3);
    cbn [fst Star.velocity Star.radius set_radius set_velocity set_time
         set_state set_core_radius];
    (split; [exact Hc |]); (split; [reflexivity |]);
    (split; [reflexivity |]); (split; [exact Hvel |]);
    (split; [exact Hrad | exact Hex]).
Qed.

(** X10.  A clock that absorbs the increment stops the cycle: when the
    [float] nearest to [time + dt] is [time] itself, a giant (with
    [time <= 5]) or a bouncing star (with [time <= 0.8]) stays in its
    stage, with its clock where it was and without a call of [rand()],
    through any number of calls of [update_star]. *)
Theorem update_star_n_absorbed (s : Star.t) (dt : R) (g : nat) (n : nat) :
  (Star.state s = GIANT /\ Star.time s <= 5) \/
  (Star.state s = BOUNCE /\ Star.time s <= fl64 0.8) ->
  fl32 (Star.time s + dt) = Star.time s ->
  let w := Float.update_star_n n dt (s, g) in
  Star.state (fst w) = Star.state s /\
  Star.time (fst w) = Star.time s /\
  snd w = g.
Proof.
  intros Hstage Habs. cbv zeta. unfold Float.update_star_n.
  induction n as [|n (Hst & Ht & Hg)]; [repeat split |].
  rewrite Nat.iter_succ.
  destruct (Nat.iter n _ (s, g)) as [sn gn]. cbn [fst snd] in *. subst gn.
  destruct Hstage as [(Hs & Hle) | (Hs & Hle)].
  - rewrite float_update_star_giant by congruence. cbv zeta.
    rewrite Ht, Habs, (proj2 (Rltb_ge _ _) Hle).
    cbn. repeat split; congruence.
  - rewrite float_update_star_bounce by congruence. cbv zeta.
    rewrite Ht, Habs, (proj2 (Rltb_ge _ _) Hle).
    cbn. repeat split; congruence.
Qed.

(** [n] calls of [update_particles], index by index. *)
Lemma float_update_particles_n_spec (n : nat) (dt : R) (s : Star.t) :
  let s' := Float.update_particles_n n dt s in
  Star.particle_count s' = Star.particle_count s /\
  forall k : nat,
    Star.particles s' !! k =
    if (k <? Z.to_nat (Star.particle_count s))%nat
    then Nat.iter n (Float.particle_step dt) <$> Star.particles s !! k
    else Star.particles s !! k.
Proof.
  unfold Float.update_particles_n. induction n as [|n IH]; cbv zeta.
  - change (Nat.iter 0 (fun s0 => Float.update_particles s0 dt) s) with s.
    split; [reflexivity |].
    intros k. destruct (_ <? _)%nat; [| reflexivity].
    now destruct (Star.particles s !! k).
  - cbv zeta in IH. destruct IH as (Hc & Hk).
    rewrite Nat.iter_succ.
    set (sn := Nat.iter n (fun s0 => Float.update_particles s0 dt) s) in *.
    clearbody sn.
    destruct (float_update_particles_spec sn dt) as (Hf' & _ & Hk').
    split.
    + rewrite Hf'. exact Hc.
    + intros k. rewrite Hk', Hc, Hk.
      destruct (_ <? _)%nat; [| reflexivity].
      destruct (Star.particles s !! k); reflexivity.
Qed.

(** X12.  Over any number of calls of [update_particles] with the same
    [dt >= 0] a particle below the count keeps its velocity, its lifetime
    never grows, and along each axis it never moves against its velocity;
    a particle that was dead at the start does not change at all.  (The
    position and the lifetime are [float]s.) *)
Theorem update_particles_n_particle (s : Star.t) (dt : R) (n i : nat)
    (p : Particle.t) :
  (Z.of_nat i < Star.particle_count s)%Z ->
  Star.particles s !! i = Some p ->
  0 <= dt ->
  fl32 (Particle.x p) = Particle.x p ->
  fl32 (Particle.y p) = Particle.y p ->
  fl32 (Particle.life p) = Particle.life p ->
  exists p' : Particle.t,
    Star.particles (Float.update_particles_n n dt s) !! i = Some p' /\
    Particle.vx p' = Particle.vx p /\
    Particle.vy p' = Particle.vy p /\
    Particle.life p' <= Particle.life p /\
    (0 <= Particle.vx p -> Particle.x p <= Particle.x p') /\
    (Particle.vx p <= 0 -> Particle.x p' <= Particle.x p) /\
    (0 <= Particle.vy p -> Particle.y p <= Particle.y p') /\
    (Particle.vy p <= 0 -> Particle.y p' <= Particle.y p) /\
    (Particle.life p <= 0 -> p' = p).
Proof.
  intros Hi Hp Hdt Hfx Hfy Hfl.
  destruct (float_update_particles_n_spec n dt s) as (_ & Hk).
  exists (Nat.iter n (Float.particle_step dt) p). split.
  { rewrite Hk, Hp.
    destruct (Nat.ltb_spec i (Z.to_nat (Star.particle_count s))); [| lia].
    reflexivity. }
  clear Hk Hi Hp.
  assert (Hall :
    let q := Nat.iter n (Float.particle_step dt) p in
    (fl32 (Particle.x q) = Particle.x q /\
     fl32 (Particle.y q) = Particle.y q /\
     fl32 (Particle.life q) = Particle.life q) /\
    Particle.vx q = Particle.vx p /\
    Particle.vy q = Particle.vy p /\
    Particle.life q <= Particle.life p /\
    (0 <= Particle.vx p -> Particle.x p <= Particle.x q) /\
    (Particle.vx p <= 0 -> Particle.x q <= Particle.x p) /\
    (0 <= Particle.vy p -> Particle.y p <= Particle.y q) /\
    (Particle.vy p <= 0 -> Particle.y q <= Particle.y p) /\
    (Particle.life p <= 0 -> q = p)).
  { induction n as [|n IH]; cbv zeta.
    - change (Nat.iter 0 (Float.particle_step dt) p) with p.
      repeat split; auto; lra.
    - rewrite Nat.iter_succ. cbv zeta in IH.
      set (q := Nat.iter n (Float.particle_step dt) p) in *. clearbody q.
      destruct IH as ((Qx & Qy & Ql) & Hvx & Hvy & Hl & Hx1 & Hx2 & Hy1 & Hy2
                      & Hd).
      unfold Float.particle_step.
      destruct (Rle_lt_dec (Particle.life q) 0) as [Hq | Hq].
      + rewrite (proj2 (Rleb_le _ _) Hq). repeat split; assumption.
      + rewrite (proj2 (Rleb_gt _ _) Hq).
        cbn [Particle.x Particle.y Particle.vx Particle.vy Particle.life].
        rewrite Hvx, Hvy.
        split; [repeat split; apply fl32_idem |].
        split; [reflexivity |]. split; [reflexivity |].
        split.
        { apply Rle_trans with (Particle.life q); [| exact Hl].
          rewrite <- Ql at 2. apply fl32_mono. lra. }
        split.
        { intros Hv. apply Rle_trans with (Particle.x q); [now apply Hx1 |].
          rewrite <- Qx at 1. apply fl32_mono.
          assert (0 <= fl32 (Particle.vx p * dt))
            by (apply fl32_nonneg, Rmult_le_pos; lra).
          lra. }
        split.
        { intros Hv. apply Rle_trans with (Particle.x q); [| now apply Hx2].
          rewrite <- Qx at 2. apply fl32_mono.
          assert (fl32 (Particle.vx p * dt) <= 0)
            by (apply fl32_nonpos; nra).
          lra. }
        split.
        { intros Hv. apply Rle_trans with (Particle.y q); [now apply Hy1 |].
          rewrite <- Qy at 1. apply fl32_mono.
          assert (0 <= fl32 (Particle.vy p * dt))
            by (apply fl32_nonneg, Rmult_le_pos; lra).
          lra. }
        split.
        { intros Hv. apply Rle_trans with (Particle.y q); [| now apply Hy2].
          rewrite <- Qy at 2. apply fl32_mono.
          assert (fl32 (Particle.vy p * dt) <= 0)
            by (apply fl32_nonpos; nra).
          lra. }
        intros Hdead. specialize (Hd Hdead). subst q. lra. }
  cbv zeta in Hall. destruct Hall as (_ & Hall). exact Hall.
Qed.

(** X13.  A lifetime that absorbs the increment never runs out: when the
    [float] nearest to [life - dt] is [life] itself, a live particle
    below the count still has this lifetime, and so is still alive, after
    any number of calls of [update_particles]; its velocity is unchanged,
    and if its position absorbs the steps as well the particle does not
    change at all. *)
Theorem update_particles_n_absorbed (s : Star.t) (dt : R) (n i : nat)
    (p : Particle.t) :
  (Z.of_nat i < Star.particle_count s)%Z ->
  Star.particles s !! i = Some p ->
  0 < Particle.life p ->
  fl32 (Particle.life p - dt) = Particle.life p ->
  exists p' : Particle.t,
    Star.particles (Float.update_particles_n n dt s) !! i = Some p' /\
    Particle.life p' = Particle.life p /\
    Particle.vx p' = Particle.vx p /\
    Particle.vy p' = Particle.vy p /\
    (fl32 (Particle.x p + fl32 (Particle.vx p * dt)) = Particle.x p ->
     fl32 (Particle.y p + fl32 (Particle.vy p * dt)) = Particle.y p ->
     p' = p).
Proof.
  intros Hi Hp Hlive Habs.
  destruct (float_update_particles_n_spec n dt s) as (_ & Hk).
  exists (Nat.iter n (Float.particle_step dt) p). split.
  { rewrite Hk, Hp.
    destruct (Nat.ltb_spec i (Z.to_nat (Star.particle_count s))); [| lia].
    reflexivity. }
  clear Hk Hi Hp.
  induction n as [|n (Hl & Hvx & Hvy & Hsame)].
  - change (Nat.iter 0 (Float.particle_step dt) p) with p.
    repeat split; reflexivity.
  - rewrite Nat.iter_succ.
    set (q := Nat.iter n (Float.particle_step dt) p) in *. clearbody q.
    unfold Float.particle_step.
    assert (Hq : 0 < Particle.life q) by (rewrite Hl; exact Hlive).
    rewrite (proj2 (Rleb_gt _ _) Hq).
    cbn [Particle.x Particle.y Particle.vx Particle.vy Particle.life].
    rewrite Hl, Habs.
    split; [reflexivity |]. split; [exact Hvx |]. split; [exact Hvy |].
    intros Ax Ay. specialize (Hsame Ax Ay). subst q.
    rewrite Ax, Ay. now destruct p.
Qed.

End FloatFacts.

(** With arithmetic that does not round, the functions are those of the
    exact model. *)
Lemma float_exact_model (L : Libc) (s : Star.t) (dt : R) (g : nat) :
  @Float.spawn_particles L fpu_exact s g = spawn_particles s g /\
  @Float.update_particles fpu_exact s dt = update_particles s dt /\
  @Float.update_star L fpu_exact s dt g = update_star s dt g /\
  @Float.dt_main fpu_exact = dt_main.
Proof.
  assert (Hsp : forall s g,
            @Float.spawn_particles L fpu_exact s g = spawn_particles s g).
  { intros s0 g0. unfold Float.spawn_particles, spawn_particles.
    cbv [fl32 fl64 sin_d cos_d fpu_exact]. reflexivity. }
  assert (Hup : forall s dt,
            @Float.update_particles fpu_exact s dt = update_particles s dt).
  { intros s0 dt0. unfold Float.update_particles, update_particles.
    cbv [fl32 fl64 sin_d cos_d fpu_exact]. reflexivity. }
  split; [apply Hsp |]. split; [apply Hup |]. split; [| reflexivity].
  unfold Float.update_star, update_star.
  cbv [fl32 fl64 sin_d cos_d fpu_exact]. cbv zeta.
  rewrite !Hsp, !Hup. reflexivity.
Qed.

(** ** IEEE arithmetic at work *)

Lemma binary64_int (z : Z) :
  (Z.abs z <= 9007199254740992)%Z -> binary64 (IZR z) = IZR z.
Proof. intros Hz. apply round_int; [lia | exact Hz | lia]. Qed.

Lemma binary32_half (m : Z) :
  (Z.abs m <= 16777216)%Z -> binary32 (IZR m / 2) = IZR m / 2.
Proof.
  intros Hm. replace (IZR m / 2) with (IZR m * bpow (-1)) by (bpow_num; lra).
  apply binary32_dyadic; [exact Hm | lia].
Qed.

Lemma binary64_half (m : Z) :
  (Z.abs m <= 9007199254740992)%Z -> binary64 (IZR m / 2) = IZR m / 2.
Proof.
  intros Hm. replace (IZR m / 2) with (IZR m * bpow (-1)) by (bpow_num; lra).
  apply binary64_dyadic; [exact Hm | lia].
Qed.

Lemma binary32_between (a b x : R) :
  binary32 a = a -> binary32 b = b -> a <= x <= b ->
  a <= binary32 x <= b.
Proof.
  intros Ha Hb [H1 H2].
  split; [rewrite <- Ha | rewrite <- Hb]; now apply binary32_mono.
Qed.

Lemma binary64_between (a b x : R) :
  binary64 a = a -> binary64 b = b -> a <= x <= b ->
  a <= binary64 x <= b.
Proof.
  intros Ha Hb [H1 H2].
  split; [rewrite <- Ha | rewrite <- Hb]; now apply binary64_mono.
Qed.

(** The radius that the giant's formula yields is a [float] between 7.5
    and 10.5, whatever the clock shows. *)
Lemma giant_radius_ieee (t : R) :
  let r := binary32 (binary64 (9 + binary64 (binary64 (sin t) * 1.5))) in
  binary32 r = r /\ 7.5 <= r <= 10.5.
Proof.
  cbv zeta. split; [apply binary32_idem |].
  assert (H1 : -1 <= binary64 (sin t) <= 1).
  { apply binary64_between.
    - apply (binary64_int (-1)). lia.
    - apply (binary64_int 1). lia.
    - pose proof (SIN_bound t). lra. }
  assert (H2 : IZR (-3) / 2 <= binary64 (binary64 (sin t) * 1.5)
               <= IZR 3 / 2).
  { apply binary64_between; try (apply binary64_half; lia). lra. }
  assert (H3 : IZR 15 / 2
               <= binary64 (9 + binary64 (binary64 (sin t) * 1.5))
               <= IZR 21 / 2).
  { apply binary64_between; try (apply binary64_half; lia). lra. }
  assert (H4 : IZR 15 / 2
               <= binary32 (binary64 (9 + binary64 (binary64 (sin t) * 1.5)))
               <= IZR 21 / 2).
  { apply binary32_between; try (apply binary32_half; lia). exact H3. }
  lra.
Qed.

Lemma star_collapse_entry_eq :
  exists r : R,
    binary32 r = r /\ 7.5 <= r <= 10.5 /\
    @Float.update_star libc_sample fpu_ieee
      (star_init 0 particles_sample) 6 O
    = (Star.mk r 0 0 0 0 0 COLLAPSE particles_sample 0, O).
Proof.
  rewrite float_update_star_giant by reflexivity. cbv zeta.
  cbn [fl32 fl64 sin_d fpu_ieee Star.time star_init].
  replace (0 + 6) with (IZR 6) by lra.
  rewrite (binary32_int 6) by lia.
  rewrite (proj2 (Rltb_lt 5 6)) by lra.
  destruct (giant_radius_ieee (binary32 (6 * 3))) as (Hr & Hb).
  eexists. split; [exact Hr |]. split; [exact Hb |]. reflexivity.
Qed.

Lemma star_collapse_entry_reachable :
  @Float.reachable_by libc_sample fpu_ieee (Rlt 0) 0 particles_sample
    (star_collapse_entry, O).
Proof.
  unfold star_collapse_entry.
  destruct star_collapse_entry_eq as (r & _ & _ & E).
  replace (fst (@Float.update_star libc_sample fpu_ieee
                  (star_init 0 particles_sample) 6 O), O)
    with (@Float.update_star libc_sample fpu_ieee
            (star_init 0 particles_sample) 6 O)
    by (rewrite E; reflexivity).
  apply Float.reachable_update; [lra | apply Float.reachable_init].
Qed.

(** One long tick takes the initial star into Collapse; the next tick
    does not slow the contraction down and does not let the star grow. *)
Lemma collapse_monotone_witness :
  let s := star_collapse_entry in
  let s' := fst (@Float.update_star libc_sample fpu_ieee s (bpow (-5)) O) in
  @Float.reachable_by libc_sample fpu_ieee (Rlt 0) 0 particles_sample (s, O) /\
  Star.state s = COLLAPSE /\
  0 < bpow (-5) /\
  Star.velocity s <= Star.velocity s' /\
  Star.radius s' <= Star.radius s.
Proof.
  assert (Hs : Star.state star_collapse_entry = COLLAPSE).
  { unfold star_collapse_entry.
    destruct star_collapse_entry_eq as (r & _ & _ & E). rewrite E.
    reflexivity. }
  assert (Hdt : 0 < bpow (-5)) by apply bpow_gt_0.
  cbv zeta.
  split; [exact star_collapse_entry_reachable |].
  split; [exact Hs |]. split; [exact Hdt |].
  destruct (@collapse_monotone libc_sample fpu_ieee fpu_ieee_spec
              0 particles_sample star_collapse_entry O (bpow (-5))
              star_collapse_entry_reachable Hs Hdt)
    as (_ & _ & _ & Hv & Hr & _).
  split; [exact Hv | exact Hr].
Defined.

(** C8 as stated fails.  The program computes in [float]: on the tick of
    [dt = 2^-20] that follows the entry into Collapse, the speed grows to
    [40 * 2^-20], but the product of speed and [dt], [5 * 2^-37], is less
    than half the distance between the radius and the next [float] below
    it; the radius is rounded back to itself and does not decrease. *)
Lemma collapse_radius_absorbed_counterexample :
  let s := star_collapse_entry in
  let dt := bpow (-20) in
  let s' := fst (@Float.update_star libc_sample fpu_ieee s dt O) in
  @Float.reachable_by libc_sample fpu_ieee (Rlt 0) 0 particles_sample (s, O) /\
  Star.state s = COLLAPSE /\
  0 < dt /\
  Star.state s' = COLLAPSE /\
  Star.velocity s < Star.velocity s' /\
  Star.radius s' = Star.radius s /\
  ~ Star.radius s' < Star.radius s.
Proof.
  cbv zeta. split; [exact star_collapse_entry_reachable |].
  unfold star_collapse_entry.
  destruct star_collapse_entry_eq as (r & Hr & Hb & E). rewrite E.
  cbn [fst]. split; [reflexivity |]. split; [apply bpow_gt_0 |].
  rewrite float_update_star_collapse by reflexivity. cbv zeta.
  cbn [fl32 fpu_ieee Star.velocity Star.radius Star.time].
  replace (40 * bpow (-20)) with (IZR 5 * bpow (-17)) by (bpow_num; lra).
  rewrite (binary32_dyadic 5 (-17)) by lia.
  rewrite Rplus_0_l, (binary32_dyadic 5 (-17)) by lia.
  replace (IZR 5 * bpow (-17) * bpow (-20)) with (IZR 5 * bpow (-37))
    by (bpow_num; lra).
  rewrite (binary32_dyadic 5 (-37)) by lia.
  rewrite (binary32_absorb r (IZR 5 * bpow (-37)) Hr Hb)
    by (bpow_num; lra).
  assert (H3 : 3 <= r) by lra.
  rewrite (proj2 (Rltb_ge r 3) H3).
  cbn [fst Star.state Star.velocity Star.radius set_radius set_velocity
       set_time].
  split; [reflexivity |]. split; [bpow_num; lra |].
  split; [reflexivity | lra].
Qed.

(** The clock of the giant stands at 2 and the increment is [2^-24], a
    quarter of the distance to the next [float]. *)
Lemma update_star_n_absorbed_witness :
  let dt := bpow (-24) in
  let w := @Float.update_star_n libc_sample fpu_ieee 1000 dt (star_giant, O) in
  0 < dt /\
  ((Star.state star_giant = GIANT /\ Star.time star_giant <= 5) \/
   (Star.state star_giant = BOUNCE /\
    Star.time star_giant <= @fl64 fpu_ieee 0.8)) /\
  @fl32 fpu_ieee (Star.time star_giant + dt) = Star.time star_giant /\
  Star.state (fst w) = Star.state star_giant /\
  Star.time (fst w) = Star.time star_giant /\
  snd w = O.
Proof.
  assert (Hdt : 0 < bpow (-24)) by apply bpow_gt_0.
  assert (Hst : (Star.state star_giant = GIANT /\ Star.time star_giant <= 5) \/
                (Star.state star_giant = BOUNCE /\
                 Star.time star_giant <= @fl64 fpu_ieee 0.8)).
  { left. split; [reflexivity |]. cbn. lra. }
  assert (Habs : @fl32 fpu_ieee (Star.time star_giant + bpow (-24))
                 = Star.time star_giant).
  { cbn [fl32 fpu_ieee Star.time star_giant].
    replace 2 with (IZR 8388608 * bpow (2 - 24)) at 2 by (bpow_num; lra).
    apply binary32_near; [| lia |].
    - rewrite Rabs_pos_eq by (bpow_num; lra). bpow_num. lra.
    - replace (2 + bpow (-24) - IZR 8388608 * bpow (2 - 24))
        with (bpow (-24)) by (bpow_num; lra).
      rewrite Rabs_pos_eq by lra. bpow_num. lra. }
  cbv zeta. split; [exact Hdt |]. split; [exact Hst |].
  split; [exact Habs |].
  exact (@update_star_n_absorbed libc_sample fpu_ieee star_giant (bpow (-24))
           O 1000 Hst Habs).
Defined.

Lemma binary32_sample_fields :
  binary32 (Particle.x particle_sample) = Particle.x particle_sample /\
  binary32 (Particle.y particle_sample) = Particle.y particle_sample /\
  binary32 (Particle.life particle_sample) = Particle.life particle_sample.
Proof.
  cbn [Particle.x Particle.y Particle.life particle_sample].
  split; [| split].
  - replace 47.5 with (IZR 95 / 2) by lra. apply binary32_half. lia.
  - replace 16.25 with (IZR 65 * bpow (-2)) by (bpow_num; lra).
    apply binary32_dyadic; lia.
  - apply (binary32_int 3). lia.
Qed.

Lemma update_particles_n_particle_witness :
  let dt := bpow (-5) in
  (Z.of_nat 1 < Star.particle_count star_exploding)%Z /\
  Star.particles star_exploding !! 1%nat = Some particle_sample /\
  0 <= dt /\
  @fl32 fpu_ieee (Particle.x particle_sample) = Particle.x particle_sample /\
  @fl32 fpu_ieee (Particle.y particle_sample) = Particle.y particle_sample /\
  @fl32 fpu_ieee (Particle.life particle_sample)
    = Particle.life particle_sample /\
  exists p' : Particle.t,
    Star.particles (@Float.update_particles_n fpu_ieee 4 dt star_exploding)
      !! 1%nat = Some p' /\
    Particle.vx p' = Particle.vx particle_sample /\
    Particle.vy p' = Particle.vy particle_sample /\
    Particle.life p' <= Particle.life particle_sample /\
    Particle.x particle_sample <= Particle.x p' /\
    Particle.y p' <= Particle.y particle_sample.
Proof.
  assert (Hi : (Z.of_nat 1 < Star.particle_count star_exploding)%Z)
    by reflexivity.
  assert (Hp : Star.particles star_exploding !! 1%nat = Some particle_sample)
    by reflexivity.
  assert (Hdt : 0 <= bpow (-5)) by (pose proof (bpow_gt_0 (-5)); lra).
  destruct binary32_sample_fields as (Hx & Hy & Hl).
  cbv zeta.
  split; [exact Hi |]. split; [exact Hp |]. split; [exact Hdt |].
  split; [exact Hx |]. split; [exact Hy |]. split; [exact Hl |].
  destruct (@update_particles_n_particle fpu_ieee fpu_ieee_spec
              star_exploding (bpow (-5)) 4 1 particle_sample
              Hi Hp Hdt Hx Hy Hl)
    as (p' & Hp' & Hvx & Hvy & Hlife & Hx1 & _ & _ & Hy2 & _).
  exists p'. split; [exact Hp' |]. split; [exact Hvx |].
  split; [exact Hvy |]. split; [exact Hlife |].
  split; [apply Hx1; cbn; lra | apply Hy2; cbn; lra].
Defined.

(** The particle has three seconds to live and the increment is [2^-24],
    a quarter of the distance from 3 to the next [float] below. *)
Lemma update_particles_n_absorbed_witness :
  let dt := bpow (-24) in
  0 < dt /\
  (Z.of_nat 1 < Star.particle_count star_exploding)%Z /\
  Star.particles star_exploding !! 1%nat = Some particle_sample /\
  0 < Particle.life particle_sample /\
  @fl32 fpu_ieee (Particle.life particle_sample - dt)
    = Particle.life particle_sample /\
  exists p' : Particle.t,
    Star.particles (@Float.update_particles_n fpu_ieee 1000 dt star_exploding)
      !! 1%nat = Some p' /\
    Particle.life p' = Particle.life particle_sample.
Proof.
  assert (Hdt : 0 < bpow (-24)) by apply bpow_gt_0.
  assert (Hi : (Z.of_nat 1 < Star.particle_count star_exploding)%Z)
    by reflexivity.
  assert (Hp : Star.particles star_exploding !! 1%nat = Some particle_sample)
    by reflexivity.
  assert (Hlive : 0 < Particle.life particle_sample) by (cbn; lra).
  assert (Habs : @fl32 fpu_ieee (Particle.life particle_sample - bpow (-24))
                 = Particle.life particle_sample).
  { cbn [fl32 fpu_ieee Particle.life particle_sample].
    replace 3 with (IZR 12582912 * bpow (2 - 24)) at 2 by (bpow_num; lra).
    apply binary32_near; [| lia |].
    - rewrite Rabs_pos_eq by (bpow_num; lra). bpow_num. lra.
    - replace (3 - bpow (-24) - IZR 12582912 * bpow (2 - 24))
        with (- bpow (-24)) by (bpow_num; lra).
      rewrite Rabs_Ropp, Rabs_pos_eq by lra. bpow_num. lra. }
  cbv zeta.
  split; [exact Hdt |]. split; [exact Hi |]. split; [exact Hp |].
  split; [exact Hlive |]. split; [exact Habs |].
  destruct (@update_particles_n_absorbed fpu_ieee star_exploding (bpow (-24))
              1000 1 particle_sample Hi Hp Hlive Habs)
    as (p' & Hp' & Hl & _).
  exists p'. split; [exact Hp' | exact Hl].
Defined.
